(** * local-mysql-cache: a shallow embedding of [src/mysql-cache.js]

    The class [MySqlCache] keeps the whole result set of one SQL query in a
    JavaScript [Map] from keys to arrays of records, replaces that map on
    every refresh, optionally writes it to a JSON file and reads it back at
    start-up, and serves deep copies to its readers.

    The embedding follows the source method by method, under these
    conventions.
    - The content of a row, a record or a key is a tree ([value]).  Keys
      are compared by their content, which is how a [Map] compares
      scalars; what is stated of the keys of a [Map] is stated of scalar
      keys.
    - The arrays the code stores, mutates or hands out, and the record
      objects, have identity: they live in a [store] and are named by
      their position in it, so that two names of one array are one array
      here as well.
    - A call that may throw returns a [result].
    - An asynchronous method is a function of what the call it awaits
      yields (the rows or the error of the query, the content of the file,
      the error of the write); the event loop is the list of these
      completions in the order they reach the cache.
    - The clock is a number.
    - The options the constructor receives are an object of named values
      ([applyOptions]); the methods read them from a [config].
    - The interval [startCache] sets and the calls that are under way are
      a state of their own ([instance]). *)

From Stdlib Require Import Floats.
From stdpp Require Import base tactics numbers strings pretty option list.

(** ** JavaScript values *)

(** Primitive values.  Numbers are integers here: [NaN], the infinities and
    fractions never matter to the code of the cache. *)
Inductive prim :=
| PUndefined
| PNull
| PBool (b : bool)
| PNum (n : Z)
| PStr (s : string)
| PBigInt (n : Z).

(** A tree of plain data: what a row, a record or a key holds. *)
#[warnings="-register-all"]
Inductive value :=
| VPrim (p : prim)
| VArr (elems : list value)
| VObj (fields : list (string * value)).

(** What JavaScript code throws. [Thrown n] stands for the errors of the
    collaborators (the query executor, the mappers, the record constructor,
    the file system), told apart by [n]; [ENOENT] is the file-system error
    whose [code] is ['ENOENT']. *)
Inductive exn :=
| TypeError
| SyntaxError
| ENOENT
| Thrown (n : nat).

(** The outcome of a call that may throw. *)
Inductive result (A : Type) :=
| Ok (a : A)
| Throw (e : exn).
Arguments Ok {A} a.
Arguments Throw {A} e.

Global Instance result_ret : MRet result := @Ok.
Global Instance result_bind : MBind result := λ A B f m,
  match m with
  | Ok a => f a
  | Throw e => Throw e
  end.
Global Instance result_fmap : FMap result := λ A B f m,
  match m with
  | Ok a => Ok (f a)
  | Throw e => Throw e
  end.

Global Instance prim_eq_dec : EqDecision prim.
Proof. solve_decision. Defined.

Global Instance exn_eq_dec : EqDecision exn.
Proof. solve_decision. Defined.

(** [SameValueZero], the comparison a [Map] uses for its keys.  On scalars
    it is equality of values, and a scalar is never the same as an array
    or an object.  Two arrays or objects are the same key in JavaScript
    when they are one object; a tree has no identity, and here they are
    the same key when their contents are equal.  The keys the
    specification describes are scalars, and the statements that depend
    on which keys are the same are about scalar keys ([scalar_key]). *)
Fixpoint same_value_zero (a b : value) : bool :=
  match a, b with
  | VPrim p, VPrim q => bool_decide (p = q)
  | VArr xs, VArr ys =>
      (fix go (xs ys : list value) : bool :=
         match xs, ys with
         | [], [] => true
         | x :: xs', y :: ys' => same_value_zero x y && go xs' ys'
         | _, _ => false
         end) xs ys
  | VObj fs, VObj gs =>
      (fix go (fs gs : list (string * value)) : bool :=
         match fs, gs with
         | [], [] => true
         | (k, x) :: fs', (k', y) :: gs' =>
             bool_decide (k = k') && same_value_zero x y && go fs' gs'
         | _, _ => false
         end) fs gs
  | _, _ => false
  end.

(** A key that is a scalar: [undefined], [null], a boolean, a number, a
    string or a BigInt. *)
Definition scalar_key (k : value) : Prop :=
  match k with
  | VPrim _ => True
  | _ => False
  end.

(** The own property [f] of an object. *)
Fixpoint field_lookup (f : string) (fs : list (string * value)) : option value :=
  match fs with
  | [] => None
  | (k, v) :: fs' => if bool_decide (k = f) then Some v else field_lookup f fs'
  end.

(** The element of an array whose index, counted from [i], has the
    numeral [f]. *)
Fixpoint index_lookup (f : string) (i : nat) (es : list value) : option value :=
  match es with
  | [] => None
  | e :: es' => if bool_decide (pretty i = f) then Some e else index_lookup f (S i) es'
  end.

(** [d[f]] on plain data, for [d] other than [null] and [undefined]: the
    own property of that name of an object, the length or an element of
    an array, the length or a character of a string, or [undefined].  The
    names a prototype defines ([constructor], [toString], ...) are outside
    the model: [f] is the name of a column. *)
Definition get_field (f : string) (d : value) : value :=
  match d with
  | VObj fs => default (VPrim PUndefined) (field_lookup f fs)
  | VArr es =>
      if bool_decide (f = "length") then VPrim (PNum (Z.of_nat (length es)))
      else default (VPrim PUndefined) (index_lookup f 0 es)
  | VPrim (PStr s) =>
      if bool_decide (f = "length") then VPrim (PNum (Z.of_nat (String.length s)))
      else default (VPrim PUndefined)
             (index_lookup f 0
                ((λ ch, VPrim (PStr (String ch EmptyString)))
                   <$> String.list_ascii_of_string s))
  | VPrim _ => VPrim PUndefined
  end.

(** ** JSON *)

(** The fields [JSON.stringify] writes for an object, [f] being what it
    writes for a value: a field whose value is [undefined] is left out. *)
Definition json_fields (f : value → result value)
    : list (string * value) → result (list (string * value)) :=
  fix go fs :=
    match fs with
    | [] => Ok []
    | (k, VPrim PUndefined) :: fs' => go fs'
    | (k, v) :: fs' => j ← f v; js ← go fs'; Ok ((k, j) :: js)
    end.

(** [JSON.parse(JSON.stringify(d))] for [d] in the position of an array
    element: [undefined] becomes [null] there, and a BigInt makes
    [JSON.stringify] throw a [TypeError].  A JSON text is identified with
    the tree it denotes. *)
Fixpoint json_clone (d : value) : result value :=
  match d with
  | VPrim PUndefined => Ok (VPrim PNull)
  | VPrim (PBigInt _) => Throw TypeError
  | VPrim p => Ok (VPrim p)
  | VArr es => VArr <$> mapM json_clone es
  | VObj fs => VObj <$> json_fields json_clone fs
  end.

(** ** The store: arrays and record objects with identity *)

(** An element of an array kept by the cache: a primitive, or a reference
    to an object of the store.  A record that is itself an array or a
    nested object is an object of the store whose content is that tree. *)
Inductive item :=
| IPrim (p : prim)
| IObj (o : nat).

(** The part of the JavaScript heap one Index lives in.  [arrs] are the
    arrays of records ([cacheMap]'s values, the arrays a mapper returns,
    the arrays the read operations hand out), named by position; [objs]
    are the record objects, named by position, each with its content.
    A refresh cycle and a snapshot load build their Index in a store of
    their own: the rows of a query and the JSON [JSON.parse] builds are
    new objects, and so is what a mapper returns, mappers being stateless
    (a call may still put one array it has built into several pairs).
    Nothing a cycle builds is shared with the Index in use. *)
Record store := Store {
  arrs : list (list item);
  objs : list value;
}.

Definition empty_store : store := Store [] [].

(** The elements of array [a]. *)
Definition arr (h : store) (a : nat) : list item := default [] (arrs h !! a).

(** [arr[j]]; reading past the end gives [undefined]. *)
Definition elem (h : store) (a j : nat) : item :=
  default (IPrim PUndefined) (arr h a !! j).

(** The content of a record, as a tree. *)
Definition view (h : store) (r : item) : value :=
  match r with
  | IPrim p => VPrim p
  | IObj o => default (VPrim PUndefined) (objs h !! o)
  end.

(** A new object with content [d]. *)
Definition new_obj (d : value) (h : store) : item * store :=
  (IObj (length (objs h)), Store (arrs h) (objs h ++ [d])).

(** A new array with elements [l]. *)
Definition new_arr (l : list item) (h : store) : nat * store :=
  (length (arrs h), Store (arrs h ++ [l]) (objs h)).

(** [arr[j] = r], for [j] within the array. *)
Definition set_elem (a j : nat) (r : item) (h : store) : store :=
  Store (alter (λ l, <[j:=r]> l) a (arrs h)) (objs h).

(** [arr.push(...rs)]. *)
Definition push (a : nat) (rs : list item) (h : store) : store :=
  Store (alter (λ l, l ++ rs) a (arrs h)) (objs h).

(** What [JSON.parse] builds for one array element: a primitive stays a
    primitive, an array or object is a new object. *)
Definition parse_value (d : value) (h : store) : item * store :=
  match d with
  | VPrim p => (IPrim p, h)
  | _ => new_obj d h
  end.

Fixpoint parse_values (ds : list value) (h : store) : list item * store :=
  match ds with
  | [] => ([], h)
  | d :: ds' =>
      let '(r, h1) := parse_value d h in
      let '(rs, h2) := parse_values ds' h1 in
      (r :: rs, h2)
  end.

(** What [JSON.parse] builds for an array of records: the records, then the
    array that holds them. *)
Definition parse_array (ds : list value) (h : store) : nat * store :=
  let '(rs, h1) := parse_values ds h in new_arr rs h1.

(** [JSON.stringify] of an array of records, read back as trees. *)
Definition stringify_items (h : store) (items : list item) : result (list value) :=
  mapM (λ r, json_clone (view h r)) items.

(** ** The [Map] *)

(** A [Map] from keys to arrays, in insertion order. *)
Definition jsmap := list (value * nat).

Fixpoint map_get (m : jsmap) (k : value) : option nat :=
  match m with
  | [] => None
  | (k', a) :: m' => if same_value_zero k' k then Some a else map_get m' k
  end.

(** [Map.prototype.set]: a present key keeps its place and gets the new
    value, a new key goes last. *)
Fixpoint map_set (m : jsmap) (k : value) (a : nat) : jsmap :=
  match m with
  | [] => [(k, a)]
  | (k', a') :: m' =>
      if same_value_zero k' k then (k', a) :: m' else (k', a') :: map_set m' k a
  end.

(** [new Map(entries)]. *)
Definition new_Map (entries : list (value * nat)) : jsmap :=
  foldl (λ m e, map_set m e.1 e.2) [] entries.

(** ** Configuration *)

(** [itemClass]: what [new Item(x)] makes of the content of [x]. *)
Definition ctor := value → result value.

(** The second component of a pair a mapper returns: an array
    ([Array.isArray] holds), named by its place in the store, or anything
    else, which is one record. *)
Inductive mvalue :=
| Scalar (r : item)
| Seq (a : nat).

Definition mapItem : Type := value * mvalue.

(** The options [applyOptions] copies onto the instance, as far as the
    refresh cycle reads them.  A mapper is the caller's code: it may build
    arrays and objects in the store of the cycle. *)
Record config := Config {
  keyFieldName : string;
  shouldSaveToFile : bool;
  itemClass : option ctor;
  parseDataRow_option : option (item → store → result (mapItem * store));
  parseDataMultiRow : option (item → store → result (list mapItem * store));
}.

(** The prototype's [parseDataRow]: [[row[this.keyFieldName], row]].
    Reading a property of [null] or [undefined] throws a [TypeError].  A
    row that is an array (the driver returns such rows on request, each a
    new array) is an array value of the pair, as line 110 finds: it is an
    array of the store from there on, with the elements the row has. *)
Definition parseDataRow_default (cfg : config) (row : item) (h : store)
    : result (mapItem * store) :=
  match view h row with
  | VPrim PUndefined | VPrim PNull => Throw TypeError
  | VArr es =>
      let '(a, h1) := parse_array es h in
      Ok ((get_field (keyFieldName cfg) (VArr es), Seq a), h1)
  | d => Ok ((get_field (keyFieldName cfg) d, Scalar row), h)
  end.

(** [this.parseDataRow]: the option of that name when the caller gave one
    ([Object.assign(this, optionsWithDefaults)] shadows the method), the
    prototype's otherwise. *)
Definition parseDataRow (cfg : config) : item → store → result (mapItem * store) :=
  match parseDataRow_option cfg with
  | Some f => f
  | None => parseDataRow_default cfg
  end.

(** ** The options: [getDefaults] and [applyOptions] *)

(** The value of a property of the options or of the instance: plain
    data, a number with a fraction, or an object or a function of the
    caller (the query executor, a mapper, the record class), which the
    code of this part only passes on and which a number tells apart. *)
Inductive optionValue :=
| OData (d : value)
| ONumber (x : float)
| OObject (n : nat).

(** [v == null]: [v] is [undefined] or [null]. *)
Definition is_nullish (v : optionValue) : bool :=
  match v with
  | OData (VPrim PUndefined) | OData (VPrim PNull) => true
  | _ => false
  end.

(** An object, as its own enumerable properties in the order [for ... in]
    and [Object.assign] visit them, which for names that are not numerals
    is the order of their creation.  Option names are not numerals. *)
Definition object : Type := list (string * optionValue).

(** [o[k]], for an own property. *)
Fixpoint property (o : object) (k : string) : option optionValue :=
  match o with
  | [] => None
  | (k', v) :: o' => if bool_decide (k' = k) then Some v else property o' k
  end.

(** [o[k] = v]: a property the object has keeps its place, a new one goes
    last. *)
Fixpoint set_property (o : object) (k : string) (v : optionValue) : object :=
  match o with
  | [] => [(k, v)]
  | (k', v') :: o' =>
      if bool_decide (k' = k) then (k', v) :: o' else (k', v') :: set_property o' k v
  end.

(** [Object.assign(target, source)]; a [source] that is [undefined] is
    skipped. *)
Definition Object_assign (target : object) (source : option object) : object :=
  match source with
  | None => target
  | Some ps => foldl (λ t p, set_property t p.1 p.2) target ps
  end.

(** [getDefaults].  [className] is [this.constructor.name], [paramCase]
    the function of that name of the package change-case, [random] what
    [Math.random()] returns. *)
Definition getDefaults (className : string) (paramCase : string → string)
    (random : float) : object :=
  [("sql", OData (VPrim PUndefined));
   ("mysqlQueryable", OData (VPrim PUndefined));
   ("cacheFilePath", OData (VPrim (PStr ("./" +:+ paramCase className +:+ ".json"))));
   ("name", OData (VPrim (PStr className)));
   ("keyFieldName", OData (VPrim (PStr "id")));
   ("reloadFromMySqlInterval", ONumber ((5 + random) * 60 * 1000)%float);
   ("shouldSaveToFile", OData (VPrim (PBool false)))].

(** What [applyOptions] does: it copies the options onto the instance, or
    throws [new Error('"<optionKey>" option is missing')]. *)
Inductive applied :=
| Applied (this : object)
| OptionMissing (optionKey : string).

(** [applyOptions]; [this] holds the own properties of the instance when
    the constructor calls it ([data], and those of the emitter). *)
Definition applyOptions (className : string) (paramCase : string → string)
    (random : float) (this : object) (options : option object) : applied :=
  let optionsWithDefaults :=
    Object_assign (getDefaults className paramCase random) options in
  match find (λ p, is_nullish p.2) optionsWithDefaults with
  | Some (optionKey, _) => OptionMissing optionKey
  | None => Applied (Object_assign this (Some optionsWithDefaults))
  end.

(** ** The refresh cycle: [loadFromDatabase] *)

(** Lines 94-102: the rows go through one mapper, in order, and the pairs
    are collected in [mapItems]. *)
Fixpoint map_multi (f : item → store → result (list mapItem * store))
    (rows : list item) (mapItems : list mapItem) (h : store)
    : result (list mapItem * store) :=
  match rows with
  | [] => Ok (mapItems, h)
  | row :: rows' =>
      '(its, h1) ← f row h;
      map_multi f rows' (mapItems ++ its) h1
  end.

Fixpoint map_single (g : item → store → result (mapItem * store))
    (rows : list item) (mapItems : list mapItem) (h : store)
    : result (list mapItem * store) :=
  match rows with
  | [] => Ok (mapItems, h)
  | row :: rows' =>
      '(it, h1) ← g row h;
      map_single g rows' (mapItems ++ [it]) h1
  end.

Definition map_rows (cfg : config) (rows : list item) (h : store)
    : result (list mapItem * store) :=
  match parseDataMultiRow cfg with
  | Some f => map_multi f rows [] h
  | None => map_single (parseDataRow cfg) rows [] h
  end.

(** [new Item(r)]: the constructor sees the content of [r] and the result
    is a new object. *)
Definition new_Item (Item : ctor) (r : item) (h : store) : result (item * store) :=
  d ← Item (view h r); Ok (new_obj d h).

(** [for (j = 0; j < arr.length; j++) arr[j] = new Item(arr[j])], from
    index [j] with [n] elements to go (lines 116-118 and 155-157). *)
Fixpoint construct_loop (Item : ctor) (a j n : nat) (h : store) : result store :=
  match n with
  | O => Ok h
  | S n' =>
      '(r, h1) ← new_Item Item (elem h a j) h;
      construct_loop Item a (S j) n' (set_elem a j r h1)
  end.

Definition construct_array (Item : ctor) (a : nat) (h : store) : result store :=
  construct_loop Item a 0 (length (arr h a)) h.

(** One turn of the loop of lines 104-137. *)
Definition merge_step (Item : option ctor) (mapItem : mapItem)
    (h : store) (cacheMap : jsmap) : result (store * jsmap) :=
  let dataKey := mapItem.1 in
  match mapItem.2 with
  | Scalar r =>
      '(dataValue, h1) ←
        match Item with
        | Some cls => new_Item cls r h
        | None => Ok (r, h)
        end;
      match map_get cacheMap dataKey with
      | None =>
          let '(a, h2) := new_arr [dataValue] h1 in
          Ok (h2, map_set cacheMap dataKey a)
      | Some mapDataValue => Ok (push mapDataValue [dataValue] h1, cacheMap)
      end
  | Seq dataValue =>
      h1 ←
        match Item with
        | Some cls => construct_array cls dataValue h
        | None => Ok h
        end;
      match map_get cacheMap dataKey with
      | None => Ok (h1, map_set cacheMap dataKey dataValue)
      | Some mapDataValue =>
          Ok (push mapDataValue (arr h1 dataValue) h1, cacheMap)
      end
  end.

Fixpoint merge_loop (Item : option ctor) (mapItems : list mapItem)
    (h : store) (cacheMap : jsmap) : result (store * jsmap) :=
  match mapItems with
  | [] => Ok (h, cacheMap)
  | mapItem :: rest =>
      '(h1, cacheMap1) ← merge_step Item mapItem h cacheMap;
      merge_loop Item rest h1 cacheMap1
  end.

(** ** The cache *)

Inductive event :=
| EvUpdate
| EvError (e : exn).

(** Which caller of [setData] replaced [this.data]. *)
Inductive origin :=
| FromDatabase
| FromFile.

(** The instance.  [mem] is the store [data]'s arrays live in,
    [loadDataPromise] tells whether the promise of [startCache] is
    resolved, [emitted] lists the calls of [this.emit] in order.  [swaps]
    is not a field of the JavaScript object: it records, for the
    statements about readiness, the caller of each [setData] that went
    through. *)
Record cache := Cache {
  mem : store;
  data : jsmap;
  lastUpdate : option nat;
  loadDataPromise : bool;
  emitted : list event;
  swaps : list origin;
}.

(** The constructor: [this.data = new Map()], the promise pending. *)
Definition new_cache : cache := Cache empty_store [] None false [] [].

Definition with_mem (h : store) (c : cache) : cache :=
  Cache h (data c) (lastUpdate c) (loadDataPromise c) (emitted c) (swaps c).

(** [this.emit('update')]: the listener [startCache] registered resolves
    [loadDataPromise]. *)
Definition emit_update (c : cache) : cache :=
  Cache (mem c) (data c) (lastUpdate c) true (emitted c ++ [EvUpdate]) (swaps c).

(** [this.emit('error', err)]. *)
Definition emit_error (e : exn) (c : cache) : cache :=
  Cache (mem c) (data c) (lastUpdate c) (loadDataPromise c)
        (emitted c ++ [EvError e]) (swaps c).

(** The argument of [setData]: nothing, a [Map], or what [JSON.parse]
    returned for the snapshot file ([null] for an empty file, else the
    array of [[key, [record, ...]]] pairs, parsed into a store).  A file
    whose JSON is not an array of such pairs is outside the model. *)
Inductive mapData :=
| MUndefined
| MMap (h : store) (m : jsmap)
| MNull
| MArray (h : store) (entries : list (value * nat)).

(** Lines 151-159: every array of the parsed pairs goes through the
    constructor. *)
Fixpoint construct_entries (Item : ctor) (entries : list (value * nat)) (h : store)
    : result store :=
  match entries with
  | [] => Ok h
  | mapPair :: rest =>
      h1 ← construct_array Item mapPair.2 h;
      construct_entries Item rest h1
  end.

(** The Index [setData] is about to install. [for (... of null)] throws,
    [new Map(null)] is an empty map. *)
Definition setData_index (cfg : config) (md : mapData) : result (store * jsmap) :=
  match md with
  | MUndefined => Ok (empty_store, [])
  | MMap h m => Ok (h, m)
  | MNull =>
      match itemClass cfg with
      | Some _ => Throw TypeError
      | None => Ok (empty_store, [])
      end
  | MArray h entries =>
      h1 ←
        match itemClass cfg with
        | Some cls => construct_entries cls entries h
        | None => Ok h
        end;
      Ok (h1, new_Map entries)
  end.

(** [setData]: install the Index, set [lastUpdate], emit ['update']. *)
Definition setData (cfg : config) (who : origin) (md : mapData) (now : nat)
    (c : cache) : result cache :=
  '(h, m) ← setData_index cfg md;
  Ok (emit_update
        (Cache h m (Some now) (loadDataPromise c) (emitted c) (swaps c ++ [who]))).

(** What the query callback receives: an error, or the rows; the rows are
    [null], or an array of row objects in a store of their own. *)
Inductive query_result :=
| QError (e : exn)
| QNull
| QRows (h : store) (rows : list item).

(** [queryDatabase]: the promise rejects with the error of the query; the
    [debug] call of line 182 reads [rows.length], which throws on [null]. *)
Definition queryDatabase (q : query_result) : result (option (store * list item)) :=
  match q with
  | QError e => Throw e
  | QNull => Throw TypeError
  | QRows h rows => Ok (Some (h, rows))
  end.

Definition loadFromDatabase (cfg : config) (now : nat) (q : query_result)
    (c : cache) : result cache :=
  rows ← queryDatabase q;
  match rows with
  | None => setData cfg FromDatabase MUndefined now c
  | Some (h, rows) =>
      if bool_decide (length rows = 0) then
        setData cfg FromDatabase MUndefined now c
      else
        '(mapItems, h1) ← map_rows cfg rows h;
        '(h2, cacheMap) ← merge_loop (itemClass cfg) mapItems h1 [];
        setData cfg FromDatabase (MMap h2 cacheMap) now c
  end.

(** ** The snapshot file *)

(** The JSON text of a snapshot: an array of [[key, [record, ...]]]. *)
Definition snapshot : Type := list (value * list value).

(** [JSON.stringify([...this.data])]. *)
Definition stringify_data (h : store) (m : jsmap) : result snapshot :=
  mapM (λ e, k ← json_clone e.1; vs ← stringify_items h (arr h e.2); Ok (k, vs)) m.

(** [saveToFile]: serialize, then write; [wr] is the error of
    [fs.writeFile], if it fails.  The result is the text written. *)
Definition saveToFile (wr : option exn) (c : cache) : result snapshot :=
  dataJson ← stringify_data (mem c) (data c);
  match wr with
  | Some e => Throw e
  | None => Ok dataJson
  end.

(** [loadFromDatabaseAndSaveToFile]: one refresh cycle, from the moment
    the query calls back. *)
Definition loadFromDatabaseAndSaveToFile (cfg : config) (now : nat)
    (q : query_result) (wr : option exn) (c : cache) : cache :=
  match loadFromDatabase cfg now q c with
  | Throw err => emit_error err c
  | Ok c1 =>
      if shouldSaveToFile cfg then
        match saveToFile wr c1 with
        | Throw err => emit_error err c1
        | Ok _ => c1
        end
      else c1
  end.

(** What [fs.readFile] yields: an error, or the bytes, which are empty,
    not JSON, or the JSON text of a snapshot. *)
Inductive file_content :=
| FileEmpty
| FileNotJson
| FileJson (s : snapshot).

Inductive read_result :=
| ReadError (e : exn)
| ReadOk (f : file_content).

(** [JSON.parse] of a snapshot: every pair gets a new array of new
    records. *)
Fixpoint parse_snapshot (s : snapshot) (h : store) : list (value * nat) * store :=
  match s with
  | [] => ([], h)
  | (k, vs) :: s' =>
      let '(a, h1) := parse_array vs h in
      let '(entries, h2) := parse_snapshot s' h1 in
      ((k, a) :: entries, h2)
  end.

(** [!_.isEmpty(data) ? JSON.parse(data) : null]. *)
Definition parse_file (f : file_content) : result mapData :=
  match f with
  | FileEmpty => Ok MNull
  | FileNotJson => Throw SyntaxError
  | FileJson s =>
      let '(entries, h) := parse_snapshot s empty_store in Ok (MArray h entries)
  end.

(** [mapData.length], which the [debug] call of line 209 reads: reading a
    property of [null] or [undefined] throws. *)
Definition mapData_length (md : mapData) : result unit :=
  match md with
  | MNull | MUndefined => Throw TypeError
  | MArray _ _ | MMap _ _ => Ok ()
  end.

(** The [catch] of [loadCacheFromFile]. *)
Definition file_catch (err : exn) (c : cache) : cache :=
  if bool_decide (err = ENOENT) then c else emit_error err c.

Definition loadCacheFromFile (cfg : config) (now : nat) (r : read_result)
    (c : cache) : cache :=
  match r with
  | ReadError err => file_catch err c
  | ReadOk f =>
      match parse_file f with
      | Throw err => file_catch err c
      | Ok mapData =>
          match setData cfg FromFile mapData now c with
          | Throw err => file_catch err c
          | Ok c1 =>
              match mapData_length mapData with
              | Throw err => file_catch err c1
              | Ok _ => c1
              end
          end
      end
  end.

(** ** The event loop *)

(** The callbacks that reach the cache after [startCache]: the query of a
    refresh cycle (the first one or a tick of the timer) calls back, or
    the read of the snapshot file does.  Each carries the time [new Date()]
    would give. *)
Inductive completion :=
| DbDone (now : nat) (q : query_result) (wr : option exn)
| FileDone (now : nat) (r : read_result).

(** [startCache] starts [loadCacheFromFile] only when [shouldSaveToFile]
    is set. *)
Definition step (cfg : config) (c : cache) (ev : completion) : cache :=
  match ev with
  | DbDone now q wr => loadFromDatabaseAndSaveToFile cfg now q wr c
  | FileDone now r =>
      if shouldSaveToFile cfg then loadCacheFromFile cfg now r c else c
  end.

Definition run (cfg : config) (evs : list completion) (c : cache) : cache :=
  foldl (step cfg) c evs.

(** ** The timer: [startCache] and [destroy] *)

(** The instance with what it has under way: whether the interval
    [startCache] set is still set ([reloadTimer]), how many refresh cycles
    have issued their query and wait for its callback, and whether the read
    of the snapshot file is under way. *)
Record instance := Instance {
  state : cache;
  reloadTimer : bool;
  queries : nat;
  reading : bool;
}.

(** [startCache]: the first cycle issues its query, the interval is set,
    and the snapshot file is read when [shouldSaveToFile] is set. *)
Definition startCache (cfg : config) : instance :=
  Instance new_cache true 1 (shouldSaveToFile cfg).

(** [destroy]: [clearInterval(this.reloadTimer)], and nothing else. *)
Definition destroy (i : instance) : instance :=
  Instance (state i) false (queries i) (reading i).

(** What happens to an instance: the interval fires, one of the callbacks
    it waits for comes, or the caller destroys it. *)
Inductive occurrence :=
| Tick
| Callback (ev : completion)
| Destroy.

(** One occurrence; [None] when it cannot happen: the interval fires only
    while it is set, and a callback comes only for a query or a read that
    is under way. *)
Definition occur (cfg : config) (i : instance) (o : occurrence) : option instance :=
  match o with
  | Tick =>
      if reloadTimer i
      then Some (Instance (state i) true (S (queries i)) (reading i))
      else None
  | Callback (DbDone now q wr) =>
      match queries i with
      | O => None
      | S n =>
          Some (Instance (loadFromDatabaseAndSaveToFile cfg now q wr (state i))
                         (reloadTimer i) n (reading i))
      end
  | Callback (FileDone now r) =>
      if reading i
      then Some (Instance (loadCacheFromFile cfg now r (state i))
                          (reloadTimer i) (queries i) false)
      else None
  | Destroy => Some (destroy i)
  end.

Fixpoint occurs (cfg : config) (i : instance) (os : list occurrence)
    : option instance :=
  match os with
  | [] => Some i
  | o :: os' =>
      match occur cfg i o with
      | Some i' => occurs cfg i' os'
      | None => None
      end
  end.

(** The callbacks among the occurrences, in order. *)
Definition callbacks (os : list occurrence) : list completion :=
  omap (λ o, match o with Callback ev => Some ev | _ => None end) os.

Definition is_DbDone (ev : completion) : bool :=
  match ev with DbDone _ _ _ => true | FileDone _ _ => false end.

Definition is_Tick (o : occurrence) : bool :=
  match o with Tick => true | _ => false end.

(** How many times the interval fires among the occurrences. *)
Definition ticks (os : list occurrence) : nat :=
  length (filter (λ o, is_Tick o = true) os).

(** How many times the read of the snapshot file completes. *)
Definition reads_completed (os : list occurrence) : nat :=
  length (filter (λ ev, is_DbDone ev = false) (callbacks os)).

(** How many refresh cycles complete among the occurrences. *)
Definition cycles_completed (os : list occurrence) : nat :=
  length (filter (λ ev, is_DbDone ev = true) (callbacks os)).

(** ** The read operations *)

(** [cloneArray]. *)
Definition cloneArray (items : list item) (h : store) : result (nat * store) :=
  if bool_decide (length items = 0) then Ok (new_arr [] h)
  else js ← stringify_items h items; Ok (parse_array js h).

(** [getValues]: the new array, and the store with the copies in it. *)
Definition getValues (key : value) (c : cache) : result (nat * store) :=
  match map_get (data c) key with
  | None => Ok (new_arr [] (mem c))
  | Some itemValues =>
      if bool_decide (length (arr (mem c) itemValues) = 0)
      then Ok (new_arr [] (mem c))
      else cloneArray (arr (mem c) itemValues) (mem c)
  end.

(** [getFirstValue]: the copy of the first record, or [null]. *)
Definition getFirstValue (key : value) (c : cache) : result (item * store) :=
  match map_get (data c) key with
  | None => Ok (IPrim PNull, mem c)
  | Some itemValues =>
      if bool_decide (length (arr (mem c) itemValues) = 0)
      then Ok (IPrim PNull, mem c)
      else
        '(a, h) ← cloneArray [elem (mem c) itemValues 0] (mem c);
        Ok (elem h a 0, h)
  end.

(** [getAll].  The records of every key are put in one array, which
    [cloneArray] copies.  [items.push(...itemValues)] passes the records of
    a key as arguments, and an engine throws a [RangeError] when they are
    more than it can pass; that limit is the engine's and the model has
    none, here and at the spreads of lines 96 and 134: what is stated of
    [getAll] is stated of the calls that return. *)
Definition getAll (c : cache) : result (nat * store) :=
  cloneArray (concat (map (λ e, arr (mem c) e.2) (data c))) (mem c).

(** [ensureCacheReady]: [await this.loadDataPromise] lets the caller go on
    exactly when the promise is resolved. *)
Definition ensureCacheReady (c : cache) : bool := loadDataPromise c.

(** ** Notions the statements use *)

(** The records of array [a], by value. *)
Definition view_array (h : store) (a : nat) : list value := map (view h) (arr h a).

(** What a caller observes of the three read operations, by value. *)
Definition lookup (key : value) (c : cache) : result (list value) :=
  '(a, h) ← getValues key c; Ok (view_array h a).

Definition lookupFirst (key : value) (c : cache) : result value :=
  '(r, h) ← getFirstValue key c; Ok (view h r).

Definition lookupAll (c : cache) : result (list value) :=
  '(a, h) ← getAll c; Ok (view_array h a).

(** Mapper [f] is called on every row, in order, each call in the store
    the calls before it left, and the pairs it returns are collected in
    order; the first call that throws ends the cycle. *)
Inductive mapped_by (f : item → store → result (list mapItem * store))
    : store → list item → result (list mapItem * store) → Prop :=
| mapped_nil h :
    mapped_by f h [] (Ok ([], h))
| mapped_throw h row rows e :
    f row h = Throw e →
    mapped_by f h (row :: rows) (Throw e)
| mapped_cons h row rows its h1 rest h2 :
    f row h = Ok (its, h1) →
    mapped_by f h1 rows (Ok (rest, h2)) →
    mapped_by f h (row :: rows) (Ok (its ++ rest, h2))
| mapped_cons_throw h row rows its h1 e :
    f row h = Ok (its, h1) →
    mapped_by f h1 rows (Throw e) →
    mapped_by f h (row :: rows) (Throw e).

(** A single-row mapper, seen as a mapper that returns one pair. *)
Definition one_pair (g : item → store → result (mapItem * store))
    : item → store → result (list mapItem * store) :=
  λ row h, '(it, h1) ← g row h; Ok ([it], h1).

(** The error a refresh cycle hands to [emit('error', ...)], if any. *)
Definition cycle_error (cfg : config) (now : nat) (q : query_result)
    (wr : option exn) (c : cache) : option exn :=
  match loadFromDatabase cfg now q c with
  | Throw err => Some err
  | Ok c1 =>
      if shouldSaveToFile cfg then
        match saveToFile wr c1 with
        | Throw err => Some err
        | Ok _ => None
        end
      else None
  end.

(** A record whose object, if it is one, exists in the store. *)
Definition closed_item (h : store) (r : item) : Prop :=
  match r with
  | IPrim _ => True
  | IObj o => o < length (objs h)
  end.

(** [r'] is an object the constructor made: [new Item(x)] for some [x]. *)
Definition constructed (cls : ctor) (h' : store) (r' : item) : Prop :=
  ∃ o x d, r' = IObj o ∧ objs h' !! o = Some d ∧ cls x = Ok d.

(** [r'] is the object [new Item(r)] made, [r] being a record of [h]. *)
Definition constructed_from (cls : ctor) (h h' : store) (r r' : item) : Prop :=
  ∃ o d, r' = IObj o ∧ objs h' !! o = Some d ∧ cls (view h r) = Ok d.

(** Every record the Index holds was made by the constructor. *)
Definition all_constructed (cls : ctor) (h : store) (m : jsmap) : Prop :=
  ∀ k a r, (k, a) ∈ m → r ∈ arr h a → constructed cls h r.

(** The records a mapper value stands for. *)
Definition elements (h : store) (v : mvalue) : list item :=
  match v with
  | Scalar r => [r]
  | Seq a => arr h a
  end.

(** Lines 110-120, by their effect: from store [h] the loop body reaches
    store [h1] holding in [dataValue] the records [c].  Without a
    constructor nothing changes; with one, [c] are new objects, one for
    each record of the value, and an array value holds them in place of
    its elements. *)
Definition constructs (Item : option ctor) (v : mvalue) (h h1 : store)
    (c : list item) : Prop :=
  length (arrs h1) = length (arrs h)
  ∧ (∀ b, v ≠ Seq b → arr h1 b = arr h b)
  ∧ (∀ a, v = Seq a → arr h1 a = c)
  ∧ match Item with
    | None => h1 = h ∧ c = elements h v
    | Some cls =>
        ∃ ds, objs h1 = objs h ++ ds
              ∧ c = IObj <$> seq (length (objs h)) (length ds)
              ∧ Forall2 (λ r d, ∃ x, cls x = Ok d
                                     ∧ (closed_item h r → x = view h r))
                        (elements h v) ds
    end.

(** Lines 122-136, by their effect: the records [c] are appended to the
    array of the key, or become its array. *)
Definition merges (k : value) (v : mvalue) (c : list item) (h1 : store)
    (m : jsmap) (h' : store) (m' : jsmap) : Prop :=
  match map_get m k with
  | Some b => m' = m ∧ h' = push b c h1
  | None =>
      match v with
      | Scalar _ => h' = (new_arr c h1).2 ∧ m' = map_set m k (length (arrs h1))
      | Seq a => h' = h1 ∧ m' = map_set m k a
      end
  end.

Global Instance item_eq_dec : EqDecision item.
Proof. solve_decision. Defined.

Global Instance mvalue_eq_dec : EqDecision mvalue.
Proof. solve_decision. Defined.

Global Instance origin_eq_dec : EqDecision origin.
Proof. solve_decision. Defined.

Global Instance event_eq_dec : EqDecision event.
Proof. solve_decision. Defined.

(** Every array and object the Index names exists in the store. *)
Definition closed_index (h : store) (m : jsmap) : Prop :=
  ∀ k a, (k, a) ∈ m → a < length (arrs h) ∧ ∀ r, r ∈ arr h a → closed_item h r.

(** A caller writes to object [o]: its content becomes [d]. *)
Definition mutate_obj (o : nat) (d : value) (h : store) : store :=
  Store (arrs h) (<[o:=d]> (objs h)).

(** A caller writes to array [a]: its elements become [l]. *)
Definition mutate_arr (a : nat) (l : list item) (h : store) : store :=
  Store (<[a:=l]> (arrs h)) (objs h).

(** Store [h2] holds every array and object of [h] unchanged; what [h2]
    holds beyond them is arbitrary. *)
Definition agree_on (h h2 : store) : Prop :=
  (∀ a, a < length (arrs h) → arrs h2 !! a = arrs h !! a)
  ∧ (∀ o, o < length (objs h) → objs h2 !! o = objs h !! o).

(** The arrays the array-valued pairs of a mapper output name. *)
Fixpoint seq_refs (mapItems : list mapItem) : list nat :=
  match mapItems with
  | [] => []
  | (_, Scalar _) :: rest => seq_refs rest
  | (_, Seq a) :: rest => a :: seq_refs rest
  end.

(** The values of the pairs of key [k], in the order of the output. *)
Fixpoint values_for (k : value) (mapItems : list mapItem) : list mvalue :=
  match mapItems with
  | [] => []
  | (k', v) :: rest =>
      if same_value_zero k' k then v :: values_for k rest else values_for k rest
  end.

(** What a pair with value [v] contributes to its key, [h] being the store
    the mapper left and [h'] the store of the Index: without a constructor
    the record of a scalar value, or the elements of an array value; with
    one, the objects [new Item] made of them, one for one. *)
Definition contribution (Item : option ctor) (h h' : store) (v : mvalue)
    (c : list item) : Prop :=
  match Item with
  | None => c = elements h v
  | Some cls => Forall2 (constructed_from cls h h') (elements h v) c
  end.

(** The state of the merge loop after the pairs [done], started in store
    [h0] with an empty map, when no array is named by two pairs: the
    arrays of [h0] no pair has named are as they were, the map names an
    array once, and the array of a key is the concatenation of the
    contributions to it so far. *)
Definition merge_inv (Item : option ctor) (h0 : store) (done : list mapItem)
    (h : store) (m : jsmap) : Prop :=
  objs h0 `prefix_of` objs h
  ∧ length (arrs h0) ≤ length (arrs h)
  ∧ (∀ a, a < length (arrs h0) → a ∉ seq_refs done → arr h a = arr h0 a)
  ∧ NoDup m.*2
  ∧ (∀ k a, (k, a) ∈ m →
            a < length (arrs h) ∧ (a ∈ seq_refs done ∨ length (arrs h0) ≤ a))
  ∧ ∀ k, match map_get m k with
         | None => values_for k done = []
         | Some a =>
             values_for k done ≠ []
             ∧ ∃ cs, Forall2 (contribution Item h0 h) (values_for k done) cs
                     ∧ arr h a = concat cs
         end.

(** The promise is resolved exactly when some [setData] went through,
    which is when an ['update'] has been emitted. *)
Definition ready_inv (c : cache) : Prop :=
  (loadDataPromise c = true ↔ swaps c ≠ [])
  ∧ (loadDataPromise c = true ↔ EvUpdate ∈ emitted c).

(** ** Inputs of the examples *)

(** A cache that holds one record under key 1, and a query whose only row
    carries a BigInt: the rows are mapped and swapped in, then
    [JSON.stringify] throws in [saveToFile]. *)
Definition saving_cfg : config := Config "id" true None None None.

Definition one_row_cache : cache :=
  loadFromDatabaseAndSaveToFile saving_cfg 1
    (QRows (Store [] [VObj [("id", VPrim (PNum 1))]]) [IObj 0]) None new_cache.

Definition bigint_rows : query_result :=
  QRows (Store [] [VObj [("id", VPrim (PBigInt 2))]]) [IObj 0].

(** The wrapping constructor: [new Item(x)] is an object with the one
    field [w], holding [x]. *)
Definition wrap : ctor := λ d, Ok (VObj [("w", d)]).

Definition wrapping_cfg : config := Config "id" true (Some wrap) None None.

Definition wrapped_row_cache : cache :=
  loadFromDatabaseAndSaveToFile wrapping_cfg 1
    (QRows (Store [] [VObj [("id", VPrim (PNum 7))]]) [IObj 0]) None new_cache.


(** [TestRow] of the tests: [Object.assign(this, data)] copies the own
    enumerable properties of [data], which for an array or a string are
    its indexed elements, and for any other primitive none. *)
Definition TestRow : ctor := λ d,
  match d with
  | VObj fs => Ok (VObj fs)
  | VArr es => Ok (VObj (imap (λ i e, (pretty i, e)) es))
  | VPrim (PStr s) =>
      Ok (VObj (imap (λ i ch, (pretty i, VPrim (PStr (String ch EmptyString))))
                     (String.list_ascii_of_string s)))
  | VPrim _ => Ok (VObj [])
  end.

Definition test_cfg : config := Config "id" true (Some TestRow) None None.

(** Two rows under key 7, loaded with [TestRow]. *)
Definition test_cache : cache :=
  loadFromDatabaseAndSaveToFile test_cfg 1
    (QRows (Store [] [VObj [("id", VPrim (PNum 7)); ("text", VPrim (PStr "a"))];
                      VObj [("id", VPrim (PNum 7)); ("text", VPrim (PStr "b"))]])
           [IObj 0; IObj 1])
    None new_cache.

(** The snapshot [saveToFile] writes for [test_cache]. *)
Definition test_snapshot : snapshot :=
  [(VPrim (PNum 7),
    [VObj [("id", VPrim (PNum 7)); ("text", VPrim (PStr "a"))];
     VObj [("id", VPrim (PNum 7)); ("text", VPrim (PStr "b"))]])].

(** A mapper output in the store it was built in: an array of two records
    and a scalar for key 1, an array of one record for key 2. *)
Definition example_store : store :=
  Store [[IObj 0; IObj 1]; [IObj 2]]
        [VObj [("n", VPrim (PNum 10))];
         VObj [("n", VPrim (PNum 11))];
         VObj [("n", VPrim (PNum 20))]].

Definition example_mapItems : list mapItem :=
  [(VPrim (PNum 1), Seq 0);
   (VPrim (PNum 2), Seq 1);
   (VPrim (PNum 1), Scalar (IObj 2))].


(** Two rows, one without the key field and one whose key is [null],
    loaded with [TestRow]: two keys, [undefined] and [null]. *)
Definition null_keys_cache : cache :=
  loadFromDatabaseAndSaveToFile test_cfg 1
    (QRows (Store [] [VObj [("text", VPrim (PStr "a"))];
                      VObj [("id", VPrim PNull); ("text", VPrim (PStr "b"))]])
           [IObj 0; IObj 1])
    None new_cache.


(** Every object an array of the store names exists. *)
Definition closed_store (h : store) : Prop :=
  ∀ a, Forall (closed_item h) (arr h a).

(** The pairs name arrays and objects of the store. *)
Definition closed_mapItems (h : store) (mapItems : list mapItem) : Prop :=
  ∀ k v, (k, v) ∈ mapItems →
         match v with
         | Scalar r => closed_item h r
         | Seq a => a < length (arrs h)
         end.

(** What the mappers return for the rows of a query names arrays and
    objects that exist, as every JavaScript value does. *)
Definition well_formed_query (cfg : config) (q : query_result) : Prop :=
  match q with
  | QRows h rows =>
      ∀ mapItems h1, map_rows cfg rows h = Ok (mapItems, h1) →
                     closed_store h1 ∧ closed_mapItems h1 mapItems
  | _ => True
  end.

Definition well_formed_completion (cfg : config) (ev : completion) : Prop :=
  match ev with
  | DbDone _ q _ => well_formed_query cfg q
  | FileDone _ _ => True
  end.


(** A mapper output with one array, of one record, under keys 1 and 2,
    and a scalar for key 1 after them. *)
Definition shared_store : store := Store [[IPrim (PStr "a")]] [].

Definition shared_mapItems : list mapItem :=
  [(VPrim (PNum 1), Seq 0);
   (VPrim (PNum 2), Seq 0);
   (VPrim (PNum 1), Scalar (IPrim (PStr "x")))].

(** The snapshot file of an empty Index is read before any query calls
    back. *)
Definition snapshot_first : list completion := [FileDone 1 (ReadOk (FileJson []))].

(** ** The mappers of the tests *)

(** The three records the mappers of the tests make of a row:
    [{t1: row}], [{t2: row}], [{t3: row}]. *)
Definition triple (d : value) : list value :=
  [VObj [("t1", d)]; VObj [("t2", d)]; VObj [("t3", d)]].

(** The [parseDataRow] option of the tests:
    [[row[this.keyFieldName], [{t1: row}, {t2: row}, {t3: row}]]]. *)
Definition test_parseDataRow (keyField : string) (row : item) (h : store)
    : result (mapItem * store) :=
  let d := view h row in
  let '(r1, h1) := new_obj (VObj [("t1", d)]) h in
  let '(r2, h2) := new_obj (VObj [("t2", d)]) h1 in
  let '(r3, h3) := new_obj (VObj [("t3", d)]) h2 in
  let '(a, h4) := new_arr [r1; r2; r3] h3 in
  Ok ((get_field keyField d, Seq a), h4).

(** The [parseDataMultiRow] option of the tests: the same three records,
    each in a pair of its own. *)
Definition test_parseDataMultiRow (keyField : string) (row : item) (h : store)
    : result (list mapItem * store) :=
  let d := view h row in
  let '(r1, h1) := new_obj (VObj [("t1", d)]) h in
  let '(r2, h2) := new_obj (VObj [("t2", d)]) h1 in
  let '(r3, h3) := new_obj (VObj [("t3", d)]) h2 in
  Ok ([(get_field keyField d, Scalar r1);
       (get_field keyField d, Scalar r2);
       (get_field keyField d, Scalar r3)], h3).

(** The options of the two suites "multiple records handling". *)
Definition test_parseDataRow_cfg (keyField : string) : config :=
  Config keyField false (Some TestRow) (Some (test_parseDataRow keyField)) None.

Definition test_parseDataMultiRow_cfg (keyField : string) : config :=
  Config keyField false (Some TestRow) None (Some (test_parseDataMultiRow keyField)).

(** ** Further notions *)

(** Two states of the cache serve the same Index, with the same freshness
    marker. *)
Definition same_index (c c' : cache) : Prop :=
  mem c = mem c' ∧ data c = data c' ∧ lastUpdate c = lastUpdate c'.

(** Two states of the cache differ at most in the notifications they have
    emitted. *)
Definition same_state (c c' : cache) : Prop :=
  same_index c c' ∧ loadDataPromise c = loadDataPromise c' ∧ swaps c = swaps c'.

(** The records a snapshot holds for a key: those of the first pair with
    that key. *)
Fixpoint snapshot_get (s : snapshot) (key : value) : option (list value) :=
  match s with
  | [] => None
  | (k, js) :: s' => if same_value_zero k key then Some js else snapshot_get s' key
  end.

(** The record constructor, when one is configured, gives back every
    record of the snapshot: [new Item(j)] serializes to [j] again. *)
Definition stable_on (Item : option ctor) (s : snapshot) : Prop :=
  match Item with
  | None => True
  | Some cls => ∀ k js j, (k, js) ∈ s → j ∈ js → ∃ d, cls j = Ok d ∧ json_clone d = Ok j
  end.

(** A row of a query: an object of the store that has the key field. *)
Definition is_row (keyField : string) (h : store) (row : item) : Prop :=
  ∃ o fs, row = IObj o ∧ objs h !! o = Some (VObj fs)
          ∧ is_Some (field_lookup keyField fs).

(** The key the prototype's [parseDataRow] files a row under. *)
Definition row_key (keyField : string) (h : store) (row : item) : value :=
  get_field keyField (view h row).

(** The rows whose key is [key], in the order of the query. *)
Definition rows_of_key (keyField : string) (h : store) (key : value)
    (rows : list item) : list item :=
  filter (λ row, same_value_zero (row_key keyField h row) key = true) rows.

(** What the Index holds for a record with content [d]: [new Item(d)] when
    a constructor is configured, the record itself otherwise. *)
Definition record_of (Item : option ctor) (d : value) : result value :=
  match Item with
  | Some cls => cls d
  | None => Ok d
  end.

(** What a read returns for it: the copy [JSON.parse(JSON.stringify(...))]
    makes of the stored record. *)
Definition copy_of (Item : option ctor) (d : value) : result value :=
  r ← record_of Item d; json_clone r.

(** The records the pairs of a key contribute, in the order of the
    mapper's output. *)
Definition records_for (h : store) (key : value) (mapItems : list mapItem)
    : list item :=
  concat (elements h <$> values_for key mapItems).

(** A mapper output with every record in a pair of its own: a pair whose
    value is an array of the store [h] gives one pair for each element. *)
Definition pairs_of (h : store) (mapItems : list mapItem) : list mapItem :=
  concat (map (λ it, (λ r, (it.1, Scalar r)) <$> elements h it.2) mapItems).

(** A cache that serves the Index [m], whose arrays live in [h]. *)
Definition serving (h : store) (m : jsmap) : cache := Cache h m None false [] [].

(** Whether a BigInt occurs in a tree of plain data. *)
Fixpoint has_bigint (d : value) : bool :=
  match d with
  | VPrim (PBigInt _) => true
  | VPrim _ => false
  | VArr es => existsb has_bigint es
  | VObj fs => existsb (λ f, has_bigint f.2) fs
  end.

(** Mapper [f] makes of every row new records, with the contents [out d]
    for a row of content [d], and files them under the key of the row, in
    arrays and objects it adds to the store. *)
Definition files_rows (keyField : string) (out : value → list value)
    (f : item → store → result (list mapItem * store)) : Prop :=
  ∀ row h, is_row keyField h row →
    ∃ its h1,
      f row h = Ok (its, h1)
      ∧ arrs h `prefix_of` arrs h1
      ∧ objs h `prefix_of` objs h1
      ∧ Forall (λ it, it.1 = row_key keyField h row) its
      ∧ view h1 <$> concat (elements h1 <$> its.*2) = out (view h row)
      ∧ NoDup (seq_refs its)
      ∧ Forall (λ a, length (arrs h) ≤ a < length (arrs h1)) (seq_refs its)
      ∧ Forall (λ it, Forall (closed_item h1) (elements h1 it.2)) its.

(** The value of the last pair with key [key], which is the one
    [new Map(pairs)] keeps. *)
Fixpoint last_pair {A} (pairs : list (value * A)) (key : value) : option A :=
  match pairs with
  | [] => None
  | (k, x) :: pairs' =>
      match last_pair pairs' key with
      | Some y => Some y
      | None => if same_value_zero k key then Some x else None
      end
  end.

(** The keys of a mapper output, each once, in the order of its first
    pair. *)
Definition distinct_keys (keys : list value) : list value :=
  foldl (λ seen k, if existsb (λ k', same_value_zero k' k) seen then seen
                   else seen ++ [k]) [] keys.

(** ** The merge loop, turn by turn *)

(** Lines 110-120 with a constructor, by their effect: from store [h] the
    loop body reaches store [h1], where [c] are new objects, one for each
    record [r] of the value, in order, with the content [new Item(r)]
    has; an array value holds them in place of its elements, and nothing
    else has changed. *)
Definition constructs_each (cls : ctor) (v : mvalue) (h h1 : store)
    (c : list item) : Prop :=
  arrs h1 = match v with
            | Scalar _ => arrs h
            | Seq a => <[a:=c]> (arrs h)
            end
  ∧ ∃ ds, objs h1 = objs h ++ ds
          ∧ c = IObj <$> seq (length (objs h)) (length ds)
          ∧ Forall2 (λ r d, cls (view h r) = Ok d) (elements h v) ds.

(** Lines 104-137 with a constructor, by their effect, one turn for each
    pair: the records of the pair's value go through the constructor
    ([constructs_each]), and what the constructor made of them is what the
    turn merges into the map ([merges]). *)
Inductive merged (cls : ctor)
    : list mapItem → store → jsmap → store → jsmap → Prop :=
| merged_nil h m :
    merged cls [] h m h m
| merged_cons k v rest h m h1 c h2 m2 h' m' :
    constructs_each cls v h h1 c →
    merges k v c h1 m h2 m2 →
    merged cls rest h2 m2 h' m' →
    merged cls ((k, v) :: rest) h m h' m'.

(** ** Further inputs of the examples *)

(** The rows [test_cache] was loaded from. *)
Definition test_rows_store : store :=
  Store [] [VObj [("id", VPrim (PNum 7)); ("text", VPrim (PStr "a"))];
            VObj [("id", VPrim (PNum 7)); ("text", VPrim (PStr "b"))]].

(** The options of the tests: a query, the pool, the record class. *)
Definition test_options : object :=
  [("sql", OData (VPrim (PStr "SELECT id, text FROM test")));
   ("mysqlQueryable", OObject 0);
   ("itemClass", OObject 1)].

(** An Index with one key, whose second record is a BigInt. *)
Definition bigint_cache : cache :=
  Cache (Store [[IPrim (PNum 1); IPrim (PBigInt 2)]] [])
        [(VPrim (PStr "k"), 0)] None false [] [].

(** ** Mappers of the examples *)

(** A multi-row mapper that builds one array for a row and files it under
    keys 1 and 2, and files a scalar under key 1 after them: for the one
    row ["a"], the output [shared_mapItems] in [shared_store]. *)
Definition sharing_cfg : config :=
  Config "id" false None None
    (Some (λ row h,
       let '(a, h1) := new_arr [row] h in
       Ok ([(VPrim (PNum 1), Seq a);
            (VPrim (PNum 2), Seq a);
            (VPrim (PNum 1), Scalar (IPrim (PStr "x")))], h1))).

(** A multi-row mapper that returns [example_mapItems], building the
    arrays of [example_store] over the rows of the query, and the
    wrapping constructor. *)
Definition example_cfg : config :=
  Config "id" false (Some wrap) None
    (Some (λ row h,
       Ok (example_mapItems, Store (arrs h ++ arrs example_store) (objs h)))).

(** The rows the arrays of [example_store] hold. *)
Definition example_rows_store : store := Store [] (objs example_store).

(** * Properties *)

(** ** The store *)

Lemma arr_new_arr l h : arr (new_arr l h).2 (new_arr l h).1 = l.
Proof.
  unfold arr, new_arr. simpl.
  by rewrite lookup_app_r, Nat.sub_diag by lia.
Qed.

Lemma arr_new_arr_old l h a : a < length (arrs h) → arr (new_arr l h).2 a = arr h a.
Proof. intros Ha. unfold arr, new_arr. simpl. by rewrite lookup_app_l. Qed.

(** ** Lookups of an absent key *)

(** C8. For a key absent from the Index, [getValues] returns a new empty
    array (an array, never [null] or [undefined]) and [getFirstValue]
    returns [null]; neither throws. *)
Theorem absent_key_lookups (key : value) (c : cache) :
  map_get (data c) key = None →
  (∃ a h, getValues key c = Ok (a, h) ∧ arr h a = [] ∧ lookup key c = Ok [])
  ∧ getFirstValue key c = Ok (IPrim PNull, mem c)
  ∧ lookupFirst key c = Ok (VPrim PNull).
Proof.
  intros Habs. unfold lookup, lookupFirst, getValues, getFirstValue.
  rewrite Habs. split; [|done].
  pose proof (arr_new_arr [] (mem c)) as Hnew.
  destruct (new_arr [] (mem c)) as [a h]. simpl in Hnew.
  exists a, h. split; [done|]. split; [done|].
  simpl. unfold view_array. by rewrite Hnew.
Qed.

(** ** A query that returns no rows *)

Lemma empty_rows_swap (cfg : config) (now : nat) (h : store) (c : cache) :
  loadFromDatabase cfg now (QRows h []) c
  = Ok (Cache empty_store [] (Some now) true (emitted c ++ [EvUpdate])
              (swaps c ++ [FromDatabase])).
Proof. reflexivity. Qed.

(** For an empty array of rows the cycle does swap in an empty Index:
    every lookup is empty afterwards, the freshness marker is set and an
    ['update'] is emitted. *)
Lemma empty_rows_cycle (cfg : config) (now : nat) (h : store) (wr : option exn)
    (c : cache) :
  let c' := loadFromDatabaseAndSaveToFile cfg now (QRows h []) wr c in
  data c' = [] ∧ lastUpdate c' = Some now ∧ EvUpdate ∈ emitted c'
  ∧ ∀ key, lookup key c' = Ok []
           ∧ lookupFirst key c' = Ok (VPrim PNull)
           ∧ lookupAll c' = Ok [].
Proof.
  simpl. unfold loadFromDatabaseAndSaveToFile. rewrite empty_rows_swap.
  assert (EvUpdate ∈ emitted c ++ [EvUpdate]) as Hin
    by (apply elem_of_app; right; by left).
  destruct (shouldSaveToFile cfg); [|by repeat split].
  unfold saveToFile. simpl. destruct wr as [e|]; simpl; [|by repeat split].
  repeat split; try done. apply elem_of_app. by left.
Qed.

(** C10. A query that calls back with [null] rows does not reach the
    [rows == null] test of [loadFromDatabase]: the [debug] call of
    [queryDatabase] throws first, so the cycle emits an error and leaves
    the Index, the freshness marker and the promise as they were. *)
Theorem null_rows_cycle_emits_error (cfg : config) (now : nat)
    (wr : option exn) (c : cache) :
  let c' := loadFromDatabaseAndSaveToFile cfg now QNull wr c in
  c' = emit_error TypeError c
  ∧ mem c' = mem c ∧ data c' = data c
  ∧ lastUpdate c' = lastUpdate c
  ∧ loadDataPromise c' = loadDataPromise c
  ∧ swaps c' = swaps c
  ∧ emitted c' = emitted c ++ [EvError TypeError].
Proof. simpl. unfold loadFromDatabaseAndSaveToFile. simpl. tauto. Qed.

(** A cache that holds a record under key 1: after a query with [null]
    rows the record is still served and the freshness marker is the old
    one; after a query with an empty array of rows the Index is empty and
    the marker is new. *)
Example null_rows_run :
  let c := loadFromDatabaseAndSaveToFile saving_cfg 2 QNull None one_row_cache in
  lookup (VPrim (PNum 1)) c = Ok [VObj [("id", VPrim (PNum 1))]]
  ∧ lastUpdate c = Some 1
  ∧ emitted c = [EvUpdate; EvError TypeError].
Proof. repeat split; reflexivity. Qed.

Example empty_rows_run :
  let c := loadFromDatabaseAndSaveToFile saving_cfg 2 (QRows empty_store []) None
             one_row_cache in
  lookup (VPrim (PNum 1)) c = Ok []
  ∧ lookupFirst (VPrim (PNum 1)) c = Ok (VPrim PNull)
  ∧ lookupAll c = Ok []
  ∧ lastUpdate c = Some 2
  ∧ emitted c = [EvUpdate; EvUpdate].
Proof. repeat split; reflexivity. Qed.

(** ** Which mapper a cycle uses *)

Lemma map_multi_acc f rows acc h :
  map_multi f rows acc h
  = (λ res : list mapItem * store, (acc ++ res.1, res.2)) <$> map_multi f rows [] h.
Proof.
  revert acc h. induction rows as [|row rows IH]; intros acc h; simpl.
  - by rewrite app_nil_r.
  - destruct (f row h) as [[its h1]|e]; simpl; [|done].
    rewrite (IH (acc ++ its)), (IH its).
    destruct (map_multi f rows [] h1) as [[rest h2]|e]; simpl; [|done].
    by rewrite app_assoc.
Qed.

Lemma map_multi_mapped_by f rows h :
  mapped_by f h rows (map_multi f rows [] h).
Proof.
  revert h. induction rows as [|row rows IH]; intros h; simpl.
  - constructor.
  - destruct (f row h) as [[its h1]|e] eqn:Hf; simpl.
    + rewrite map_multi_acc. specialize (IH h1).
      destruct (map_multi f rows [] h1) as [[rest h2]|e]; simpl.
      * by eapply mapped_cons.
      * by eapply mapped_cons_throw.
    + by constructor.
Qed.

Lemma map_single_multi g rows acc h :
  map_single g rows acc h = map_multi (one_pair g) rows acc h.
Proof.
  revert acc h. induction rows as [|row rows IH]; intros acc h; [done|].
  cbn [map_single map_multi].
  destruct (g row h) as [[it h1]|e] eqn:Hg.
  - assert (one_pair g row h = Ok ([it], h1)) as ->
      by (unfold one_pair; by rewrite Hg).
    apply IH.
  - assert (one_pair g row h = Throw e) as ->
      by (unfold one_pair; by rewrite Hg).
    done.
Qed.

Lemma map_single_pure (g : item → store → result (mapItem * store))
    (k : item → mapItem) rows acc h :
  Forall (λ row, g row h = Ok (k row, h)) rows →
  map_single g rows acc h = Ok (acc ++ map k rows, h).
Proof.
  intros Hrows. revert acc.
  induction Hrows as [|row rows Hrow _ IH]; intros acc; simpl.
  - by rewrite app_nil_r.
  - rewrite Hrow. simpl. rewrite IH. by rewrite <- app_assoc.
Qed.

Lemma mapped_by_functional f h rows r1 r2 :
  mapped_by f h rows r1 → mapped_by f h rows r2 → r1 = r2.
Proof.
  intros H1. revert r2.
  induction H1 as [h|h row rows e Hf|h row rows its h1 rest h2 Hf _ IH
                  |h row rows its h1 e Hf _ IH];
    intros r2 H2;
    inversion H2 as [|? ? ? ? Hf'|? ? ? ? ? ? ? Hf' Hrest|? ? ? ? ? ? Hf' Hrest];
    subst; try (rewrite Hf in Hf'; simplify_eq); try done;
    apply IH in Hrest; by simplify_eq.
Qed.

(** The prototype's mapper on a row object that has the key field. *)
Lemma parseDataRow_default_row cfg h row :
  is_row (keyFieldName cfg) h row →
  parseDataRow_default cfg row h
  = Ok ((row_key (keyFieldName cfg) h row, Scalar row), h).
Proof.
  intros (o & fs & -> & Ho & _). unfold parseDataRow_default, row_key.
  simpl. by rewrite Ho.
Qed.

Lemma map_rows_default cfg rows h :
  parseDataRow_option cfg = None → parseDataMultiRow cfg = None →
  Forall (is_row (keyFieldName cfg) h) rows →
  map_rows cfg rows h
  = Ok (map (λ row, (row_key (keyFieldName cfg) h row, Scalar row)) rows, h).
Proof.
  intros Hrow Hmulti Hrows. unfold map_rows, parseDataRow. rewrite Hmulti, Hrow.
  apply (map_single_pure _ (λ row, (row_key (keyFieldName cfg) h row, Scalar row))).
  eapply Forall_impl; [exact Hrows|]. intros row. apply parseDataRow_default_row.
Qed.

(** A row that is [null] or [undefined] ends a cycle that uses the
    prototype's mapper: reading its key field throws. *)
Example null_row_throws :
  loadFromDatabase saving_cfg 1 (QRows empty_store [IPrim PNull]) new_cache
  = Throw TypeError.
Proof. reflexivity. Qed.

(** The key field of a row that is an array: an element, the length, or
    [undefined]. *)
Example array_row_keys :
  get_field "1" (VArr [VPrim (PNum 7); VPrim (PStr "a")]) = VPrim (PStr "a")
  ∧ get_field "length" (VArr [VPrim (PNum 7); VPrim (PStr "a")]) = VPrim (PNum 2)
  ∧ get_field "2" (VArr [VPrim (PNum 7); VPrim (PStr "a")]) = VPrim PUndefined
  ∧ get_field "id" (VArr [VPrim (PNum 7); VPrim (PStr "a")]) = VPrim PUndefined.
Proof. repeat split; vm_compute; reflexivity. Qed.

(** A row that is an array is an array value: its elements are the
    records, under the key [undefined]. *)
Example array_row_run :
  lookup (VPrim PUndefined)
    (loadFromDatabaseAndSaveToFile saving_cfg 1
       (QRows (Store [] [VArr [VPrim (PNum 1); VPrim (PStr "a")]]) [IObj 0])
       None new_cache)
  = Ok [VPrim (PNum 1); VPrim (PStr "a")].
Proof. reflexivity. Qed.

(** C6. One mapper form serves a whole cycle: the pairs the cycle merges
    are what one mapper returns for the rows, row by row in order.  With
    [parseDataMultiRow] given, that mapper is [parseDataMultiRow], whether
    or not [parseDataRow] is given too; with only [parseDataRow] given, it
    is [parseDataRow]; with neither, it is the prototype's [parseDataRow],
    which makes of every row object [row] that has the key field the
    pair [(row[keyFieldName], row)]. *)
Theorem one_mapper_per_cycle (cfg : config) (now : nat) (rows : list item)
    (h : store) (c : cache) :
  ∃ res : result (list mapItem * store),
    match parseDataMultiRow cfg, parseDataRow_option cfg with
    | Some f, _ => mapped_by f h rows res
    | None, Some g => mapped_by (one_pair g) h rows res
    | None, None =>
        mapped_by (one_pair (parseDataRow_default cfg)) h rows res
        ∧ (Forall (is_row (keyFieldName cfg) h) rows →
           res = Ok (map (λ row, (row_key (keyFieldName cfg) h row, Scalar row)) rows,
                     h))
    end
    ∧ loadFromDatabase cfg now (QRows h rows) c
      = if bool_decide (length rows = 0)
        then setData cfg FromDatabase MUndefined now c
        else '(mapItems, h1) ← res;
             '(h2, cacheMap) ← merge_loop (itemClass cfg) mapItems h1 [];
             setData cfg FromDatabase (MMap h2 cacheMap) now c.
Proof.
  exists (map_rows cfg rows h). split; [|done].
  pose proof (map_rows_default cfg rows h) as Hdefault.
  unfold map_rows, parseDataRow in *.
  destruct (parseDataMultiRow cfg) as [f|].
  - apply map_multi_mapped_by.
  - destruct (parseDataRow_option cfg) as [g|].
    + rewrite map_single_multi. apply map_multi_mapped_by.
    + split; [|by apply Hdefault].
      rewrite map_single_multi. apply map_multi_mapped_by.
Qed.

(** ** Readiness *)

Lemma setData_Ok cfg who md now c c' :
  setData cfg who md now c = Ok c' →
  loadDataPromise c' = true
  ∧ swaps c' = swaps c ++ [who]
  ∧ emitted c' = emitted c ++ [EvUpdate]
  ∧ lastUpdate c' = Some now.
Proof.
  unfold setData. destruct (setData_index cfg md) as [[h m]|e]; simpl; [|done].
  intros [= <-]. done.
Qed.

Lemma loadFromDatabase_Ok cfg now q c c' :
  loadFromDatabase cfg now q c = Ok c' →
  ∃ md, setData cfg FromDatabase md now c = Ok c'.
Proof.
  unfold loadFromDatabase.
  destruct (queryDatabase q) as [[[h rows]|]|e]; simpl; [| |done].
  - case_bool_decide; [by eauto|].
    destruct (map_rows cfg rows h) as [[mapItems h1]|e]; simpl; [|done].
    destruct (merge_loop (itemClass cfg) mapItems h1 []) as [[h2 m]|e]; simpl;
      [by eauto|done].
  - by eauto.
Qed.

Lemma ready_inv_setData cfg who md now c c' :
  setData cfg who md now c = Ok c' → ready_inv c'.
Proof.
  intros (Hp & Hs & He & _)%setData_Ok. unfold ready_inv. rewrite Hp, Hs, He.
  split; (split; [intros _|done]).
  - by destruct (swaps c).
  - apply elem_of_app. right. by left.
Qed.

Lemma ready_inv_emit_error e c : ready_inv c → ready_inv (emit_error e c).
Proof.
  intros [Hs He]. split; [done|]. simpl. rewrite He, elem_of_app.
  split; [by left|]. intros [?|Hin]; [done|].
  by apply list_elem_of_singleton in Hin.
Qed.

Lemma ready_inv_file_catch e c : ready_inv c → ready_inv (file_catch e c).
Proof.
  unfold file_catch. case_bool_decide; [done|]. apply ready_inv_emit_error.
Qed.

Lemma ready_inv_step cfg c ev : ready_inv c → ready_inv (step cfg c ev).
Proof.
  intros Hc. destruct ev as [now q wr|now r]; simpl.
  - unfold loadFromDatabaseAndSaveToFile.
    destruct (loadFromDatabase cfg now q c) as [c1|e] eqn:Hl;
      [|by apply ready_inv_emit_error].
    apply loadFromDatabase_Ok in Hl as [md Hmd].
    apply ready_inv_setData in Hmd.
    destruct (shouldSaveToFile cfg); [|done].
    destruct (saveToFile wr c1); [done|by apply ready_inv_emit_error].
  - destruct (shouldSaveToFile cfg); [|done].
    unfold loadCacheFromFile.
    destruct r as [e|f]; [by apply ready_inv_file_catch|].
    destruct (parse_file f) as [md|e]; [|by apply ready_inv_file_catch].
    destruct (setData cfg FromFile md now c) as [c1|e] eqn:Hs;
      [|by apply ready_inv_file_catch].
    apply ready_inv_setData in Hs.
    destruct (mapData_length md); [done|by apply ready_inv_file_catch].
Qed.

Lemma ready_inv_run cfg evs c : ready_inv c → ready_inv (run cfg evs c).
Proof.
  revert c. induction evs as [|ev evs IH]; intros c Hc; [done|].
  apply IH. by apply ready_inv_step.
Qed.

Example snapshot_first_run :
  run saving_cfg snapshot_first new_cache
  = Cache empty_store [] (Some 1) true [EvUpdate] [FromFile].
Proof. reflexivity. Qed.

(** The claim of C1 fails: with persistence on and a snapshot file on
    disk (here the snapshot of an empty Index), the read of the file alone
    resolves the promise, before any query has called back. *)
Lemma ready_by_snapshot_alone :
  ¬ (∀ (cfg : config) (evs : list completion),
       shouldSaveToFile cfg = true →
       ensureCacheReady (run cfg evs new_cache) = true →
       FromDatabase ∈ swaps (run cfg evs new_cache)).
Proof.
  intros H. specialize (H saving_cfg snapshot_first eq_refl eq_refl).
  rewrite snapshot_first_run in H. simpl in H.
  apply list_elem_of_singleton in H. discriminate.
Qed.

(** C1, as the code has it. The promise [ensureCacheReady] awaits is
    resolved exactly when a first Index swap has happened, whichever
    caller of [setData] made it, a refresh cycle or the load of the
    snapshot file; that is exactly when a first ['update'] has been
    emitted. *)
Theorem ready_iff_first_swap (cfg : config) (evs : list completion) :
  (ensureCacheReady (run cfg evs new_cache) = true
   ↔ swaps (run cfg evs new_cache) ≠ [])
  ∧ (ensureCacheReady (run cfg evs new_cache) = true
     ↔ EvUpdate ∈ emitted (run cfg evs new_cache)).
Proof.
  apply ready_inv_run. split; simpl; (split; [done|]).
  - done.
  - by intros ?%not_elem_of_nil.
Qed.

(** ** A cycle that fails *)

Example bigint_cycle_run :
  cycle_error saving_cfg 2 bigint_rows None one_row_cache = Some TypeError
  ∧ emitted (loadFromDatabaseAndSaveToFile saving_cfg 2 bigint_rows None one_row_cache)
    = [EvUpdate; EvUpdate; EvError TypeError]
  ∧ lookup (VPrim (PNum 1)) one_row_cache = Ok [VObj [("id", VPrim (PNum 1))]]
  ∧ lookup (VPrim (PNum 1))
           (loadFromDatabaseAndSaveToFile saving_cfg 2 bigint_rows None one_row_cache)
    = Ok [].
Proof. repeat split; reflexivity. Qed.

(** The claim of C3 fails for an error of the serialization: the error is
    emitted, but the new Index has replaced the old one by then. *)
Lemma serialization_error_keeps_new_index :
  ¬ (∀ (cfg : config) (now : nat) (q : query_result) (wr : option exn)
       (c : cache) (e : exn),
       cycle_error cfg now q wr c = Some e →
       let c' := loadFromDatabaseAndSaveToFile cfg now q wr c in
       EvError e ∈ emitted c'
       ∧ ∀ key, lookup key c' = lookup key c
                ∧ lookupFirst key c' = lookupFirst key c
                ∧ lookupAll c' = lookupAll c).
Proof.
  intros H.
  destruct (H saving_cfg 2 bigint_rows None one_row_cache TypeError eq_refl)
    as [_ Hsame].
  destruct (Hsame (VPrim (PNum 1))) as [Hlookup _].
  vm_compute in Hlookup. discriminate.
Qed.

Lemma query_error_throws cfg now e c :
  loadFromDatabase cfg now (QError e) c = Throw e.
Proof. reflexivity. Qed.

Lemma mapper_error_throws cfg now h rows e c :
  rows ≠ [] → map_rows cfg rows h = Throw e →
  loadFromDatabase cfg now (QRows h rows) c = Throw e.
Proof.
  intros Hrows Hmap. unfold loadFromDatabase. simpl.
  rewrite bool_decide_eq_false_2 by (by destruct rows).
  by rewrite Hmap.
Qed.

Lemma constructor_error_throws cfg now h rows mapItems h1 e c :
  rows ≠ [] → map_rows cfg rows h = Ok (mapItems, h1) →
  merge_loop (itemClass cfg) mapItems h1 [] = Throw e →
  loadFromDatabase cfg now (QRows h rows) c = Throw e.
Proof.
  intros Hrows Hmap Hmerge. unfold loadFromDatabase. simpl.
  rewrite bool_decide_eq_false_2 by (by destruct rows).
  rewrite Hmap. simpl. by rewrite Hmerge.
Qed.

(** C3, as the code has it. A cycle in which [loadFromDatabase] throws
    (the query, a mapper or the record constructor failed) emits the error
    and leaves the cache as it was, so every read returns what it returned
    before.  A cycle in which [saveToFile] throws emits the error after
    the update, and keeps the Index it has just swapped in. *)
Theorem failed_cycle_index (cfg : config) (now : nat) (q : query_result)
    (wr : option exn) (c : cache) (e : exn) :
  cycle_error cfg now q wr c = Some e →
  let c' := loadFromDatabaseAndSaveToFile cfg now q wr c in
  match loadFromDatabase cfg now q c with
  | Throw _ =>
      c' = emit_error e c
      ∧ emitted c' = emitted c ++ [EvError e]
      ∧ mem c' = mem c ∧ data c' = data c ∧ lastUpdate c' = lastUpdate c
      ∧ ∀ key, lookup key c' = lookup key c
               ∧ lookupFirst key c' = lookupFirst key c
               ∧ lookupAll c' = lookupAll c
  | Ok c1 =>
      c' = emit_error e c1
      ∧ emitted c' = emitted c ++ [EvUpdate; EvError e]
      ∧ mem c' = mem c1 ∧ data c' = data c1 ∧ lastUpdate c' = Some now
  end.
Proof.
  unfold cycle_error, loadFromDatabaseAndSaveToFile. simpl.
  destruct (loadFromDatabase cfg now q c) as [c1|e'] eqn:Hload.
  - destruct (shouldSaveToFile cfg); [|done].
    destruct (saveToFile wr c1) as [s|e']; [done|]. intros [= ->].
    apply loadFromDatabase_Ok in Hload as [md (_ & _ & Hem & Hlast)%setData_Ok].
    repeat split; try done.
    simpl. rewrite Hem. by rewrite <- app_assoc.
  - intros [= ->]. done.
Qed.

Lemma failed_cycle_index_witness :
  emitted (loadFromDatabaseAndSaveToFile saving_cfg 2 (QError (Thrown 7)) None
             one_row_cache)
  = emitted one_row_cache ++ [EvError (Thrown 7)].
Proof.
  pose proof (failed_cycle_index saving_cfg 2 (QError (Thrown 7)) None
                one_row_cache (Thrown 7) eq_refl) as H.
  simpl in H. apply H.
Defined.

(** ** Arrays and objects of the store under the operations *)

Lemma arr_push_ne a b rs h : a ≠ b → arr (push b rs h) a = arr h a.
Proof. intros Hne. unfold arr, push. simpl. by rewrite list_lookup_alter_ne. Qed.

Lemma arr_push_eq b rs h :
  b < length (arrs h) → arr (push b rs h) b = arr h b ++ rs.
Proof.
  intros Hb. unfold arr, push. simpl. rewrite list_lookup_alter_eq.
  destruct (lookup_lt_is_Some_2 (arrs h) b Hb) as [l ->]. done.
Qed.

Lemma arr_push_dangling b rs h :
  length (arrs h) ≤ b → arr (push b rs h) b = [].
Proof.
  intros Hb. unfold arr, push. simpl. rewrite list_lookup_alter_eq.
  by rewrite (lookup_ge_None_2 (arrs h) b Hb).
Qed.

Lemma arr_dangling h a : length (arrs h) ≤ a → arr h a = [].
Proof. intros Ha. unfold arr. by rewrite lookup_ge_None_2. Qed.

Lemma arr_set_elem_ne a b j r h : a ≠ b → arr (set_elem b j r h) a = arr h a.
Proof. intros Hne. unfold arr, set_elem. simpl. by rewrite list_lookup_alter_ne. Qed.

Lemma arr_set_elem_eq b j r h : arr (set_elem b j r h) b = <[j:=r]> (arr h b).
Proof.
  unfold arr, set_elem. simpl. rewrite list_lookup_alter_eq.
  by destruct (arrs h !! b).
Qed.

Lemma arr_new_arr_ne l h a : a ≠ length (arrs h) → arr (new_arr l h).2 a = arr h a.
Proof.
  intros Ha. unfold arr, new_arr. simpl.
  destruct (decide (a < length (arrs h))).
  - by rewrite lookup_app_l.
  - rewrite !lookup_ge_None_2; [done|lia|]. rewrite length_app. simpl. lia.
Qed.

Lemma arr_new_arr_eq l h : arr (new_arr l h).2 (length (arrs h)) = l.
Proof. apply arr_new_arr. Qed.

Lemma view_closed_prefix h h' r :
  objs h `prefix_of` objs h' → closed_item h r → view h' r = view h r.
Proof.
  intros [ds Hds] Hr. destruct r as [p|o]; simpl in *; [done|].
  by rewrite Hds, lookup_app_l.
Qed.

Lemma closed_item_prefix h h' r :
  objs h `prefix_of` objs h' → closed_item h r → closed_item h' r.
Proof.
  intros Hp%prefix_length Hr. destruct r as [p|o]; simpl in *; [done|lia].
Qed.

Lemma constructed_prefix cls h h' r :
  objs h `prefix_of` objs h' → constructed cls h r → constructed cls h' r.
Proof.
  intros Hp (o & x & d & -> & Ho & Hx). exists o, x, d. split; [done|].
  split; [|done]. by eapply prefix_lookup_Some.
Qed.

Lemma constructed_from_prefix cls h h1 h2 r r' :
  objs h1 `prefix_of` objs h2 →
  constructed_from cls h h1 r r' → constructed_from cls h h2 r r'.
Proof.
  intros Hp (o & d & -> & Ho & Hx). exists o, d. split; [done|].
  split; [|done]. by eapply prefix_lookup_Some.
Qed.

Lemma constructed_from_constructed cls h h' r r' :
  constructed_from cls h h' r r' → constructed cls h' r'.
Proof. intros (o & d & -> & Ho & Hx). by exists o, (view h r), d. Qed.

(** What [new Item(r)] does to the store. *)
Lemma new_Item_Ok cls r h r' h' :
  new_Item cls r h = Ok (r', h') →
  ∃ d, cls (view h r) = Ok d
       ∧ r' = IObj (length (objs h))
       ∧ arrs h' = arrs h
       ∧ objs h' = objs h ++ [d].
Proof.
  unfold new_Item. destruct (cls (view h r)) as [d|e]; simpl; [|done].
  intros [= <- <-]. by exists d.
Qed.

(** The loop that puts every element of an array through the constructor:
    the elements from [j] on are replaced, in order, by the new objects,
    whose contents are what the constructor returned; nothing else
    changes. *)
Lemma construct_loop_Ok cls a n : ∀ j h h',
  construct_loop cls a j n h = Ok h' →
  j + n ≤ length (arr h a) →
  ∃ ds,
    length ds = n
    ∧ objs h' = objs h ++ ds
    ∧ length (arrs h') = length (arrs h)
    ∧ (∀ b, b ≠ a → arr h' b = arr h b)
    ∧ arr h' a = take j (arr h a)
                 ++ (IObj <$> seq (length (objs h)) n)
                 ++ drop (j + n) (arr h a)
    ∧ Forall2 (λ r d, ∃ x, cls x = Ok d ∧ (closed_item h r → x = view h r))
              (take n (drop j (arr h a))) ds.
Proof.
  induction n as [|n IH]; intros j h h' Hloop Hlen; simpl in Hloop.
  - injection Hloop as <-. exists []. rewrite Nat.add_0_r, app_nil_r. simpl.
    rewrite take_drop. repeat split; done.
  - destruct (new_Item cls (elem h a j) h) as [[r h1]|e] eqn:Hnew; [|done].
    simpl in Hloop.
    apply new_Item_Ok in Hnew as (d & Hd & -> & Harrs1 & Hobjs1).
    set (h2 := set_elem a j (IObj (length (objs h))) h1) in *.
    assert (arr h1 a = arr h a) as Harr1 by (unfold arr; by rewrite Harrs1).
    assert (arr h2 a = <[j:=IObj (length (objs h))]> (arr h a)) as Harr2.
    { unfold h2. by rewrite arr_set_elem_eq, Harr1. }
    assert (objs h2 = objs h ++ [d]) as Hobjs2 by done.
    apply IH in Hloop as (ds & Hds & Hobjs & Hlenarrs & Hother & Hthis & Hall);
      [|rewrite Harr2, length_insert; lia].
    destruct (lookup_lt_is_Some_2 (arr h a) j ltac:(lia)) as [rj Hrj].
    exists (d :: ds). split; [simpl; lia|].
    split; [by rewrite Hobjs, Hobjs2, <- app_assoc|].
    split.
    { rewrite Hlenarrs. unfold h2, set_elem. simpl.
      by rewrite length_alter, Harrs1. }
    split.
    { intros b Hb. rewrite Hother by done. unfold h2.
      rewrite arr_set_elem_ne by done. unfold arr. by rewrite Harrs1. }
    split.
    { rewrite Hthis, Harr2, Hobjs2, length_app. simpl.
      rewrite (take_S_r _ _ (IObj (length (objs h))))
        by (apply list_lookup_insert_eq; lia).
      rewrite take_insert_ge by lia.
      rewrite drop_insert_lt by lia.
      rewrite <- !app_assoc. simpl.
      by rewrite Nat.add_1_r, Nat.add_succ_r. }
    rewrite (drop_S _ _ _ Hrj). simpl. constructor.
    + exists (view h (elem h a j)). split; [done|].
      intros _. unfold elem. by rewrite Hrj.
    + rewrite Harr2, drop_insert_lt in Hall by lia.
      eapply Forall2_impl; [exact Hall|].
      intros r d' (x & Hx & Hview). exists x. split; [done|].
      intros Hr. rewrite Hview.
      * apply view_closed_prefix; [|done]. rewrite Hobjs2. by apply prefix_app_r.
      * eapply closed_item_prefix; [|done]. rewrite Hobjs2. by apply prefix_app_r.
Qed.

Lemma construct_array_Ok cls a h h' :
  construct_array cls a h = Ok h' → constructs (Some cls) (Seq a) h h' (arr h' a).
Proof.
  unfold construct_array. intros Hloop.
  apply construct_loop_Ok in Hloop
    as (ds & Hds & Hobjs & Hlen & Hother & Hthis & Hall); [|simpl; lia].
  rewrite drop_ge, app_nil_r in Hthis by (simpl; lia).
  rewrite drop_0, firstn_all in Hall. simpl in Hthis.
  split; [done|]. split; [intros b Hb; apply Hother; congruence|].
  split; [by intros ? [= <-]|].
  exists ds. rewrite Hds. done.
Qed.

(** One turn of the merge loop is a construction followed by a merge. *)
Lemma merge_step_Ok Item k v h m h' m' :
  merge_step Item (k, v) h m = Ok (h', m') →
  ∃ h1 c, constructs Item v h h1 c ∧ merges k v c h1 m h' m'.
Proof.
  unfold merge_step, merges. simpl. destruct v as [r|a].
  - destruct Item as [cls|]; simpl.
    + destruct (new_Item cls r h) as [[r' h1]|e] eqn:Hnew; simpl; [|done].
      apply new_Item_Ok in Hnew as (d & Hd & -> & Harrs & Hobjs).
      intros Hm. exists h1, [IObj (length (objs h))]. split.
      * split; [by rewrite Harrs|].
        split; [intros b _; unfold arr; by rewrite Harrs|].
        split; [done|].
        exists [d]. split; [done|]. split; [done|].
        constructor; [|constructor]. by exists (view h r).
      * destruct (map_get m k); by simplify_eq.
    + intros Hm. exists h, [r]. split; [done|].
      destruct (map_get m k); by simplify_eq.
  - destruct Item as [cls|]; simpl.
    + destruct (construct_array cls a h) as [h1|e] eqn:Hc; simpl; [|done].
      apply construct_array_Ok in Hc.
      intros Hm. exists h1, (arr h1 a). split; [done|].
      destruct (map_get m k); by simplify_eq.
    + intros Hm. exists h, (arr h a). split.
      * split; [done|]. split; [done|]. split; [by intros ? [= <-]|done].
      * destruct (map_get m k); by simplify_eq.
Qed.

Lemma constructs_prefix Item v h h1 c :
  constructs Item v h h1 c → objs h `prefix_of` objs h1.
Proof.
  intros (_ & _ & _ & HItem). destruct Item as [cls|].
  - destruct HItem as (ds & -> & _). by apply prefix_app_r.
  - by destruct HItem as [-> _].
Qed.

Lemma constructs_length Item v h h1 c :
  constructs Item v h h1 c → length c = length (elements h v).
Proof.
  intros (_ & _ & _ & HItem). destruct Item as [cls|].
  - destruct HItem as (ds & _ & -> & Hall).
    rewrite length_fmap, length_seq. symmetry. by eapply Forall2_length.
  - by destruct HItem as [_ ->].
Qed.

Lemma constructs_arr_length Item v h h1 c b :
  constructs Item v h h1 c → length (arr h1 b) = length (arr h b).
Proof.
  intros Hc. pose proof (constructs_length _ _ _ _ _ Hc) as Hlen.
  destruct Hc as (_ & Hother & Hthis & _).
  destruct (decide (v = Seq b)) as [->|Hv].
  - by rewrite (Hthis b eq_refl).
  - by rewrite Hother.
Qed.

Lemma constructs_constructed cls v h h1 c :
  constructs (Some cls) v h h1 c → Forall (constructed cls h1) c.
Proof.
  intros (_ & _ & _ & ds & Hobjs & -> & Hall).
  apply Forall_forall. intros r (o & -> & Ho)%list_elem_of_fmap.
  apply elem_of_seq in Ho as [Hlo Hhi].
  destruct (lookup_lt_is_Some_2 ds (o - length (objs h)) ltac:(lia)) as [d Hd].
  destruct (Forall2_lookup_r _ _ _ _ _ Hall Hd) as (r & _ & x & Hx & _).
  exists o, x, d. split; [done|]. split; [|done].
  rewrite Hobjs, lookup_app_r by lia. done.
Qed.

(** ** Keys and the [Map] *)

(** Structural induction on [value], through the lists it nests. *)
Lemma value_ind' (P : value → Prop) :
  (∀ p, P (VPrim p)) →
  (∀ es, Forall P es → P (VArr es)) →
  (∀ fs, Forall (λ kv, P kv.2) fs → P (VObj fs)) →
  ∀ d, P d.
Proof.
  intros Hp Ha Ho. fix IH 1. intros [p|es|fs].
  - apply Hp.
  - apply Ha. induction es as [|e es IHes]; constructor; [apply IH | apply IHes].
  - apply Ho. induction fs as [|[k v] fs IHfs]; constructor; [apply IH | apply IHfs].
Qed.

Lemma same_value_zero_spec a b : same_value_zero a b = true ↔ a = b.
Proof.
  revert b. induction a as [p|es IH|fs IH] using value_ind'; intros [q|ys|gs];
    simpl; try (split; [discriminate | congruence]).
  - rewrite bool_decide_eq_true. split; congruence.
  - revert ys. induction IH as [|x xs Hx _ IHxs]; intros [|y ys];
      try (split; [discriminate | congruence]); [done|].
    rewrite andb_true_iff, Hx, IHxs. split.
    + intros [-> ?]. congruence.
    + intros ?. simplify_eq. done.
  - revert gs. induction IH as [|[k x] xs Hx _ IHxs]; intros [|[k' y] ys];
      try (split; [discriminate | congruence]); [done|].
    rewrite !andb_true_iff, bool_decide_eq_true. simpl in Hx.
    rewrite Hx, IHxs. split.
    + intros [[-> ->] ?]. congruence.
    + intros ?. simplify_eq. done.
Qed.

Lemma same_value_zero_refl a : same_value_zero a a = true.
Proof. by apply same_value_zero_spec. Qed.

Lemma same_value_zero_ne a b : a ≠ b → same_value_zero a b = false.
Proof.
  intros Hne. destruct (same_value_zero a b) eqn:E; [|done].
  by apply same_value_zero_spec in E.
Qed.

Lemma map_get_Some_elem m k a : map_get m k = Some a → (k, a) ∈ m.
Proof.
  induction m as [|[k' a'] m IH]; simpl; [done|].
  destruct (same_value_zero k' k) eqn:E.
  - apply same_value_zero_spec in E as ->. intros [= ->]. by left.
  - intros H. right. by apply IH.
Qed.

Lemma map_get_None_elem m k a : map_get m k = None → (k, a) ∉ m.
Proof.
  induction m as [|[k' a'] m IH]; simpl; [intros _; by apply not_elem_of_nil|].
  destruct (same_value_zero k' k) eqn:E; [done|].
  intros H [[= -> ->]|Hin]%elem_of_cons.
  - by rewrite same_value_zero_refl in E.
  - by apply IH.
Qed.

Lemma map_get_set_eq m k a : map_get (map_set m k a) k = Some a.
Proof.
  induction m as [|[k' a'] m IH]; simpl.
  - by rewrite same_value_zero_refl.
  - destruct (same_value_zero k' k) eqn:E; simpl; by rewrite E.
Qed.

Lemma map_get_set_ne m k k' a :
  k ≠ k' → map_get (map_set m k a) k' = map_get m k'.
Proof.
  intros Hne. induction m as [|[k0 a0] m IH]; simpl.
  - by rewrite same_value_zero_ne.
  - destruct (same_value_zero k0 k) eqn:E; simpl.
    + apply same_value_zero_spec in E as ->. by rewrite same_value_zero_ne.
    + by rewrite IH.
Qed.

Lemma elem_of_map_set m k a e : e ∈ map_set m k a → e ∈ m ∨ e = (k, a).
Proof.
  induction m as [|[k' a'] m IH]; simpl.
  - intros ->%list_elem_of_singleton. by right.
  - destruct (same_value_zero k' k) eqn:E.
    + apply same_value_zero_spec in E as ->.
      intros [->|Hin]%elem_of_cons; [by right|left; by right].
    + intros [->|Hin]%elem_of_cons; [left; by left|].
      destruct (IH Hin) as [?|?]; [left; by right|by right].
Qed.

Lemma elem_of_new_Map entries e : e ∈ new_Map entries → e ∈ entries.
Proof.
  unfold new_Map.
  assert (∀ m, e ∈ foldl (λ m e, map_set m e.1 e.2) m entries → e ∈ m ∨ e ∈ entries)
    as Hgen.
  { induction entries as [|[k a] entries IH]; intros m; simpl; [by left|].
    intros [[Hin| ->]%elem_of_map_set|Hin]%IH.
    - by left.
    - right. by left.
    - right. by right. }
  intros [Hin|Hin]%Hgen; [by apply not_elem_of_nil in Hin|done].
Qed.

(** ** Arrays never shrink along the merge loop *)

Lemma push_length_le a b rs h : length (arr h a) ≤ length (arr (push b rs h) a).
Proof.
  destruct (decide (a = b)) as [->|Hne]; [|by rewrite arr_push_ne].
  destruct (decide (b < length (arrs h))).
  - rewrite arr_push_eq, length_app by done. lia.
  - rewrite (arr_dangling h b) by lia. simpl. lia.
Qed.

Lemma new_arr_length_le a l h : length (arr h a) ≤ length (arr (new_arr l h).2 a).
Proof.
  destruct (decide (a = length (arrs h))) as [->|Hne].
  - rewrite (arr_dangling h) by lia. simpl. lia.
  - by rewrite arr_new_arr_ne.
Qed.

Lemma merges_length_le k v c h1 m h' m' a :
  merges k v c h1 m h' m' → length (arr h1 a) ≤ length (arr h' a).
Proof.
  unfold merges. destruct (map_get m k) as [b|].
  - intros [_ ->]. apply push_length_le.
  - destruct v; intros [-> _]; [apply new_arr_length_le|done].
Qed.

(** Arrays never shrink along the merge loop. *)
Lemma merge_step_length_le Item k v h m h' m' a :
  merge_step Item (k, v) h m = Ok (h', m') →
  length (arr h a) ≤ length (arr h' a).
Proof.
  intros (h1 & c & Hc & Hm)%merge_step_Ok.
  rewrite <- (constructs_arr_length _ _ _ _ _ a Hc).
  by eapply merges_length_le.
Qed.

Lemma merge_step_keys Item k v h m h' m' k0 :
  merge_step Item (k, v) h m = Ok (h', m') →
  k0 ≠ k → map_get m' k0 = map_get m k0.
Proof.
  intros (h1 & c & _ & Hm)%merge_step_Ok Hne.
  unfold merges in Hm. destruct (map_get m k) as [b|].
  - by destruct Hm as [-> _].
  - destruct v; destruct Hm as [_ ->]; by apply map_get_set_ne.
Qed.

Lemma merge_loop_keys Item items : ∀ h m h' m' k0,
  merge_loop Item items h m = Ok (h', m') →
  (∀ v, (k0, v) ∉ items) → map_get m' k0 = map_get m k0.
Proof.
  induction items as [|[k v] items IH]; intros h m h' m' k0; simpl.
  - by intros [= <- <-].
  - destruct (merge_step Item (k, v) h m) as [[h1 m1]|e] eqn:Hstep; simpl; [|done].
    intros Hloop Hk0. rewrite (IH _ _ _ _ _ Hloop).
    + eapply merge_step_keys; [done|]. intros ->. apply (Hk0 v). by left.
    + intros v' Hin. apply (Hk0 v'). by right.
Qed.

Lemma merge_loop_length_le Item items a : ∀ h m h' m',
  merge_loop Item items h m = Ok (h', m') →
  length (arr h a) ≤ length (arr h' a).
Proof.
  induction items as [|[k v] items IH]; intros h m h' m'; simpl.
  - by intros [= <- <-].
  - destruct (merge_step Item (k, v) h m) as [[h1 m1]|e] eqn:Hstep; simpl; [|done].
    intros Hloop%IH.
    pose proof (merge_step_length_le _ _ _ _ _ _ _ a Hstep). lia.
Qed.

(** A key the map has keeps its array along the loop. *)
Lemma merge_step_get_Some Item it h m h' m' k0 a :
  merge_step Item it h m = Ok (h', m') →
  map_get m k0 = Some a → map_get m' k0 = Some a.
Proof.
  destruct it as [k v]. intros Hstep Hget.
  destruct (same_value_zero k0 k) eqn:Hk.
  - apply same_value_zero_spec in Hk as ->.
    apply merge_step_Ok in Hstep as (h1 & c & _ & Hm).
    unfold merges in Hm. rewrite Hget in Hm. by destruct Hm as [-> _].
  - rewrite (merge_step_keys _ _ _ _ _ _ _ _ Hstep); [done|].
    intros ->. by rewrite same_value_zero_refl in Hk.
Qed.

Lemma merge_loop_get_Some Item items k0 a : ∀ h m h' m',
  merge_loop Item items h m = Ok (h', m') →
  map_get m k0 = Some a → map_get m' k0 = Some a.
Proof.
  induction items as [|it items IH]; intros h m h' m'; simpl.
  - by intros [= <- <-].
  - destruct (merge_step Item it h m) as [[h1 m1]|e] eqn:Hstep; simpl; [|done].
    intros Hloop Hget. eapply IH; [done|]. by eapply merge_step_get_Some.
Qed.

(** The arrays of the map and of the pairs exist, along the loop. *)
Lemma merge_step_valid Item k v h m h' m' :
  (∀ k a, (k, a) ∈ m → a < length (arrs h)) →
  (∀ a, v = Seq a → a < length (arrs h)) →
  merge_step Item (k, v) h m = Ok (h', m') →
  length (arrs h) ≤ length (arrs h')
  ∧ ∀ k a, (k, a) ∈ m' → a < length (arrs h').
Proof.
  intros Hm Hv (h1 & c & Hc & Hmerge)%merge_step_Ok.
  destruct Hc as (Hlen & _). unfold merges in Hmerge.
  destruct (map_get m k) as [b|].
  - destruct Hmerge as [-> ->]. unfold push. simpl. rewrite length_alter, Hlen.
    split; [done|]. exact Hm.
  - destruct v as [r|a]; destruct Hmerge as [-> ->].
    + unfold new_arr. simpl. rewrite length_app, Hlen. simpl. split; [lia|].
      intros k0 a0 [Hin|[= -> ->]]%elem_of_map_set; [|lia].
      pose proof (Hm _ _ Hin). lia.
    + rewrite Hlen. split; [done|].
      intros k0 a0 [Hin|[= -> ->]]%elem_of_map_set; [by eapply Hm|by apply Hv].
Qed.

(** A pair that holds a record leaves its key with a record. *)
Lemma merge_step_record Item k v h m h' m' :
  (∀ k a, (k, a) ∈ m → a < length (arrs h)) →
  elements h v ≠ [] →
  merge_step Item (k, v) h m = Ok (h', m') →
  ∃ a, map_get m' k = Some a ∧ arr h' a ≠ [].
Proof.
  intros Hm Hv (h1 & c & Hc & Hmerge)%merge_step_Ok.
  assert (c ≠ []) as Hcne.
  { pose proof (constructs_length _ _ _ _ _ Hc) as Hlen.
    intros ->. destruct (elements h v); [done|simpl in Hlen; lia]. }
  pose proof Hc as (Hlen & _ & Hthis & _).
  unfold merges in Hmerge. destruct (map_get m k) as [b|] eqn:Hget.
  - destruct Hmerge as [-> ->]. exists b. split; [done|].
    rewrite arr_push_eq.
    + intros [_ ?]%app_eq_nil. done.
    + rewrite Hlen. eapply Hm. by apply map_get_Some_elem.
  - destruct v as [r|a]; destruct Hmerge as [-> ->].
    + exists (length (arrs h1)). split; [apply map_get_set_eq|].
      by rewrite arr_new_arr_eq.
    + exists a. split; [apply map_get_set_eq|]. by rewrite (Hthis a eq_refl).
Qed.

Lemma merge_loop_record Item items : ∀ h m h' m',
  (∀ k a, (k, a) ∈ m → a < length (arrs h)) →
  (∀ a, a ∈ seq_refs items → a < length (arrs h)) →
  merge_loop Item items h m = Ok (h', m') →
  ∀ k v, (k, v) ∈ items → (∀ b, v = Seq b → arr h b ≠ []) →
         ∃ a, map_get m' k = Some a ∧ arr h' a ≠ [].
Proof.
  induction items as [|[k v] items IH]; intros h m h' m' Hm Hitems; simpl.
  - intros _ k v Hin. by apply not_elem_of_nil in Hin.
  - destruct (merge_step Item (k, v) h m) as [[h1 m1]|e] eqn:Hstep; simpl; [|done].
    intros Hloop k0 v0 Hin Hv0.
    assert (∀ a, v = Seq a → a < length (arrs h)) as Hv.
    { intros a ->. apply Hitems. simpl. by left. }
    destruct (merge_step_valid _ _ _ _ _ _ _ Hm Hv Hstep) as [Hlen Hm1].
    apply elem_of_cons in Hin as [[= -> ->]|Hin].
    + assert (elements h v ≠ []) as Hel
        by (destruct v as [r|b]; [done|by apply Hv0]).
      destruct (merge_step_record _ _ _ _ _ _ _ Hm Hel Hstep) as (a & Hget & Hne).
      exists a. split; [by eapply merge_loop_get_Some|].
      pose proof (merge_loop_length_le _ _ a _ _ _ _ Hloop) as Hle.
      intros Hnil. rewrite Hnil in Hle. destruct (arr h1 a); [done|simpl in Hle; lia].
    + eapply (IH _ _ _ _ Hm1); [|done|done|].
      * intros a Ha. assert (a < length (arrs h)); [|lia].
        apply Hitems. destruct v; simpl; [done|by right].
      * intros b -> Hnil.
        pose proof (merge_step_length_le _ _ _ _ _ _ _ b Hstep) as Hle.
        rewrite Hnil in Hle. pose proof (Hv0 b eq_refl).
        destruct (arr h b); [done|simpl in Hle; lia].
Qed.

(** ** The records of the Index are objects the constructor made *)

Lemma merges_all_constructed cls k v c h1 m h' m' :
  all_constructed cls h1 m →
  Forall (constructed cls h1) c →
  (∀ a, v = Seq a → arr h1 a = c) →
  merges k v c h1 m h' m' →
  all_constructed cls h' m'.
Proof.
  intros Hinv Hc Hthis Hm. unfold merges in Hm.
  destruct (map_get m k) as [b|].
  - destruct Hm as [-> ->]. intros k0 a0 r Hin Hr.
    destruct (decide (a0 = b)) as [->|Hne].
    + destruct (decide (b < length (arrs h1))).
      * rewrite arr_push_eq in Hr by done.
        apply elem_of_app in Hr as [Hr|Hr].
        -- destruct (Hinv _ _ _ Hin Hr) as (o & x & d & ?). by exists o, x, d.
        -- rewrite Forall_forall in Hc.
           destruct (Hc _ Hr) as (o & x & d & ?). by exists o, x, d.
      * rewrite arr_push_dangling in Hr by lia. by apply not_elem_of_nil in Hr.
    + rewrite arr_push_ne in Hr by done.
      destruct (Hinv _ _ _ Hin Hr) as (o & x & d & ?). by exists o, x, d.
  - destruct v as [r0|a]; destruct Hm as [-> ->]; intros k0 a0 r Hin Hr.
    + assert (r ∈ arr h1 a0 ∨ r ∈ c) as [Hr'|Hr'].
      { destruct (decide (a0 = length (arrs h1))) as [->|Hne].
        - right. by rewrite arr_new_arr_eq in Hr.
        - left. by rewrite arr_new_arr_ne in Hr. }
      * apply elem_of_map_set in Hin as [Hin|[= -> ->]].
        -- destruct (Hinv _ _ _ Hin Hr') as (o & x & d & ?). by exists o, x, d.
        -- rewrite arr_dangling in Hr' by lia. by apply not_elem_of_nil in Hr'.
      * rewrite Forall_forall in Hc.
        destruct (Hc _ Hr') as (o & x & d & ?). by exists o, x, d.
    + apply elem_of_map_set in Hin as [Hin|[= -> ->]]; [by eapply Hinv|].
      rewrite (Hthis a eq_refl) in Hr. rewrite Forall_forall in Hc. by apply Hc.
Qed.

Lemma constructs_all_constructed cls v h h1 c m :
  all_constructed cls h m →
  constructs (Some cls) v h h1 c →
  all_constructed cls h1 m.
Proof.
  intros Hinv Hc k0 a0 r Hin Hr.
  pose proof (constructs_constructed _ _ _ _ _ Hc) as Hall.
  pose proof (constructs_prefix _ _ _ _ _ Hc) as Hpre.
  destruct Hc as (_ & Hother & Hthis & _).
  destruct (decide (v = Seq a0)) as [->|Hv].
  - rewrite (Hthis a0 eq_refl) in Hr. rewrite Forall_forall in Hall. by apply Hall.
  - rewrite Hother in Hr by done. eapply constructed_prefix; [done|].
    by eapply Hinv.
Qed.

Lemma merge_step_all_constructed cls k v h m h' m' :
  all_constructed cls h m →
  merge_step (Some cls) (k, v) h m = Ok (h', m') →
  all_constructed cls h' m'.
Proof.
  intros Hinv (h1 & c & Hc & Hm)%merge_step_Ok.
  eapply merges_all_constructed; [| | |exact Hm].
  - by eapply constructs_all_constructed.
  - by eapply constructs_constructed.
  - by destruct Hc as (_ & _ & Hthis & _).
Qed.

Lemma merge_loop_all_constructed cls mapItems : ∀ h m h' m',
  all_constructed cls h m →
  merge_loop (Some cls) mapItems h m = Ok (h', m') →
  all_constructed cls h' m'.
Proof.
  induction mapItems as [|[k v] mapItems IH]; intros h m h' m' Hinv; simpl.
  - by intros [= <- <-].
  - destruct (merge_step (Some cls) (k, v) h m) as [[h1 m1]|e] eqn:Hstep;
      simpl; [|done].
    apply IH. by eapply merge_step_all_constructed.
Qed.

Lemma construct_entries_all_constructed cls entries : ∀ h h',
  construct_entries cls entries h = Ok h' →
  ∀ m, all_constructed cls h m → all_constructed cls h' (entries ++ m).
Proof.
  induction entries as [|[k a] entries IH]; intros h h'; simpl.
  - by intros [= <-].
  - destruct (construct_array cls a h) as [h1|e] eqn:Hc; simpl; [|done].
    intros Hrest m Hinv. apply construct_array_Ok in Hc.
    assert (all_constructed cls h1 ((k, a) :: m)) as Hinv1.
    { intros k0 a0 r [[= -> ->]|Hin]%elem_of_cons Hr.
      - pose proof (constructs_constructed _ _ _ _ _ Hc) as Hall.
        rewrite Forall_forall in Hall. by apply Hall.
      - by eapply (constructs_all_constructed _ _ _ _ _ _ Hinv Hc). }
    pose proof (IH _ _ Hrest _ Hinv1) as Hfinal.
    intros k0 a0 r Hin Hr. eapply Hfinal; [|done].
    apply elem_of_app. apply elem_of_cons in Hin as [->|Hin].
    + right. by left.
    + apply elem_of_app in Hin as [Hin|Hin]; [by left|right; by right].
Qed.

Lemma setData_index_Ok cfg who md now c c' :
  setData cfg who md now c = Ok c' →
  setData_index cfg md = Ok (mem c', data c').
Proof.
  unfold setData. destruct (setData_index cfg md) as [[h m]|e]; simpl; [|done].
  by intros [= <-].
Qed.

Lemma all_constructed_nil cls h : all_constructed cls h [].
Proof. intros k a r Hin. by apply not_elem_of_nil in Hin. Qed.

Lemma setData_index_all_constructed cfg cls md h m :
  itemClass cfg = Some cls →
  match md with MMap h0 m0 => all_constructed cls h0 m0 | _ => True end →
  setData_index cfg md = Ok (h, m) →
  all_constructed cls h m.
Proof.
  intros HItem Hmd. destruct md as [|h0 m0| |h0 entries]; simpl; rewrite ?HItem.
  - intros [= <- <-]. apply all_constructed_nil.
  - by intros [= <- <-].
  - done.
  - destruct (construct_entries cls entries h0) as [h1|e] eqn:Hc; simpl; [|done].
    intros [= <- <-]. intros k a r Hin%elem_of_new_Map Hr.
    eapply (construct_entries_all_constructed _ _ _ _ Hc [] (all_constructed_nil _ _));
      [|done].
    by rewrite app_nil_r.
Qed.

Lemma loadFromDatabase_all_constructed cfg cls now q c c' :
  itemClass cfg = Some cls →
  loadFromDatabase cfg now q c = Ok c' →
  all_constructed cls (mem c') (data c').
Proof.
  intros HItem. unfold loadFromDatabase.
  destruct (queryDatabase q) as [[[h rows]|]|e]; simpl; [| |done].
  - case_bool_decide.
    + intros Hs%setData_index_Ok.
      by eapply (setData_index_all_constructed _ _ MUndefined).
    + destruct (map_rows cfg rows h) as [[mapItems h1]|e]; simpl; [|done].
      destruct (merge_loop (itemClass cfg) mapItems h1 []) as [[h2 m]|e] eqn:Hm;
        simpl; [|done].
      intros Hs%setData_index_Ok.
      eapply (setData_index_all_constructed _ _ (MMap h2 m)); [done| |done].
      rewrite HItem in Hm.
      eapply merge_loop_all_constructed; [|done]. apply all_constructed_nil.
  - intros Hs%setData_index_Ok.
    by eapply (setData_index_all_constructed _ _ MUndefined).
Qed.

Lemma step_all_constructed cfg cls c ev :
  itemClass cfg = Some cls →
  all_constructed cls (mem c) (data c) →
  all_constructed cls (mem (step cfg c ev)) (data (step cfg c ev)).
Proof.
  intros HItem Hinv. destruct ev as [now q wr|now r]; simpl.
  - unfold loadFromDatabaseAndSaveToFile.
    destruct (loadFromDatabase cfg now q c) as [c1|e] eqn:Hl; [|done].
    apply (loadFromDatabase_all_constructed _ _ _ _ _ _ HItem) in Hl.
    destruct (shouldSaveToFile cfg); [|done].
    by destruct (saveToFile wr c1).
  - destruct (shouldSaveToFile cfg); [|done].
    unfold loadCacheFromFile, file_catch.
    destruct r as [e|f]; [by case_bool_decide|].
    destruct (parse_file f) as [md|e] eqn:Hf; [|by case_bool_decide].
    destruct (setData cfg FromFile md now c) as [c1|e] eqn:Hs;
      [|by case_bool_decide].
    apply setData_index_Ok in Hs.
    assert (all_constructed cls (mem c1) (data c1)) as Hinv1.
    { eapply setData_index_all_constructed; [done| |done].
      destruct f as [| |s]; simpl in Hf; [by simplify_eq..|].
      destruct (parse_snapshot s empty_store). by simplify_eq. }
    destruct (mapData_length md); [done|by case_bool_decide].
Qed.

(** ** What the read operations return, by value *)

Lemma mapM_result_cons {A B} (f : A → result B) x l :
  mapM f (x :: l) = y ← f x; k ← mapM f l; Ok (y :: k).
Proof. done. Qed.

Lemma mapM_result_ext {A B} (f g : A → result B) l :
  (∀ x, x ∈ l → f x = g x) → mapM f l = mapM g l.
Proof.
  induction l as [|x l IH]; intros Hfg; [done|].
  rewrite !mapM_result_cons, Hfg by (by left).
  rewrite IH; [done|]. intros y Hy. apply Hfg. by right.
Qed.

Lemma mapM_result_length {A B} (f : A → result B) l k :
  mapM f l = Ok k → length k = length l.
Proof.
  revert k. induction l as [|x l IH]; intros k; [by intros [= <-]|].
  rewrite mapM_result_cons. destruct (f x) as [y|e]; simpl; [|done].
  destruct (mapM f l) as [k'|e]; simpl; [|done].
  intros [= <-]. simpl. by rewrite (IH k').
Qed.

Lemma mapM_result_app {A B} (f : A → result B) l1 l2 :
  mapM f (l1 ++ l2) = k1 ← mapM f l1; k2 ← mapM f l2; Ok (k1 ++ k2).
Proof.
  induction l1 as [|x l1 IH].
  - change (mapM f ([] ++ l2)) with (mapM f l2).
    change (mapM f []) with (Ok (@nil B)).
    by destruct (mapM f l2).
  - change ((x :: l1) ++ l2) with (x :: (l1 ++ l2)).
    rewrite !mapM_result_cons, IH. destruct (f x) as [y|e]; [|done].
    destruct (mapM f l1) as [k1|e]; [|done].
    by destruct (mapM f l2).
Qed.

(** [JSON.parse] builds new objects only, and what it builds reads back
    as the text it parsed. *)
Lemma parse_values_spec ds : ∀ h rs h',
  parse_values ds h = (rs, h') →
  arrs h' = arrs h
  ∧ objs h `prefix_of` objs h'
  ∧ view h' <$> rs = ds
  ∧ Forall (λ r, closed_item h' r
                 ∧ ∀ o, r = IObj o → length (objs h) ≤ o) rs.
Proof.
  induction ds as [|d ds IH]; intros h rs h'; simpl.
  - intros [= <- <-]. by repeat split.
  - destruct (parse_value d h) as [r h1] eqn:Hr.
    destruct (parse_values ds h1) as [rs' h2] eqn:Hrs.
    intros [= <- <-]. apply IH in Hrs as (Harrs & Hpre & Hview & Hall).
    assert (arrs h1 = arrs h ∧ objs h `prefix_of` objs h1
            ∧ view h1 r = d ∧ closed_item h1 r
            ∧ ∀ o, r = IObj o → length (objs h) ≤ o) as (Ha1 & Hp1 & Hv1 & Hc1 & Hf1).
    { unfold parse_value, new_obj in Hr.
      destruct d as [p|es|fs]; simplify_eq; simpl.
      - by repeat split.
      - rewrite length_app, lookup_app_r, Nat.sub_diag by lia. simpl.
        repeat split; [by apply prefix_app_r|lia|]. by intros ? [= <-].
      - rewrite length_app, lookup_app_r, Nat.sub_diag by lia. simpl.
        repeat split; [by apply prefix_app_r|lia|]. by intros ? [= <-]. }
    split; [congruence|]. split; [by etrans|]. split.
    + rewrite fmap_cons, Hview. f_equal. rewrite <- Hv1.
      by apply view_closed_prefix.
    + constructor.
      * split; [by eapply closed_item_prefix|done].
      * eapply Forall_impl; [done|]. intros r' [Hcl Hfresh]. split; [done|].
        intros o Ho. apply prefix_length in Hp1. specialize (Hfresh o Ho). lia.
Qed.

(** [cloneArray] leaves the store as it was, adds one array and the
    objects of the copies, and returns the array of the copies, whose
    content is what [JSON.stringify] wrote. *)
Lemma cloneArray_spec items h a h' :
  cloneArray items h = Ok (a, h') →
  ∃ js rs,
    stringify_items h items = Ok js
    ∧ a = length (arrs h)
    ∧ arrs h' = arrs h ++ [rs]
    ∧ objs h `prefix_of` objs h'
    ∧ view h' <$> rs = js
    ∧ Forall (λ r, closed_item h' r ∧ ∀ o, r = IObj o → length (objs h) ≤ o) rs.
Proof.
  unfold cloneArray. case_bool_decide as Hlen.
  - intros [= <- <-]. destruct items; [|done]. exists [], []. by repeat split.
  - destruct (stringify_items h items) as [js|e]; simpl; [|done].
    unfold parse_array. destruct (parse_values js h) as [rs h1] eqn:Hp.
    intros [= <- <-].
    apply parse_values_spec in Hp as (Harrs & Hpre & Hview & Hall).
    exists js, rs. simpl. rewrite Harrs. by repeat split.
Qed.

Lemma cloneArray_Throw items h e :
  cloneArray items h = Throw e → stringify_items h items = Throw e.
Proof.
  unfold cloneArray. case_bool_decide; [done|].
  destruct (stringify_items h items) as [js|e']; simpl; [done|].
  by intros [= ->].
Qed.

(** The array [cloneArray] returns, read by value. *)
Lemma cloneArray_view items h :
  ('(a, h') ← cloneArray items h; Ok (view_array h' a)) = stringify_items h items.
Proof.
  destruct (cloneArray items h) as [[a h']|e] eqn:Hc; simpl.
  - apply cloneArray_spec in Hc as (js & rs & -> & -> & Harrs & _ & Hview & _).
    unfold view_array, arr. rewrite Harrs, lookup_app_r, Nat.sub_diag by lia.
    simpl. by rewrite <- Hview.
  - by apply cloneArray_Throw in Hc.
Qed.

(** The three read operations by value, as functions of the Index. *)
Lemma lookup_eq key c :
  lookup key c
  = match map_get (data c) key with
    | None => Ok []
    | Some a => stringify_items (mem c) (arr (mem c) a)
    end.
Proof.
  unfold lookup, getValues. destruct (map_get (data c) key) as [a|].
  - case_bool_decide as Hlen.
    + destruct (arr (mem c) a); [|done]. simpl.
      unfold view_array, arr. simpl.
      by rewrite lookup_app_r, Nat.sub_diag by lia.
    + apply cloneArray_view.
  - simpl. unfold view_array, arr. simpl.
    by rewrite lookup_app_r, Nat.sub_diag by lia.
Qed.

Lemma lookupAll_eq c :
  lookupAll c
  = stringify_items (mem c) (concat (map (λ e, arr (mem c) e.2) (data c))).
Proof. unfold lookupAll, getAll. apply cloneArray_view. Qed.

Lemma lookupFirst_eq key c :
  lookupFirst key c
  = match map_get (data c) key with
    | None => Ok (VPrim PNull)
    | Some a =>
        match arr (mem c) a with
        | [] => Ok (VPrim PNull)
        | r :: _ => json_clone (view (mem c) r)
        end
    end.
Proof.
  unfold lookupFirst, getFirstValue. destruct (map_get (data c) key) as [a|]; [|done].
  case_bool_decide as Hlen.
  - by destruct (arr (mem c) a).
  - destruct (arr (mem c) a) as [|r l] eqn:Harr; [done|].
    assert (elem (mem c) a 0 = r) as -> by (unfold elem; by rewrite Harr).
    destruct (cloneArray [r] (mem c)) as [[a' h']|e] eqn:Hc; simpl.
    + apply cloneArray_spec in Hc as (js & rs & Hjs & -> & Harrs & _ & Hview & _).
      unfold stringify_items in Hjs. rewrite mapM_result_cons in Hjs.
      destruct (json_clone (view (mem c) r)) as [j|e]; simpl in Hjs; [|done].
      injection Hjs as <-. destruct rs as [|r' [|? ?]]; simplify_eq.
      unfold elem, arr. rewrite Harrs, lookup_app_r, Nat.sub_diag by lia.
      simpl. by injection Hview as ->.
    + apply cloneArray_Throw in Hc. unfold stringify_items in Hc.
      rewrite mapM_result_cons in Hc.
      destruct (json_clone (view (mem c) r)) as [j|e']; simpl in Hc; [done|].
      by injection Hc as ->.
Qed.

(** ** Copies are isolated from the Index *)

Lemma agree_on_arr h h2 a : agree_on h h2 → a < length (arrs h) → arr h2 a = arr h a.
Proof. intros [Ha _] Hlt. unfold arr. by rewrite Ha. Qed.

Lemma agree_on_view h h2 r : agree_on h h2 → closed_item h r → view h2 r = view h r.
Proof.
  intros [_ Ho] Hr. destruct r as [p|o]; simpl in *; [done|]. by rewrite Ho.
Qed.

Lemma agree_on_stringify h h2 items :
  agree_on h h2 → Forall (closed_item h) items →
  stringify_items h2 items = stringify_items h items.
Proof.
  intros Hag Hcl. unfold stringify_items. apply mapM_result_ext.
  intros r Hr. rewrite (agree_on_view h h2); [done..|].
  rewrite Forall_forall in Hcl. by apply Hcl.
Qed.

Lemma elem_of_concat_map {A B} (f : A → list B) (l : list A) (y : B) :
  y ∈ concat (map f l) ↔ ∃ x, x ∈ l ∧ y ∈ f x.
Proof.
  induction l as [|x l IH]; simpl.
  - split; [by intros ?%not_elem_of_nil|]. by intros (x & ?%not_elem_of_nil & _).
  - rewrite elem_of_app, IH. split.
    + intros [Hy|(x' & Hx' & Hy)]; [exists x; split; [by left|done]|].
      exists x'. split; [by right|done].
    + intros (x' & [->|Hx']%elem_of_cons & Hy); [by left|right; by exists x'].
Qed.

(** The reads depend on nothing but the arrays and objects of the Index. *)
Lemma reads_frame (c : cache) (h2 : store) :
  closed_index (mem c) (data c) → agree_on (mem c) h2 →
  ∀ key, lookup key (with_mem h2 c) = lookup key c
         ∧ lookupFirst key (with_mem h2 c) = lookupFirst key c
         ∧ lookupAll (with_mem h2 c) = lookupAll c.
Proof.
  intros Hcl Hag key.
  rewrite !lookup_eq, !lookupFirst_eq, !lookupAll_eq. simpl.
  split; [|split].
  - destruct (map_get (data c) key) as [a|] eqn:Hget; [|done].
    apply map_get_Some_elem, Hcl in Hget as [Hlt Hitems].
    rewrite (agree_on_arr _ _ _ Hag Hlt).
    apply agree_on_stringify; [done|]. by apply Forall_forall.
  - destruct (map_get (data c) key) as [a|] eqn:Hget; [|done].
    apply map_get_Some_elem, Hcl in Hget as [Hlt Hitems].
    rewrite (agree_on_arr _ _ _ Hag Hlt).
    destruct (arr (mem c) a) as [|r l]; [done|].
    rewrite (agree_on_view _ _ _ Hag); [done|]. apply Hitems. by left.
  - assert (map (λ e, arr h2 e.2) (data c) = map (λ e, arr (mem c) e.2) (data c))
      as ->.
    { apply map_ext_in. intros [k a] Hin%list_elem_of_In. simpl.
      apply agree_on_arr; [done|]. by apply (Hcl k a). }
    apply agree_on_stringify; [done|].
    apply Forall_forall. intros r ([k a] & Hin & Hr)%elem_of_concat_map.
    by apply (Hcl k a Hin).
Qed.

Lemma cloneArray_fresh items h a h1 :
  cloneArray items h = Ok (a, h1) →
  agree_on h h1 ∧ ∀ o, IObj o ∈ arr h1 a → length (objs h) ≤ o.
Proof.
  intros (js & rs & _ & -> & Harrs & Hpre & _ & Hall)%cloneArray_spec.
  split; [split|].
  - intros a Ha. by rewrite Harrs, lookup_app_l.
  - intros o Ho. destruct Hpre as [ds ->]. by rewrite lookup_app_l.
  - intros o. unfold arr. rewrite Harrs, lookup_app_r, Nat.sub_diag by lia.
    simpl. intros Hin. rewrite Forall_forall in Hall.
    by apply (Hall _ Hin).
Qed.

Lemma agree_on_mutate_obj h h1 o d :
  agree_on h h1 → length (objs h) ≤ o → agree_on h (mutate_obj o d h1).
Proof.
  intros [Ha Ho] Hfresh. split; [done|]. intros o' Hlt. simpl.
  rewrite list_lookup_insert_ne by lia. by apply Ho.
Qed.

Lemma agree_on_mutate_arr h h1 a l :
  agree_on h h1 → length (arrs h) ≤ a → agree_on h (mutate_arr a l h1).
Proof.
  intros [Ha Ho] Hfresh. split; [|done]. intros a' Hlt. simpl.
  rewrite list_lookup_insert_ne by lia. by apply Ha.
Qed.

(** The model tells a copy from the stored object: a write to a stored
    object would show in later reads. *)
Lemma stored_object_write_shows :
  lookup (VPrim (PNum 1)) (with_mem (mutate_obj 0 (VPrim PNull) (mem one_row_cache))
                                    one_row_cache)
  ≠ lookup (VPrim (PNum 1)) one_row_cache.
Proof. vm_compute. discriminate. Qed.

(** C9. Whichever read returned the record object [o], writing to [o]
    leaves the Index as it was: after the write, every [getValues],
    [getFirstValue] and [getAll] returns, by value, what it returns
    without the write, which is what it returned before the read. *)
Theorem reads_isolated (c : cache) (h1 : store) (o : nat) (d : value) :
  closed_index (mem c) (data c) →
  (∃ key a, getValues key c = Ok (a, h1) ∧ IObj o ∈ arr h1 a)
  ∨ (∃ key, getFirstValue key c = Ok (IObj o, h1))
  ∨ (∃ a, getAll c = Ok (a, h1) ∧ IObj o ∈ arr h1 a) →
  let c1 := with_mem h1 c in
  let c' := with_mem (mutate_obj o d h1) c in
  data c' = data c
  ∧ ∀ key, (lookup key c' = lookup key c1 ∧ lookup key c1 = lookup key c)
           ∧ (lookupFirst key c' = lookupFirst key c1
              ∧ lookupFirst key c1 = lookupFirst key c)
           ∧ (lookupAll c' = lookupAll c1 ∧ lookupAll c1 = lookupAll c).
Proof.
  intros Hcl Hread. simpl. split; [done|].
  assert (agree_on (mem c) h1 ∧ length (objs (mem c)) ≤ o) as [Hag Hfresh].
  { destruct Hread as [(key & a & Hget & Hin)|[(key & Hget)|(a & Hget & Hin)]].
    - unfold getValues in Hget.
      pose proof (arr_new_arr [] (mem c)) as Hnew.
      destruct (map_get (data c) key) as [b|].
      + case_bool_decide.
        * assert (new_arr [] (mem c) = (a, h1)) as Heq by congruence.
          rewrite Heq in Hnew. simpl in Hnew.
          rewrite Hnew in Hin. by apply not_elem_of_nil in Hin.
        * apply cloneArray_fresh in Hget as [Hag Hfresh]. auto.
      + assert (new_arr [] (mem c) = (a, h1)) as Heq by congruence.
        rewrite Heq in Hnew. simpl in Hnew.
        rewrite Hnew in Hin. by apply not_elem_of_nil in Hin.
    - unfold getFirstValue in Hget.
      destruct (map_get (data c) key) as [b|]; [|done].
      case_bool_decide; [done|].
      destruct (cloneArray [elem (mem c) b 0] (mem c)) as [[a h']|e] eqn:Hc;
        simpl in Hget; [|done].
      injection Hget as Helem <-.
      pose proof Hc as (js & rs & Hjs & -> & Harrs & _ & _ & _)%cloneArray_spec.
      apply cloneArray_fresh in Hc as [Hag Hfresh]. split; [done|].
      apply Hfresh. unfold elem, arr in Helem. unfold arr.
      rewrite Harrs, lookup_app_r, Nat.sub_diag in Helem by lia.
      rewrite Harrs, lookup_app_r, Nat.sub_diag by lia. simpl in *.
      destruct rs as [|r rs]; simpl in Helem; [done|]. rewrite Helem. by left.
    - apply cloneArray_fresh in Hget as [Hag Hfresh]. auto. }
  intros key.
  destruct (reads_frame c h1 Hcl Hag key) as (H1 & H2 & H3).
  destruct (reads_frame c (mutate_obj o d h1) Hcl
              (agree_on_mutate_obj _ _ _ _ Hag Hfresh) key) as (H1' & H2' & H3').
  repeat split; congruence.
Qed.

(** ** The snapshot: written, parsed, reconstructed *)

Lemma parse_array_spec js h a h' :
  parse_array js h = (a, h') →
  ∃ rs, a = length (arrs h)
        ∧ arrs h' = arrs h ++ [rs]
        ∧ objs h `prefix_of` objs h'
        ∧ view h' <$> rs = js
        ∧ Forall (closed_item h') rs.
Proof.
  unfold parse_array. destruct (parse_values js h) as [rs h1] eqn:Hp.
  intros [= <- <-]. apply parse_values_spec in Hp as (Harrs & Hpre & Hview & Hall).
  exists rs. simpl. rewrite Harrs. repeat split; try done.
  eapply Forall_impl; [done|]. by intros r [? _].
Qed.

(** [JSON.parse] of a snapshot: the pairs keep their keys and order, and
    pair number [i] gets array number [i] past the arrays of the store,
    whose records read back as the text of the pair. *)
Lemma parse_snapshot_spec s : ∀ h entries h',
  parse_snapshot s h = (entries, h') →
  ∃ news,
    arrs h' = arrs h ++ news
    ∧ objs h `prefix_of` objs h'
    ∧ entries = zip (s.*1) (seq (length (arrs h)) (length s))
    ∧ Forall2 (λ rs se, view h' <$> rs = se.2 ∧ Forall (closed_item h') rs) news s.
Proof.
  induction s as [|[k js] s IH]; intros h entries h'; simpl.
  - intros [= <- <-]. exists []. rewrite app_nil_r. by repeat split.
  - destruct (parse_array js h) as [a h1] eqn:Ha.
    destruct (parse_snapshot s h1) as [entries' h2] eqn:Hs.
    intros [= <- <-].
    apply parse_array_spec in Ha as (rs & -> & Harrs1 & Hpre1 & Hview1 & Hcl1).
    apply IH in Hs as (news & Harrs2 & Hpre2 & -> & Hall).
    exists (rs :: news). split; [by rewrite Harrs2, Harrs1, <- app_assoc|].
    split; [by etrans|]. split.
    { rewrite Harrs1, length_app. simpl. by rewrite Nat.add_1_r. }
    constructor; [|done]. simpl. split.
    + rewrite <- Hview1. apply list_fmap_ext. intros i r Hr.
      apply view_closed_prefix; [done|].
      rewrite Forall_forall in Hcl1. apply Hcl1. by eapply list_elem_of_lookup_2.
    + eapply Forall_impl; [done|]. intros r Hr. by eapply closed_item_prefix.
Qed.

Lemma construct_loop_total cls a n : ∀ j h,
  j + n ≤ length (arr h a) →
  (∀ i r, j ≤ i → arr h a !! i = Some r →
          closed_item h r ∧ ∃ d, cls (view h r) = Ok d) →
  ∃ h', construct_loop cls a j n h = Ok h'.
Proof.
  induction n as [|n IH]; intros j h Hlen Hgood; simpl; [by eauto|].
  destruct (lookup_lt_is_Some_2 (arr h a) j ltac:(lia)) as [rj Hrj].
  destruct (Hgood j rj ltac:(lia) Hrj) as (_ & d & Hd).
  unfold new_Item, elem. rewrite Hrj. simpl. rewrite Hd. simpl.
  apply IH.
  - rewrite arr_set_elem_eq, length_insert. unfold arr in *. simpl. lia.
  - intros i r Hi. rewrite arr_set_elem_eq, list_lookup_insert_ne by lia.
    intros Hr. change (arr (Store (arrs h) (objs h ++ [d])) a) with (arr h a) in Hr.
    destruct (Hgood i r ltac:(lia) Hr) as (Hcl & d' & Hd').
    assert (objs h `prefix_of` objs (set_elem a j (IObj (length (objs h)))
                                      (Store (arrs h) (objs h ++ [d])))) as Hpre
      by (by apply prefix_app_r).
    split; [by eapply closed_item_prefix|].
    exists d'. by rewrite (view_closed_prefix _ _ _ Hpre Hcl).
Qed.

(** What the constructor loop makes of an array whose records exist: new
    objects, each with the content the constructor returned for the record
    it replaces. *)
Lemma construct_array_rel cls a h h' :
  construct_array cls a h = Ok h' →
  Forall (closed_item h) (arr h a) →
  Forall2 (λ r r', closed_item h' r' ∧ cls (view h r) = Ok (view h' r'))
          (arr h a) (arr h' a).
Proof.
  intros (_ & _ & _ & ds & Hobjs & Hc & Hall)%construct_array_Ok Hcl.
  rewrite Hc.
  pose proof (Forall2_length _ _ _ Hall) as Hlen. simpl in Hall, Hlen.
  apply Forall2_same_length_lookup_2; [by rewrite length_fmap, length_seq|].
  intros i r r' Hr Hr'.
  rewrite list_lookup_fmap in Hr'.
  destruct (seq (length (objs h)) (length ds) !! i) as [o|] eqn:Ho; [|done].
  apply lookup_seq in Ho as [-> Hi]. injection Hr' as <-.
  destruct (lookup_lt_is_Some_2 ds i Hi) as [d Hd].
  destruct (Forall2_lookup_lr _ _ _ _ _ _ Hall Hr Hd) as (x & Hx & Hview).
  rewrite Forall_forall in Hcl.
  rewrite Hview in Hx by (apply Hcl; by eapply list_elem_of_lookup_2).
  simpl. rewrite Hobjs, length_app, lookup_app_r, Nat.add_comm, Nat.add_sub by lia.
  rewrite Hd. simpl. split; [lia|done].
Qed.

Lemma construct_array_total cls a h :
  Forall (λ r, closed_item h r ∧ ∃ d, cls (view h r) = Ok d) (arr h a) →
  ∃ h', construct_array cls a h = Ok h'.
Proof.
  intros Hgood. apply construct_loop_total; [simpl; lia|].
  intros i r _ Hr. rewrite Forall_forall in Hgood. apply Hgood.
  by eapply list_elem_of_lookup_2.
Qed.

Lemma Forall2_impl_l {A B} (P : A → Prop) (R R' : A → B → Prop) l k :
  Forall P l → Forall2 R l k → (∀ x y, P x → R x y → R' x y) → Forall2 R' l k.
Proof.
  intros HP HR Himpl. induction HR as [|x y l k Hxy _ IH]; [constructor|].
  apply Forall_cons in HP as [Hx HP]. constructor; [by apply Himpl|by apply IH].
Qed.

(** The constructor loop of [setData], over the parsed pairs: when the
    arrays of the pairs are distinct and the constructor accepts every
    record, it goes through, and every array then holds, record for
    record, objects with the content the constructor returned. *)
Lemma construct_entries_total cls entries : ∀ h,
  NoDup entries.*2 →
  (∀ k a, (k, a) ∈ entries →
          Forall (λ r, closed_item h r ∧ ∃ d, cls (view h r) = Ok d) (arr h a)) →
  ∃ h',
    construct_entries cls entries h = Ok h'
    ∧ objs h `prefix_of` objs h'
    ∧ (∀ b, b ∉ entries.*2 → arr h' b = arr h b)
    ∧ ∀ k a, (k, a) ∈ entries →
             Forall2 (λ r r', closed_item h' r' ∧ cls (view h r) = Ok (view h' r'))
                     (arr h a) (arr h' a).
Proof.
  induction entries as [|[k a] entries IH]; intros h Hnd Hgood; simpl.
  - exists h. repeat split; try done. by intros k a ?%not_elem_of_nil.
  - rewrite fmap_cons in Hnd. apply NoDup_cons in Hnd as [Hnotin Hnd]. simpl in Hnotin.
    pose proof (Hgood k a ltac:(by left)) as Hga.
    destruct (construct_array_total cls a h Hga) as [h1 Hc]. rewrite Hc. simpl.
    pose proof (construct_array_rel _ _ _ _ Hc) as Hrel.
    pose proof Hc as Hcs%construct_array_Ok.
    pose proof (constructs_prefix _ _ _ _ _ Hcs) as Hpre1.
    destruct Hcs as (_ & Hother & _ & _).
    destruct (IH h1 Hnd) as (h' & Hrest & Hpre & Hout & Hall).
    { intros k0 a0 Hin. assert (a0 ≠ a) as Hne.
      { intros ->. apply Hnotin. apply list_elem_of_fmap. by exists (k0, a). }
      rewrite Hother by congruence.
      eapply Forall_impl; [by apply (Hgood k0 a0); right|].
      intros r (Hcl & d & Hd). split; [by eapply closed_item_prefix|].
      exists d. by rewrite (view_closed_prefix _ _ _ Hpre1 Hcl). }
    exists h'. split; [done|]. split; [by etrans|]. split.
    { intros b [Hb1 Hb2]%not_elem_of_cons.
      rewrite Hout by done. apply Hother. congruence. }
    intros k0 a0 [[= -> ->]|Hin]%elem_of_cons.
    + rewrite Hout by done.
      eapply Forall2_impl; [apply Hrel|].
      * eapply Forall_impl; [done|]. by intros r [? _].
      * intros r r' [Hcl Hr]. split; [by eapply closed_item_prefix|].
        by rewrite (view_closed_prefix _ _ _ Hpre Hcl).
    + assert (a0 ≠ a) as Hne.
      { intros ->. apply Hnotin. apply list_elem_of_fmap. by exists (k0, a). }
      specialize (Hall k0 a0 Hin). rewrite Hother in Hall by congruence.
      eapply Forall2_impl_l; [apply (Hgood k0 a0); by right|done|].
      intros r r' [Hcl _] [Hcl' Hr]. split; [done|].
      by rewrite <- (view_closed_prefix _ _ _ Hpre1 Hcl).
Qed.

Lemma mapM_result_Forall2 {A B} (f : A → result B) l k :
  mapM f l = Ok k ↔ Forall2 (λ x y, f x = Ok y) l k.
Proof.
  revert k. induction l as [|x l IH]; intros k.
  - change (mapM f []) with (Ok (@nil B)). split.
    + intros [= <-]. constructor.
    + by intros ->%Forall2_nil_inv_l.
  - rewrite mapM_result_cons. split.
    + destruct (f x) as [y|e] eqn:Hfx; simpl; [|done].
      destruct (mapM f l) as [k'|e] eqn:Hl; simpl; [|done].
      intros [= <-]. constructor; [done|]. by apply IH.
    + intros (y & k' & Hy & Hk' & ->)%Forall2_cons_inv_l.
      rewrite Hy. simpl. apply IH in Hk'. by rewrite Hk'.
Qed.

Lemma stringify_items_concat h ls jss :
  Forall2 (λ l js, stringify_items h l = Ok js) ls jss →
  stringify_items h (concat ls) = Ok (concat jss).
Proof.
  induction 1 as [|l js ls jss Hl _ IH]; [done|]. simpl.
  unfold stringify_items in *. by rewrite mapM_result_app, Hl, IH.
Qed.

Lemma map_set_fresh m k a : k ∉ m.*1 → map_set m k a = m ++ [(k, a)].
Proof.
  induction m as [|[k' a'] m IH]; [done|]. rewrite fmap_cons. simpl.
  intros [Hne Hnotin]%not_elem_of_cons.
  rewrite same_value_zero_ne by done. by rewrite IH.
Qed.

(** [new Map(entries)] keeps entries whose keys are distinct as they
    are. *)
Lemma new_Map_NoDup entries : NoDup entries.*1 → new_Map entries = entries.
Proof.
  unfold new_Map.
  assert (∀ m, NoDup (m ++ entries).*1 →
               foldl (λ m e, map_set m e.1 e.2) m entries = m ++ entries) as Hgen.
  { induction entries as [|[k a] entries IH]; intros m Hnd; simpl.
    - by rewrite app_nil_r.
    - rewrite map_set_fresh.
      + rewrite IH; rewrite <- app_assoc; done.
      + rewrite fmap_app, fmap_cons in Hnd.
        apply NoDup_app in Hnd as (_ & Hdisj & _).
        intros Hin. apply (Hdisj k Hin). by left. }
  intros Hnd. by apply (Hgen []).
Qed.

Lemma parse_snapshot_empty s entries h0 :
  parse_snapshot s empty_store = (entries, h0) →
  entries.*1 = s.*1
  ∧ NoDup entries.*2
  ∧ Forall2 (λ e se, view h0 <$> arr h0 e.2 = se.2
                     ∧ Forall (closed_item h0) (arr h0 e.2)) entries s.
Proof.
  intros (news & Harrs & _ & -> & Hall)%parse_snapshot_spec. simpl in *.
  pose proof (Forall2_length _ _ _ Hall) as Hlen.
  assert (length s.*1 = length (seq 0 (length s))) as Hlen'
    by (by rewrite length_fmap, length_seq).
  split; [by rewrite fst_zip by lia|].
  split; [rewrite snd_zip by lia; apply NoDup_seq|].
  apply Forall2_same_length_lookup_2; [rewrite length_zip, length_fmap, length_seq; lia|].
  intros i [k a] se Hi Hse. apply lookup_zip_with_Some in Hi as (k' & a' & [= <- <-] & Hk & Ha).
  apply lookup_seq in Ha as [-> Hlt]. simpl.
  destruct (lookup_lt_is_Some_2 news i ltac:(lia)) as [rs Hrs].
  destruct (Forall2_lookup_lr _ _ _ _ _ _ Hall Hrs Hse) as [Hview Hcl].
  unfold arr. by rewrite Harrs, Hrs.
Qed.

Lemma reload_views cls h0 h1 (entries : list (value * nat)) (s : snapshot) :
  Forall2 (λ e se, view h0 <$> arr h0 e.2 = se.2
                   ∧ Forall (closed_item h0) (arr h0 e.2)) entries s →
  (∀ k a, (k, a) ∈ entries →
          Forall2 (λ r r', closed_item h1 r' ∧ cls (view h0 r) = Ok (view h1 r'))
                  (arr h0 a) (arr h1 a)) →
  (∀ k js j, (k, js) ∈ s → j ∈ js → ∃ d, cls j = Ok d ∧ json_clone d = Ok j) →
  Forall2 (λ e se, stringify_items h1 (arr h1 e.2) = Ok se.2) entries s.
Proof.
  induction 1 as [|[k a] [k' js] entries s [Hview Hcl] _ IH]; intros Hrel Hstable;
    [constructor|].
  constructor.
  - simpl in *. unfold stringify_items. apply mapM_result_Forall2.
    specialize (Hrel k a ltac:(by left)). rewrite <- Hview.
    apply Forall2_fmap_r. apply Forall2_flip.
    eapply (Forall2_impl_l (λ r, r ∈ arr h0 a)); [by apply Forall_forall|exact Hrel|].
    intros r r' Hin [_ Hr]. simpl.
    destruct (Hstable k' js (view h0 r)) as (d & Hd & Hj).
    + by left.
    + rewrite <- Hview. by apply list_elem_of_fmap_2.
    + rewrite Hd in Hr. by injection Hr as <-.
  - apply IH.
    + intros k0 a0 Hin. apply (Hrel k0). by right.
    + intros k0 js0 j0 Hin. apply (Hstable k0 js0 j0). by right.
Qed.

Example wrapped_reload_run :
  lookupAll wrapped_row_cache = Ok [VObj [("w", VObj [("id", VPrim (PNum 7))])]]
  ∧ saveToFile None wrapped_row_cache
    = Ok [(VPrim (PNum 7), [VObj [("w", VObj [("id", VPrim (PNum 7))])]])]
  ∧ lookupAll (loadCacheFromFile wrapping_cfg 2
                 (ReadOk (FileJson [(VPrim (PNum 7),
                                     [VObj [("w", VObj [("id", VPrim (PNum 7))])]])]))
                 new_cache)
    = Ok [VObj [("w", VObj [("w", VObj [("id", VPrim (PNum 7))])])]].
Proof. repeat split; reflexivity. Qed.

(** The claim of C5 fails: the snapshot holds the constructed records, and
    reloading puts each of them through the constructor once more, so a
    constructor that does not return such a record unchanged yields other
    records than the Index had. *)
Lemma reload_constructs_again :
  ¬ (∀ (cfg : config) (cls : ctor) (c c0 : cache) (s : snapshot) (now : nat),
       itemClass cfg = Some cls →
       saveToFile None c = Ok s →
       lookupAll (loadCacheFromFile cfg now (ReadOk (FileJson s)) c0) = lookupAll c).
Proof.
  intros H.
  specialize (H wrapping_cfg wrap wrapped_row_cache new_cache _ 2 eq_refl eq_refl).
  vm_compute in H. discriminate.
Qed.

(** C5, as the code has it. Serializing the Index and reconstructing it
    with the same constructor gives an Index with the same [getAll], by
    value, when the keys of the snapshot are pairwise distinct and the
    constructor is stable on its records: [new Item(j)] serializes to [j]
    again for every record [j] of the snapshot. *)
Theorem snapshot_round_trip (cfg : config) (cls : ctor) (c c0 : cache)
    (s : snapshot) (now : nat) :
  itemClass cfg = Some cls →
  saveToFile None c = Ok s →
  NoDup s.*1 →
  (∀ k js j, (k, js) ∈ s → j ∈ js → ∃ d, cls j = Ok d ∧ json_clone d = Ok j) →
  lookupAll (loadCacheFromFile cfg now (ReadOk (FileJson s)) c0) = lookupAll c.
Proof.
  intros HItem Hsave Hnd Hstable.
  (* the Index, by value, is the records of the snapshot *)
  assert (lookupAll c = Ok (concat s.*2)) as ->.
  { rewrite lookupAll_eq. apply stringify_items_concat.
    unfold saveToFile in Hsave.
    destruct (stringify_data (mem c) (data c)) as [s'|e] eqn:Hs; simpl in Hsave; [|done].
    injection Hsave as ->. unfold stringify_data in Hs.
    apply mapM_result_Forall2 in Hs.
    induction Hs as [|[k a] [k' js] m s Hks _ IH]; [constructor|].
    rewrite fmap_cons. simpl. constructor.
    - simpl in Hks. destruct (json_clone k); simpl in Hks; [|done].
      destruct (stringify_items (mem c) (arr (mem c) a)); simpl in Hks; [|done].
      by simplify_eq.
    - apply IH.
      + by apply NoDup_cons in Hnd as [_ ?].
      + intros k0 js0 j0 Hin. apply (Hstable k0 js0 j0). by right. }
  (* the load of the snapshot goes through *)
  unfold loadCacheFromFile, parse_file.
  destruct (parse_snapshot s empty_store) as [entries h0] eqn:Hparse.
  apply parse_snapshot_empty in Hparse as (Hkeys & Hnd2 & Hall).
  destruct (construct_entries_total cls entries h0 Hnd2)
    as (h1 & Hc & Hpre & _ & Hrel).
  { intros k a Hin. apply list_elem_of_lookup in Hin as [i Hi].
    destruct (Forall2_lookup_l _ _ _ _ _ Hall Hi) as ([k' js] & Hse & Hview & Hcl).
    simpl in *. apply Forall_forall. intros r Hr.
    rewrite Forall_forall in Hcl. split; [by apply Hcl|].
    destruct (Hstable k' js (view h0 r)) as (d & Hd & _).
    - by eapply list_elem_of_lookup_2.
    - rewrite <- Hview. by apply list_elem_of_fmap_2.
    - by exists d. }
  unfold setData, setData_index. rewrite HItem, Hc. simpl.
  rewrite lookupAll_eq. simpl.
  rewrite new_Map_NoDup by (by rewrite Hkeys).
  apply stringify_items_concat, Forall2_fmap.
  by eapply reload_views.
Qed.

(** ** The merge rule *)

Lemma seq_refs_app l1 l2 : seq_refs (l1 ++ l2) = seq_refs l1 ++ seq_refs l2.
Proof.
  induction l1 as [|[k [r|a]] l1 IH]; simpl; [done|done|by rewrite IH].
Qed.

Lemma values_for_app k l1 l2 :
  values_for k (l1 ++ l2) = values_for k l1 ++ values_for k l2.
Proof.
  induction l1 as [|[k' v] l1 IH]; simpl; [done|].
  destruct (same_value_zero k' k); simpl; by rewrite IH.
Qed.

Lemma values_for_nil_iff k mapItems :
  values_for k mapItems = [] ↔ ∀ v, (k, v) ∉ mapItems.
Proof.
  induction mapItems as [|[k' v] mapItems IH]; simpl.
  - split; [|done]. intros _ v. apply not_elem_of_nil.
  - destruct (same_value_zero k' k) eqn:E.
    + apply same_value_zero_spec in E as ->. split; [done|].
      intros H. exfalso. apply (H v). by left.
    + rewrite IH. split.
      * intros H v' [[= -> ->]|Hin]%elem_of_cons; [|by apply (H v')].
        by rewrite same_value_zero_refl in E.
      * intros H v' Hin. apply (H v'). by right.
Qed.

Lemma map_get_None_keys m k : map_get m k = None → k ∉ m.*1.
Proof.
  intros Hget (e & -> & Hin)%list_elem_of_fmap. destruct e as [k a].
  by apply (map_get_None_elem _ _ a) in Hget.
Qed.

Lemma NoDup_snd_inj (m : jsmap) k k0 b :
  NoDup m.*2 → (k, b) ∈ m → (k0, b) ∈ m → k = k0.
Proof.
  induction m as [|[k' a'] m IH]; [by intros _ ?%not_elem_of_nil|].
  rewrite fmap_cons. intros [Hnotin Hnd]%NoDup_cons.
  intros [H1|H1]%elem_of_cons [H2|H2]%elem_of_cons; simplify_eq;
    [done| | |by apply IH].
  - exfalso. apply Hnotin. apply list_elem_of_fmap. by exists (k0, a').
  - exfalso. apply Hnotin. apply list_elem_of_fmap. by exists (k, a').
Qed.

Lemma merges_objs k v c h1 m h' m' : merges k v c h1 m h' m' → objs h' = objs h1.
Proof.
  unfold merges. destruct (map_get m k); [by intros [_ ->]|].
  destruct v; by intros [-> _].
Qed.

Lemma contribution_prefix Item h0 h h' v c :
  objs h `prefix_of` objs h' →
  contribution Item h0 h v c → contribution Item h0 h' v c.
Proof.
  intros Hpre. unfold contribution. destruct Item as [cls|]; [|done].
  intros Hall. eapply Forall2_impl; [done|].
  intros r r'. by apply constructed_from_prefix.
Qed.

(** What the construction of lines 110-120 leaves in [dataValue] is the
    contribution of the pair. *)
Lemma constructs_contribution Item v h0 h h1 c :
  objs h0 `prefix_of` objs h →
  elements h v = elements h0 v →
  Forall (closed_item h0) (elements h0 v) →
  constructs Item v h h1 c →
  contribution Item h0 h1 v c.
Proof.
  intros Hpre Helems Hcl (_ & _ & _ & HItem). unfold contribution.
  destruct Item as [cls|]; [|destruct HItem as [_ ->]; done].
  destruct HItem as (ds & Hobjs & -> & Hall). rewrite Helems in Hall.
  pose proof (Forall2_length _ _ _ Hall) as Hlen.
  apply Forall2_same_length_lookup_2; [by rewrite length_fmap, length_seq|].
  intros i r r' Hr Hr'. rewrite list_lookup_fmap in Hr'.
  destruct (seq (length (objs h)) (length ds) !! i) as [o|] eqn:Ho; [|done].
  apply lookup_seq in Ho as [-> Hi]. injection Hr' as <-.
  destruct (lookup_lt_is_Some_2 ds i Hi) as [d Hd].
  destruct (Forall2_lookup_lr _ _ _ _ _ _ Hall Hr Hd) as (x & Hx & Hview).
  assert (closed_item h0 r) as Hr0.
  { rewrite Forall_forall in Hcl. apply Hcl. by eapply list_elem_of_lookup_2. }
  rewrite Hview in Hx by (by eapply closed_item_prefix).
  rewrite (view_closed_prefix _ _ _ Hpre Hr0) in Hx.
  exists (length (objs h) + i), d. split; [done|]. split; [|done].
  by rewrite Hobjs, lookup_app_r, Nat.add_comm, Nat.add_sub by lia.
Qed.

Lemma merge_inv_nil Item h0 : merge_inv Item h0 [] h0 [].
Proof.
  split; [done|]. split; [done|]. split; [done|]. split; [constructor|].
  split; [|done]. by intros k a ?%not_elem_of_nil.
Qed.

(** One turn of the loop keeps the invariant, for a pair whose array, if
    it has one, is an array of [h0] no earlier pair has named. *)
Lemma merge_step_inv Item h0 done k v h m h' m' :
  merge_inv Item h0 done h m →
  (∀ a, v = Seq a → a < length (arrs h0) ∧ a ∉ seq_refs done) →
  Forall (closed_item h0) (elements h0 v) →
  merge_step Item (k, v) h m = Ok (h', m') →
  merge_inv Item h0 (done ++ [(k, v)]) h' m'.
Proof.
  intros (Hpre & Hlen & Hkeep & Hnd & Hrange & Hkeys) Hv Hcl Hstep.
  apply merge_step_Ok in Hstep as (h1 & c & Hc & Hm).
  pose proof (constructs_prefix _ _ _ _ _ Hc) as Hpre1.
  assert (elements h v = elements h0 v) as Helems.
  { destruct v as [r|a]; [done|]. simpl. destruct (Hv a eq_refl). by apply Hkeep. }
  pose proof (constructs_contribution _ _ _ _ _ _ Hpre Helems Hcl Hc) as Hcontrib.
  pose proof (merges_objs _ _ _ _ _ _ _ Hm) as Hobjs.
  destruct Hc as (Hlen1 & Hother & Hthis & _).
  assert (∀ k0 b, (k0, b) ∈ m → v ≠ Seq b) as Hnotv.
  { intros k0 b Hin ->. destruct (Hv b eq_refl) as [Hlt Hnotin].
    destruct (Hrange _ _ Hin) as [_ [?|?]]; [done|lia]. }
  assert (seq_refs (done ++ [(k, v)])
          = seq_refs done ++ match v with Seq a => [a] | Scalar _ => [] end) as Hrefs.
  { rewrite seq_refs_app. by destruct v. }
  assert (∀ k0, values_for k0 (done ++ [(k, v)])
                = values_for k0 done ++ if same_value_zero k k0 then [v] else [])
    as Hvals.
  { intros k0. rewrite values_for_app. simpl. by destruct (same_value_zero k k0). }
  assert (∀ a, a < length (arrs h0) → a ∉ seq_refs (done ++ [(k, v)]) →
               arr h1 a = arr h0 a) as Hkeep1.
  { intros a Halt Hnotin. rewrite Hrefs in Hnotin.
    apply not_elem_of_app in Hnotin as [Hn1 Hn2].
    rewrite Hother; [by apply Hkeep|]. intros ->. apply Hn2. by left. }
  assert (∀ v' c', contribution Item h0 h v' c' → contribution Item h0 h' v' c')
    as Hmono.
  { intros v' c'. apply contribution_prefix. by rewrite Hobjs. }
  assert (contribution Item h0 h' v c) as Hcontrib'.
  { revert Hcontrib. apply contribution_prefix. by rewrite Hobjs. }
  assert (objs h0 `prefix_of` objs h') as Hpre'.
  { rewrite Hobjs. by etrans. }
  unfold merges in Hm. destruct (map_get m k) as [b|] eqn:Hget.
  - destruct Hm as [-> ->].
    pose proof (map_get_Some_elem _ _ _ Hget) as Hin.
    destruct (Hrange _ _ Hin) as [Hblt Hbrange].
    split; [done|]. split; [simpl; rewrite length_alter; lia|].
    split.
    { intros a Halt Hnotin. rewrite arr_push_ne; [by apply Hkeep1|].
      intros ->. rewrite Hrefs in Hnotin.
      apply not_elem_of_app in Hnotin as [Hn1 _]. destruct Hbrange; [done|lia]. }
    split; [done|]. split.
    { intros k0 a Hin0. destruct (Hrange _ _ Hin0) as [? Hr].
      split; [simpl; rewrite length_alter; lia|]. rewrite Hrefs.
      destruct Hr; [left; apply elem_of_app; by left|by right]. }
    intros k0. specialize (Hkeys k0). rewrite Hvals.
    destruct (same_value_zero k k0) eqn:E.
    + apply same_value_zero_spec in E as <-. rewrite Hget in Hkeys |- *.
      destruct Hkeys as (Hne & cs & Hcs & Harr).
      split; [by destruct (values_for k done)|].
      exists (cs ++ [c]). split.
      * apply Forall2_app; [|by repeat constructor].
        eapply Forall2_impl; [done|]. apply Hmono.
      * rewrite arr_push_eq by lia. rewrite Hother by (by eapply Hnotv).
        rewrite Harr, concat_app. simpl. by rewrite app_nil_r.
    + rewrite app_nil_r. destruct (map_get m k0) as [b0|] eqn:Hget0; [|done].
      destruct Hkeys as (Hne & cs & Hcs & Harr). split; [done|].
      pose proof (map_get_Some_elem _ _ _ Hget0) as Hin0.
      exists cs. split; [eapply Forall2_impl; [done|]; apply Hmono|].
      rewrite arr_push_ne.
      * rewrite Hother by (by eapply Hnotv). done.
      * intros ->. rewrite (NoDup_snd_inj _ _ _ _ Hnd Hin Hin0) in E.
        by rewrite same_value_zero_refl in E.
  - assert (k ∉ m.*1) as Hfresh by (by apply map_get_None_keys).
    assert (∀ k0, same_value_zero k k0 = false → map_get m k0 = None ∨
              ∃ b0, map_get m k0 = Some b0 ∧ (k0, b0) ∈ m) as Hcases.
    { intros k0 _. destruct (map_get m k0) as [b0|] eqn:Hget0; [|by left].
      right. exists b0. split; [done|]. by apply map_get_Some_elem. }
    destruct v as [r|a]; destruct Hm as [-> ->].
    + rewrite app_nil_r in Hrefs.
      split; [done|]. split; [simpl; rewrite length_app; simpl; lia|].
      split.
      { intros a Halt Hnotin. rewrite arr_new_arr_ne by lia. by apply Hkeep1. }
      split.
      { rewrite map_set_fresh, fmap_app by done. apply NoDup_app. split; [done|].
        split; [|apply NoDup_singleton].
        intros a ([k0 a0] & Heq & Hin)%list_elem_of_fmap Hin2. simpl in Heq, Hin2.
        apply list_elem_of_singleton in Hin2. subst.
        destruct (Hrange _ _ Hin) as [? _]. lia. }
      split.
      { intros k0 a [Hin|[= -> ->]]%elem_of_map_set.
        - destruct (Hrange _ _ Hin) as [? Hr].
          split; [simpl; rewrite length_app; simpl; lia|]. by rewrite Hrefs.
        - split; [simpl; rewrite length_app; simpl; lia|]. right. lia. }
      intros k0. specialize (Hkeys k0). rewrite Hvals.
      destruct (same_value_zero k k0) eqn:E.
      * apply same_value_zero_spec in E as <-. rewrite Hget in Hkeys.
        rewrite map_get_set_eq, Hkeys. split; [done|].
        exists [c]. split; [by repeat constructor|].
        rewrite arr_new_arr_eq. simpl. by rewrite app_nil_r.
      * rewrite app_nil_r, map_get_set_ne
          by (intros ->; by rewrite same_value_zero_refl in E).
        destruct (map_get m k0) as [b0|] eqn:Hget0; [|done].
        destruct Hkeys as (Hne & cs & Hcs & Harr). split; [done|].
        pose proof (map_get_Some_elem _ _ _ Hget0) as Hin0.
        destruct (Hrange _ _ Hin0) as [? _].
        exists cs. split; [eapply Forall2_impl; [done|]; apply Hmono|].
        rewrite arr_new_arr_ne by lia. by rewrite Hother.
    + destruct (Hv a eq_refl) as [Halt Hanotin].
      split; [done|]. split; [lia|]. split; [done|].
      split.
      { rewrite map_set_fresh, fmap_app by done. apply NoDup_app. split; [done|].
        split; [|apply NoDup_singleton].
        intros a' ([k0 a0] & Heq & Hin)%list_elem_of_fmap Hin2. simpl in Heq, Hin2.
        apply list_elem_of_singleton in Hin2. subst.
        by apply (Hnotv _ _ Hin). }
      split.
      { intros k0 a' [Hin|[= -> ->]]%elem_of_map_set.
        - destruct (Hrange _ _ Hin) as [? Hr]. split; [lia|]. rewrite Hrefs.
          destruct Hr; [left; apply elem_of_app; by left|by right].
        - split; [lia|]. left. rewrite Hrefs. apply elem_of_app. right. by left. }
      intros k0. specialize (Hkeys k0). rewrite Hvals.
      destruct (same_value_zero k k0) eqn:E.
      * apply same_value_zero_spec in E as <-. rewrite Hget in Hkeys.
        rewrite map_get_set_eq, Hkeys. split; [done|].
        exists [c]. split; [by repeat constructor|].
        rewrite (Hthis a eq_refl). simpl. by rewrite app_nil_r.
      * rewrite app_nil_r, map_get_set_ne
          by (intros ->; by rewrite same_value_zero_refl in E).
        destruct (map_get m k0) as [b0|] eqn:Hget0; [|done].
        destruct Hkeys as (Hne & cs & Hcs & Harr). split; [done|].
        pose proof (map_get_Some_elem _ _ _ Hget0) as Hin0.
        exists cs. split; [eapply Forall2_impl; [done|]; apply Hmono|].
        rewrite Hother by (by eapply Hnotv). done.
Qed.

Lemma merge_loop_inv Item h0 rest : ∀ done h m h' m',
  NoDup (seq_refs (done ++ rest)) →
  (∀ a, a ∈ seq_refs rest → a < length (arrs h0)) →
  (∀ k v, (k, v) ∈ rest → Forall (closed_item h0) (elements h0 v)) →
  merge_inv Item h0 done h m →
  merge_loop Item rest h m = Ok (h', m') →
  merge_inv Item h0 (done ++ rest) h' m'.
Proof.
  induction rest as [|[k v] rest IH]; intros done h m h' m' Hnd Hvalid Hcl Hinv;
    simpl.
  - intros [= <- <-]. by rewrite app_nil_r.
  - destruct (merge_step Item (k, v) h m) as [[h1 m1]|e] eqn:Hstep; simpl; [|done].
    intros Hloop.
    rewrite cons_middle, app_assoc in Hnd |- *.
    apply (IH _ _ _ _ _ Hnd) in Hloop; [done| | |].
    + intros a Ha. apply Hvalid. destruct v; simpl; [done|by right].
    + intros k0 v0 Hin. apply (Hcl k0). by right.
    + eapply merge_step_inv; [done| | |done].
      * intros a ->. split; [apply Hvalid; by left|].
        rewrite !seq_refs_app in Hnd. simpl in Hnd.
        apply NoDup_app in Hnd as [Hnd _].
        apply NoDup_app in Hnd as (_ & Hdisj & _).
        intros Hin. apply (Hdisj a Hin). by left.
      * apply (Hcl k). by left.
Qed.

Example shared_array_run :
  merge_loop None shared_mapItems shared_store []
  = Ok (Store [[IPrim (PStr "a"); IPrim (PStr "x")]] [],
        [(VPrim (PNum 1), 0); (VPrim (PNum 2), 0)]).
Proof. reflexivity. Qed.

Lemma loadFromDatabase_merged cfg now h0 rows c c' mapItems h :
  map_rows cfg rows h0 = Ok (mapItems, h) →
  loadFromDatabase cfg now (QRows h0 rows) c = Ok c' →
  (rows = [] ∧ mapItems = [] ∧ data c' = [])
  ∨ merge_loop (itemClass cfg) mapItems h [] = Ok (mem c', data c').
Proof.
  intros Hmap. unfold loadFromDatabase. simpl. case_bool_decide as Hlen.
  - destruct rows; [|done]. unfold map_rows in Hmap.
    assert (mapItems = []) as ->
      by (destruct (parseDataMultiRow cfg); simpl in Hmap; by simplify_eq).
    unfold setData. simpl. intros [= <-]. by left.
  - rewrite Hmap. simpl.
    destruct (merge_loop (itemClass cfg) mapItems h []) as [[h2 m]|e]; simpl; [|done].
    unfold setData. simpl. intros [= <-]. by right.
Qed.

Example shared_array_cycle :
  map_rows sharing_cfg [IPrim (PStr "a")] empty_store = Ok (shared_mapItems, shared_store)
  ∧ ∃ c', loadFromDatabase sharing_cfg 1 (QRows empty_store [IPrim (PStr "a")]) new_cache
          = Ok c'
          ∧ map_get (data c') (VPrim (PNum 2)) = Some 0
          ∧ arr (mem c') 0 = [IPrim (PStr "a"); IPrim (PStr "x")].
Proof. split; [reflexivity|]. eexists. by repeat split. Qed.

(** The claim of C4 fails when a mapper returns one array object for two
    keys (a multi-row mapper that files the array it has built for a row
    under two keys, say): the array becomes the list of both, and a
    record another pair appends for the first key shows under the second,
    which no pair contributed it to. *)
Lemma shared_array_mixes_keys :
  ¬ (∀ (cfg : config) (now : nat) (h0 : store) (rows : list item) (c c' : cache)
       (mapItems : list mapItem) (h : store),
       map_rows cfg rows h0 = Ok (mapItems, h) →
       loadFromDatabase cfg now (QRows h0 rows) c = Ok c' →
       ∀ k a, scalar_key k → map_get (data c') k = Some a →
              ∃ cs, Forall2 (contribution (itemClass cfg) h (mem c'))
                            (values_for k mapItems) cs
                    ∧ arr (mem c') a = concat cs).
Proof.
  intros H.
  destruct (H sharing_cfg 1 empty_store [IPrim (PStr "a")] new_cache _
              shared_mapItems shared_store eq_refl eq_refl
              (VPrim (PNum 2)) 0 I eq_refl) as (cs & Hcs & Harr).
  vm_compute in Hcs.
  apply Forall2_cons_inv_l in Hcs as (c & cs' & -> & ->%Forall2_nil_inv_l & ->).
  vm_compute in Harr. discriminate.
Qed.

(** C4, as the code has it. When the arrays the mapper returned are
    distinct objects (no array is the value of two pairs), the cycle
    appends and never overwrites: the list of every key of the new Index
    is the concatenation, in the order of the mapper's output, of what the
    pairs of that key contribute, a scalar value one record and an array
    value all its elements; a key no pair has is absent. *)
Theorem merge_concatenates (cfg : config) (now : nat) (h0 : store)
    (rows : list item) (c c' : cache) (mapItems : list mapItem) (h : store) :
  map_rows cfg rows h0 = Ok (mapItems, h) →
  NoDup (seq_refs mapItems) →
  (∀ a, a ∈ seq_refs mapItems → a < length (arrs h)) →
  (∀ k v, (k, v) ∈ mapItems → Forall (closed_item h) (elements h v)) →
  loadFromDatabase cfg now (QRows h0 rows) c = Ok c' →
  ∀ k, scalar_key k →
    match map_get (data c') k with
    | None => ∀ v, (k, v) ∉ mapItems
    | Some a =>
        values_for k mapItems ≠ []
        ∧ ∃ cs, Forall2 (contribution (itemClass cfg) h (mem c'))
                        (values_for k mapItems) cs
                ∧ arr (mem c') a = concat cs
    end.
Proof.
  intros Hmap Hnd Hvalid Hcl Hload k _.
  destruct (loadFromDatabase_merged _ _ _ _ _ _ _ _ Hmap Hload)
    as [(_ & -> & ->)|Hloop].
  - simpl. intros v Hin. by apply not_elem_of_nil in Hin.
  - pose proof (merge_loop_inv (itemClass cfg) h mapItems [] h [] _ _ Hnd Hvalid Hcl
                  (merge_inv_nil _ h) Hloop) as (_ & _ & _ & _ & _ & Hkeys).
    specialize (Hkeys k). simpl in Hkeys.
    destruct (map_get (data c') k) as [a|]; [done|]. by apply values_for_nil_iff.
Qed.

(** ** The statements at concrete inputs *)

Lemma absent_key_lookups_witness :
  map_get (data test_cache) (VPrim (PNum 150)) = None
  ∧ lookup (VPrim (PNum 150)) test_cache = Ok []
  ∧ lookupFirst (VPrim (PNum 150)) test_cache = Ok (VPrim PNull).
Proof.
  split; [reflexivity|].
  destruct (absent_key_lookups (VPrim (PNum 150)) test_cache eq_refl)
    as [(a & h & _ & _ & Hlookup) [_ Hfirst]].
  split; [exact Hlookup|exact Hfirst].
Defined.

Lemma test_cache_closed : closed_index (mem test_cache) (data test_cache).
Proof.
  intros k a Hin. apply list_elem_of_singleton in Hin as [= -> ->].
  split; [simpl; lia|]. intros r Hr.
  change (arr (mem test_cache) 0) with [IObj 2; IObj 3] in Hr.
  apply elem_of_cons in Hr as [->|Hr]; [simpl; lia|].
  apply list_elem_of_singleton in Hr as ->. simpl. lia.
Defined.

Lemma reads_isolated_witness :
  closed_index (mem test_cache) (data test_cache)
  ∧ ∃ h1, getFirstValue (VPrim (PNum 7)) test_cache = Ok (IObj 4, h1)
          ∧ lookup (VPrim (PNum 7))
                   (with_mem (mutate_obj 4 (VPrim PNull) h1) test_cache)
            = lookup (VPrim (PNum 7)) test_cache.
Proof.
  split; [exact test_cache_closed|].
  eexists. split; [reflexivity|].
  destruct (proj2 (reads_isolated test_cache _ 4 (VPrim PNull)
                     test_cache_closed
                     (or_intror (or_introl (ex_intro _ (VPrim (PNum 7)) eq_refl))))
              (VPrim (PNum 7))) as [[Hwrite Hread] _].
  exact (eq_trans Hwrite Hread).
Defined.

Lemma test_snapshot_stable (k : value) (js : list value) (j : value) :
  (k, js) ∈ test_snapshot → j ∈ js →
  ∃ d, TestRow j = Ok d ∧ json_clone d = Ok j.
Proof.
  intros Hin Hj. apply list_elem_of_singleton in Hin as [= -> ->].
  apply elem_of_cons in Hj as [->|Hj]; [by eexists|].
  apply list_elem_of_singleton in Hj as ->. by eexists.
Defined.

Lemma snapshot_round_trip_witness :
  saveToFile None test_cache = Ok test_snapshot
  ∧ NoDup test_snapshot.*1
  ∧ lookupAll (loadCacheFromFile test_cfg 2 (ReadOk (FileJson test_snapshot)) new_cache)
    = lookupAll test_cache.
Proof.
  split; [reflexivity|]. split; [apply NoDup_singleton|].
  exact (snapshot_round_trip test_cfg TestRow test_cache new_cache test_snapshot 2
           eq_refl eq_refl (NoDup_singleton _) test_snapshot_stable).
Defined.

Lemma example_mapItems_closed (k : value) (v : mvalue) :
  (k, v) ∈ example_mapItems → Forall (closed_item example_store) (elements example_store v).
Proof.
  intros Hin. unfold example_mapItems in Hin.
  repeat (apply elem_of_cons in Hin as [Heq|Hin];
          [simplify_eq; repeat constructor; simpl; lia|]).
  by apply not_elem_of_nil in Hin.
Defined.

Lemma example_mapItems_valid (a : nat) :
  a ∈ seq_refs example_mapItems → a < length (arrs example_store).
Proof.
  simpl. intros Hin.
  repeat (apply elem_of_cons in Hin as [->|Hin]; [lia|]).
  by apply not_elem_of_nil in Hin.
Defined.

Lemma example_mapItems_NoDup : NoDup (seq_refs example_mapItems).
Proof.
  simpl. apply NoDup_cons. split; [|apply NoDup_singleton].
  intros Hin%list_elem_of_singleton. discriminate.
Defined.

Lemma merge_concatenates_witness :
  map_rows example_cfg [IObj 0] example_rows_store = Ok (example_mapItems, example_store)
  ∧ NoDup (seq_refs example_mapItems)
  ∧ scalar_key (VPrim (PNum 1))
  ∧ ∃ c',
      loadFromDatabase example_cfg 1 (QRows example_rows_store [IObj 0]) new_cache = Ok c'
      ∧ map_get (data c') (VPrim (PNum 1)) = Some 0
      ∧ ∃ cs, Forall2 (contribution (Some wrap) example_store (mem c'))
                      [Seq 0; Scalar (IObj 2)] cs
              ∧ arr (mem c') 0 = concat cs.
Proof.
  split; [reflexivity|]. split; [exact example_mapItems_NoDup|]. split; [exact I|].
  eexists. split; [vm_compute; reflexivity|]. split; [reflexivity|].
  exact (proj2 (merge_concatenates example_cfg 1 example_rows_store [IObj 0] new_cache _
                  example_mapItems example_store eq_refl
                  example_mapItems_NoDup example_mapItems_valid
                  example_mapItems_closed eq_refl (VPrim (PNum 1)) I)).
Defined.

(** ** JSON texts are fixed points of the JSON round trip *)

Lemma json_clone_arr es : json_clone (VArr es) = VArr <$> mapM json_clone es.
Proof. reflexivity. Qed.

Lemma json_clone_obj fs : json_clone (VObj fs) = VObj <$> json_fields json_clone fs.
Proof. reflexivity. Qed.

Lemma json_fields_cons f k v fs :
  v ≠ VPrim PUndefined →
  json_fields f ((k, v) :: fs) = j ← f v; js ← json_fields f fs; Ok ((k, j) :: js).
Proof. by destruct v as [[]|?|?]. Qed.

Lemma json_fields_cons_undefined f k fs :
  json_fields f ((k, VPrim PUndefined) :: fs) = json_fields f fs.
Proof. reflexivity. Qed.

Lemma json_clone_not_undefined d j : json_clone d = Ok j → j ≠ VPrim PUndefined.
Proof.
  destruct d as [p|es|fs].
  - destruct p; simpl; by intros [= <-].
  - rewrite json_clone_arr. destruct (mapM json_clone es); simpl; by intros [= <-].
  - rewrite json_clone_obj. destruct (json_fields json_clone fs); simpl;
      by intros [= <-].
Qed.

Lemma json_clone_idem d : ∀ j, json_clone d = Ok j → json_clone j = Ok j.
Proof.
  induction d as [p|es IH|fs IH] using value_ind'; intros j.
  - destruct p; simpl; by intros [= <-].
  - rewrite json_clone_arr.
    destruct (mapM json_clone es) as [js|e] eqn:Hm; simpl; [|done].
    intros [= <-]. rewrite json_clone_arr.
    assert (mapM json_clone js = Ok js) as ->; [|done].
    apply mapM_result_Forall2 in Hm. apply mapM_result_Forall2.
    revert IH. induction Hm as [|e j es js Hej _ IHm]; intros HF; [constructor|].
    apply Forall_cons in HF as [He HF]. constructor; [by apply He|by apply IHm].
  - rewrite json_clone_obj.
    destruct (json_fields json_clone fs) as [js|e] eqn:Hf; simpl; [|done].
    intros [= <-]. rewrite json_clone_obj.
    assert (json_fields json_clone js = Ok js) as ->; [|done].
    revert js Hf. induction IH as [|[k v] fs Hv _ IHfs]; intros js.
    + by intros [= <-].
    + simpl in Hv.
      assert (v = VPrim PUndefined ∨ v ≠ VPrim PUndefined) as [->|Hne]
        by (destruct v as [[]|?|?]; (by left) || (by right)).
      * rewrite json_fields_cons_undefined. apply IHfs.
      * rewrite json_fields_cons by done.
        destruct (json_clone v) as [j|e] eqn:Hj; simpl; [|done].
        destruct (json_fields json_clone fs) as [js'|e] eqn:Hfs; simpl; [|done].
        intros [= <-].
        rewrite json_fields_cons by (by eapply json_clone_not_undefined).
        rewrite (Hv j eq_refl). simpl. by rewrite (IHfs js' eq_refl).
Qed.

(** ** The round trip with the constructor of the tests *)

Lemma stringify_data_elem h m s k js :
  stringify_data h m = Ok s → (k, js) ∈ s →
  ∃ k0 a, (k0, a) ∈ m ∧ stringify_items h (arr h a) = Ok js.
Proof.
  unfold stringify_data. intros Hs%mapM_result_Forall2 [i Hi]%list_elem_of_lookup.
  destruct (Forall2_lookup_r _ _ _ _ _ Hs Hi) as ([k0 a] & Hm & Hka).
  exists k0, a. split; [by eapply list_elem_of_lookup_2|]. simpl in Hka.
  destruct (json_clone k0); simpl in Hka; [|done].
  destruct (stringify_items h (arr h a)); simpl in Hka; [|done]. by simplify_eq.
Qed.

Lemma stringify_items_elem h items js j :
  stringify_items h items = Ok js → j ∈ js →
  ∃ r, r ∈ items ∧ json_clone (view h r) = Ok j.
Proof.
  unfold stringify_items. intros Hs%mapM_result_Forall2 [i Hi]%list_elem_of_lookup.
  destruct (Forall2_lookup_r _ _ _ _ _ Hs Hi) as (r & Hr & Hj).
  exists r. split; [by eapply list_elem_of_lookup_2|done].
Qed.

Lemma TestRow_object x d : TestRow x = Ok d → ∃ fs, d = VObj fs.
Proof. destruct x as [[]|es|fs]; simpl; intros [= <-]; by eexists. Qed.

(** [Object.assign] returns the serialized record it is given, so
    [TestRow] is stable on what [saveToFile] writes for an Index whose
    records it made. *)
Lemma TestRow_stable (c : cache) (s : snapshot) :
  all_constructed TestRow (mem c) (data c) →
  saveToFile None c = Ok s →
  stable_on (Some TestRow) s.
Proof.
  intros Hall Hsave k js j Hin Hj. unfold saveToFile in Hsave.
  destruct (stringify_data (mem c) (data c)) as [s'|e] eqn:Hs; simpl in Hsave; [|done].
  injection Hsave as ->.
  destruct (stringify_data_elem _ _ _ _ _ Hs Hin) as (k0 & a & Hka & Hjs).
  destruct (stringify_items_elem _ _ _ _ Hjs Hj) as (r & Hr & Hrj).
  destruct (Hall k0 a r Hka Hr) as (o & x & d & -> & Ho & Hx).
  apply TestRow_object in Hx as [fs ->]. simpl in Hrj. rewrite Ho in Hrj.
  change (json_clone (VObj fs) = Ok j) in Hrj.
  pose proof (json_clone_idem _ _ Hrj) as Hidem.
  rewrite json_clone_obj in Hrj.
  destruct (json_fields json_clone fs) as [fs'|e]; simpl in Hrj; [|done].
  injection Hrj as <-. by exists (VObj fs').
Qed.

Lemma serialized_keys_collapse :
  ∃ s, saveToFile None null_keys_cache = Ok s
       ∧ lookupAll (loadCacheFromFile test_cfg 2 (ReadOk (FileJson s)) new_cache)
         ≠ lookupAll null_keys_cache.
Proof. eexists. split; [reflexivity|]. vm_compute. discriminate. Qed.

(** ** The Index names arrays and objects that exist *)

Lemma closed_store_empty : closed_store empty_store.
Proof. intros a. rewrite arr_dangling by (simpl; lia). constructor. Qed.

Lemma Forall_closed_prefix h h' l :
  objs h `prefix_of` objs h' →
  Forall (closed_item h) l → Forall (closed_item h') l.
Proof.
  intros Hpre Hl. eapply Forall_impl; [done|]. intros r. by apply closed_item_prefix.
Qed.

Lemma constructs_closed Item v h h1 c :
  closed_store h →
  (∀ r, v = Scalar r → closed_item h r) →
  constructs Item v h h1 c →
  closed_store h1 ∧ Forall (closed_item h1) c.
Proof.
  intros Hcl Hv Hc.
  pose proof (constructs_prefix _ _ _ _ _ Hc) as Hpre.
  destruct Hc as (_ & Hother & Hthis & HItem).
  assert (Forall (closed_item h1) c) as Hcc.
  { destruct Item as [cls|].
    - destruct HItem as (ds & Hobjs & -> & _).
      apply Forall_forall. intros r (o & -> & Ho)%list_elem_of_fmap.
      apply elem_of_seq in Ho. simpl. rewrite Hobjs, length_app. lia.
    - destruct HItem as [-> ->]. destruct v as [r|a]; simpl.
      + constructor; [by apply Hv|constructor].
      + apply Hcl. }
  split; [|done]. intros b. destruct (decide (v = Seq b)) as [->|Hne].
  - by rewrite (Hthis b eq_refl).
  - rewrite Hother by done. by eapply Forall_closed_prefix.
Qed.

Lemma merges_closed k v c h1 m h' m' :
  closed_store h1 → Forall (closed_item h1) c →
  (∀ a, v = Seq a → a < length (arrs h1)) →
  (∀ k a, (k, a) ∈ m → a < length (arrs h1)) →
  merges k v c h1 m h' m' →
  closed_store h' ∧ (∀ k a, (k, a) ∈ m' → a < length (arrs h'))
  ∧ length (arrs h1) ≤ length (arrs h').
Proof.
  intros Hcl Hc Hv Hm. unfold merges. destruct (map_get m k) as [b|].
  - intros [-> ->]. split; [|split].
    + intros a. destruct (decide (a = b)) as [->|Hne].
      * destruct (decide (b < length (arrs h1))).
        -- rewrite arr_push_eq by done. apply Forall_app. split; [apply Hcl|done].
        -- rewrite arr_push_dangling by lia. constructor.
      * rewrite arr_push_ne by done. apply Hcl.
    + intros k0 a Hin. simpl. rewrite length_alter. by eapply Hm.
    + simpl. by rewrite length_alter.
  - destruct v as [r|a]; intros [-> ->].
    + split; [|split].
      * intros a. destruct (decide (a = length (arrs h1))) as [->|Hne].
        -- by rewrite arr_new_arr_eq.
        -- rewrite arr_new_arr_ne by done. apply Hcl.
      * intros k0 a [Hin|[= -> ->]]%elem_of_map_set; simpl; rewrite length_app;
          simpl; [|lia]. specialize (Hm _ _ Hin). lia.
      * simpl. rewrite length_app. lia.
    + split; [done|]. split; [|done].
      intros k0 a' [Hin|[= -> ->]]%elem_of_map_set; [by eapply Hm|by apply Hv].
Qed.

Lemma merge_loop_closed Item mapItems : ∀ h m h' m',
  closed_store h → closed_mapItems h mapItems →
  (∀ k a, (k, a) ∈ m → a < length (arrs h)) →
  merge_loop Item mapItems h m = Ok (h', m') →
  closed_store h' ∧ ∀ k a, (k, a) ∈ m' → a < length (arrs h').
Proof.
  induction mapItems as [|[k v] mapItems IH]; intros h m h' m' Hcl Hitems Hm; simpl.
  - by intros [= <- <-].
  - destruct (merge_step Item (k, v) h m) as [[h2 m2]|e] eqn:Hstep; simpl; [|done].
    apply merge_step_Ok in Hstep as (h1 & c & Hc & Hmerge).
    pose proof (constructs_prefix _ _ _ _ _ Hc) as Hpre.
    pose proof Hc as (Hlen & _).
    pose proof (Hitems k v ltac:(by left)) as Hv.
    assert (∀ r, v = Scalar r → closed_item h r) as Hscalar by (by intros r ->).
    destruct (constructs_closed _ _ _ _ _ Hcl Hscalar Hc) as [Hcl1 Hcc].
    assert (∀ a, v = Seq a → a < length (arrs h1)) as Hseq
      by (intros a ->; by rewrite Hlen).
    assert (∀ k a, (k, a) ∈ m → a < length (arrs h1)) as Hm1
      by (intros k0 a Hin; rewrite Hlen; by eapply Hm).
    destruct (merges_closed _ _ _ _ _ _ _ Hcl1 Hcc Hseq Hm1 Hmerge)
      as (Hcl2 & Hm2 & Hlen2).
    apply IH; [done| |done].
    intros k0 v0 Hin. specialize (Hitems k0 v0 ltac:(by right)).
    pose proof (merges_objs _ _ _ _ _ _ _ Hmerge) as Hobjs.
    destruct v0 as [r|a].
    + eapply closed_item_prefix; [|done]. by rewrite Hobjs.
    + lia.
Qed.

Lemma closed_index_intro h m :
  closed_store h → (∀ k a, (k, a) ∈ m → a < length (arrs h)) → closed_index h m.
Proof.
  intros Hcl Hm k a Hin. split; [by eapply Hm|].
  intros r Hr. specialize (Hcl a). rewrite Forall_forall in Hcl. by apply Hcl.
Qed.

Lemma parse_snapshot_closed s entries h0 :
  parse_snapshot s empty_store = (entries, h0) →
  closed_store h0 ∧ ∀ k a, (k, a) ∈ entries → a < length (arrs h0).
Proof.
  intros (news & Harrs & _ & -> & Hall)%parse_snapshot_spec. simpl in *.
  pose proof (Forall2_length _ _ _ Hall) as Hlen. split.
  - intros a. unfold arr. rewrite Harrs.
    destruct (news !! a) as [rs|] eqn:Hrs; [|constructor]. simpl.
    destruct (Forall2_lookup_l _ _ _ _ _ Hall Hrs) as (se & _ & _ & Hcl). done.
  - intros k a [i Hi]%list_elem_of_lookup.
    apply lookup_zip_with_Some in Hi as (k' & a' & [= <- <-] & _ & Ha).
    apply lookup_seq in Ha as [-> Hlt]. rewrite Harrs. lia.
Qed.

Lemma construct_entries_closed cls entries : ∀ h h',
  closed_store h →
  construct_entries cls entries h = Ok h' →
  closed_store h' ∧ length (arrs h') = length (arrs h).
Proof.
  induction entries as [|[k a] entries IH]; intros h h' Hcl; simpl.
  - by intros [= <-].
  - destruct (construct_array cls a h) as [h1|e] eqn:Hc; simpl; [|done].
    apply construct_array_Ok in Hc. pose proof Hc as (Hlen & _).
    assert (∀ r, Seq a = Scalar r → closed_item h r) as Hscalar by done.
    destruct (constructs_closed _ _ _ _ _ Hcl Hscalar Hc) as [Hcl1 _].
    intros [Hcl' Hlen']%IH; [|done]. split; [done|]. by rewrite Hlen'.
Qed.

Lemma setData_index_closed cfg md h m :
  match md with
  | MMap h0 m0 => closed_index h0 m0
  | MArray h0 entries =>
      closed_store h0 ∧ ∀ k a, (k, a) ∈ entries → a < length (arrs h0)
  | _ => True
  end →
  setData_index cfg md = Ok (h, m) →
  closed_index h m.
Proof.
  destruct md as [|h0 m0| |h0 entries]; simpl.
  - intros _ [= <- <-]. by intros k a ?%not_elem_of_nil.
  - by intros ? [= <- <-].
  - intros _. destruct (itemClass cfg); [done|]. intros [= <- <-].
    by intros k a ?%not_elem_of_nil.
  - intros [Hcl Hvalid].
    destruct (itemClass cfg) as [cls|]; simpl.
    + destruct (construct_entries cls entries h0) as [h1|e] eqn:Hc; simpl; [|done].
      intros [= <- <-].
      apply construct_entries_closed in Hc as [Hcl1 Hlen]; [|done].
      apply closed_index_intro; [done|].
      intros k a Hin%elem_of_new_Map. rewrite Hlen. by eapply Hvalid.
    + intros [= <- <-]. apply closed_index_intro; [done|].
      intros k a Hin%elem_of_new_Map. by eapply Hvalid.
Qed.

Lemma loadFromDatabase_closed cfg now q c c' :
  well_formed_query cfg q →
  loadFromDatabase cfg now q c = Ok c' →
  closed_index (mem c') (data c').
Proof.
  intros Hq. unfold loadFromDatabase.
  destruct q as [e| |h rows]; simpl; [done|done|].
  case_bool_decide.
  - intros Hs%setData_index_Ok. by eapply (setData_index_closed _ MUndefined).
  - destruct (map_rows cfg rows h) as [[mapItems h1]|e] eqn:Hmap; simpl; [|done].
    destruct (merge_loop (itemClass cfg) mapItems h1 []) as [[h2 m]|e] eqn:Hm;
      simpl; [|done].
    intros Hs%setData_index_Ok.
    eapply (setData_index_closed _ (MMap h2 m)); [|done].
    destruct (Hq _ _ Hmap) as [Hcl Hitems].
    assert (∀ (k : value) (a : nat), (k, a) ∈ @nil (value * nat) →
                                     a < length (arrs h1)) as Hnil
      by (by intros k a ?%not_elem_of_nil).
    destruct (merge_loop_closed _ _ _ _ _ _ Hcl Hitems Hnil Hm) as [Hcl2 Hm2].
    by apply closed_index_intro.
Qed.

Lemma step_closed cfg c ev :
  well_formed_completion cfg ev →
  closed_index (mem c) (data c) →
  closed_index (mem (step cfg c ev)) (data (step cfg c ev)).
Proof.
  intros Hev Hinv. destruct ev as [now q wr|now r]; simpl in *.
  - unfold loadFromDatabaseAndSaveToFile.
    destruct (loadFromDatabase cfg now q c) as [c1|e] eqn:Hl; [|done].
    apply (loadFromDatabase_closed _ _ _ _ _ Hev) in Hl.
    destruct (shouldSaveToFile cfg); [|done].
    by destruct (saveToFile wr c1).
  - destruct (shouldSaveToFile cfg); [|done].
    unfold loadCacheFromFile, file_catch.
    destruct r as [e|f]; [by case_bool_decide|].
    destruct (parse_file f) as [md|e] eqn:Hf; [|by case_bool_decide].
    destruct (setData cfg FromFile md now c) as [c1|e] eqn:Hs;
      [|by case_bool_decide].
    apply setData_index_Ok in Hs.
    assert (closed_index (mem c1) (data c1)) as Hinv1.
    { eapply setData_index_closed; [|done].
      destruct f as [| |s]; simpl in Hf; [by simplify_eq..|].
      destruct (parse_snapshot s empty_store) as [entries h0] eqn:Hp.
      simplify_eq. by apply parse_snapshot_closed in Hp. }
    destruct (mapData_length md); [done|by case_bool_decide].
Qed.

(** Every Index the cache reaches names arrays and objects that exist,
    when the rows and the mapper outputs do. *)
Lemma reachable_index_closed (cfg : config) (evs : list completion) :
  Forall (well_formed_completion cfg) evs →
  closed_index (mem (run cfg evs new_cache)) (data (run cfg evs new_cache)).
Proof.
  unfold run.
  assert (∀ c, Forall (well_formed_completion cfg) evs →
               closed_index (mem c) (data c) →
               closed_index (mem (foldl (step cfg) c evs))
                            (data (foldl (step cfg) c evs))) as Hgen.
  { induction evs as [|ev evs IH]; intros c Hevs Hc; simpl; [done|].
    apply Forall_cons in Hevs as [Hev Hevs].
    apply IH; [done|]. by apply step_closed. }
  intros Hevs. apply Hgen; [done|]. by intros k a ?%not_elem_of_nil.
Qed.

(** ** The keys of the Index are distinct *)

Lemma map_set_keys m k a :
  (k ∈ (m.*1) ∧ (map_set m k a).*1 = m.*1)
  ∨ ((k ∉ m.*1) ∧ (map_set m k a).*1 = m.*1 ++ [k]).
Proof.
  induction m as [|[k' a'] m IH]; [right; split; [apply not_elem_of_nil|done]|].
  simpl. destruct (same_value_zero k' k) eqn:Heq.
  - apply same_value_zero_spec in Heq as ->. left. split; [by left|done].
  - assert (k' ≠ k) as Hne.
    { intros ->. by rewrite same_value_zero_refl in Heq. }
    rewrite !fmap_cons. simpl. destruct IH as [[Hin ->]|[Hnotin ->]].
    + left. split; [by right|done].
    + right. split; [|done]. by intros [?|?]%elem_of_cons.
Qed.

Lemma map_set_keys_NoDup m k a : NoDup m.*1 → NoDup (map_set m k a).*1.
Proof.
  intros Hnd. destruct (map_set_keys m k a) as [[_ ->]|[Hnotin ->]]; [done|].
  apply NoDup_app. split; [done|]. split; [|apply NoDup_singleton].
  by intros x Hx ->%list_elem_of_singleton.
Qed.

Lemma new_Map_keys_NoDup entries : NoDup (new_Map entries).*1.
Proof.
  unfold new_Map.
  assert (∀ m : jsmap, NoDup m.*1 →
            NoDup (foldl (λ m e, map_set m e.1 e.2) m entries).*1) as Hgen.
  { induction entries as [|e entries IH]; intros m Hm; simpl; [done|].
    by apply IH, map_set_keys_NoDup. }
  apply Hgen. constructor.
Qed.

Lemma merge_step_keys_NoDup Item it h m h' m' :
  merge_step Item it h m = Ok (h', m') → NoDup m.*1 → NoDup m'.*1.
Proof.
  destruct it as [k v]. intros (h1 & c & _ & Hm)%merge_step_Ok Hnd.
  unfold merges in Hm. destruct (map_get m k).
  - by destruct Hm as [-> _].
  - destruct v; destruct Hm as [_ ->]; by apply map_set_keys_NoDup.
Qed.

Lemma merge_loop_keys_NoDup Item mapItems : ∀ h m h' m',
  merge_loop Item mapItems h m = Ok (h', m') → NoDup m.*1 → NoDup m'.*1.
Proof.
  induction mapItems as [|it mapItems IH]; intros h m h' m'; simpl.
  - by intros [= <- <-].
  - destruct (merge_step Item it h m) as [[h1 m1]|e] eqn:Hstep; simpl; [|done].
    intros Hloop Hnd. eapply IH; [done|]. by eapply merge_step_keys_NoDup.
Qed.

Lemma setData_index_keys_NoDup cfg md h m :
  match md with MMap _ m0 => NoDup m0.*1 | _ => True end →
  setData_index cfg md = Ok (h, m) → NoDup m.*1.
Proof.
  destruct md as [|h0 m0| |h0 entries]; simpl; intros Hmd.
  - intros [= <- <-]. constructor.
  - by intros [= <- <-].
  - destruct (itemClass cfg); [done|]. intros [= <- <-]. constructor.
  - destruct (match itemClass cfg with
              | Some cls => construct_entries cls entries h0
              | None => Ok h0
              end); simpl; [|done].
    intros [= <- <-]. apply new_Map_keys_NoDup.
Qed.

Lemma loadFromDatabase_keys_NoDup cfg now q c c' :
  loadFromDatabase cfg now q c = Ok c' → NoDup (data c').*1.
Proof.
  unfold loadFromDatabase.
  destruct (queryDatabase q) as [[[h rows]|]|e]; simpl; [| |done].
  - case_bool_decide.
    + intros Hs%setData_index_Ok. by eapply (setData_index_keys_NoDup _ MUndefined).
    + destruct (map_rows cfg rows h) as [[mapItems h1]|e]; simpl; [|done].
      destruct (merge_loop (itemClass cfg) mapItems h1 []) as [[h2 m]|e] eqn:Hm;
        simpl; [|done].
      intros Hs%setData_index_Ok.
      eapply (setData_index_keys_NoDup _ (MMap h2 m)); [|done].
      eapply merge_loop_keys_NoDup; [done|]. constructor.
  - intros Hs%setData_index_Ok. by eapply (setData_index_keys_NoDup _ MUndefined).
Qed.

Lemma step_keys_NoDup cfg c ev :
  NoDup (data c).*1 → NoDup (data (step cfg c ev)).*1.
Proof.
  intros Hinv. destruct ev as [now q wr|now r]; simpl.
  - unfold loadFromDatabaseAndSaveToFile.
    destruct (loadFromDatabase cfg now q c) as [c1|e] eqn:Hl; [|done].
    apply loadFromDatabase_keys_NoDup in Hl.
    destruct (shouldSaveToFile cfg); [|done].
    by destruct (saveToFile wr c1).
  - destruct (shouldSaveToFile cfg); [|done].
    unfold loadCacheFromFile, file_catch.
    destruct r as [e|f]; [by case_bool_decide|].
    destruct (parse_file f) as [md|e] eqn:Hf; [|by case_bool_decide].
    destruct (setData cfg FromFile md now c) as [c1|e] eqn:Hs;
      [|by case_bool_decide].
    apply setData_index_Ok in Hs.
    assert (NoDup (data c1).*1) as Hinv1.
    { eapply setData_index_keys_NoDup; [|done].
      destruct f as [| |s]; simpl in Hf; [by simplify_eq..|].
      destruct (parse_snapshot s empty_store) as [entries h0]. by simplify_eq. }
    destruct (mapData_length md); [done|by case_bool_decide].
Qed.

Lemma run_keys_NoDup cfg evs c :
  NoDup (data c).*1 → NoDup (data (run cfg evs c)).*1.
Proof.
  unfold run. revert c. induction evs as [|ev evs IH]; intros c Hc; simpl; [done|].
  by apply IH, step_keys_NoDup.
Qed.

Lemma map_get_NoDup (m : jsmap) k a :
  NoDup m.*1 → (k, a) ∈ m → map_get m k = Some a.
Proof.
  induction m as [|[k' a'] m IH]; [by intros _ ?%not_elem_of_nil|].
  rewrite fmap_cons. simpl. intros [Hnotin Hnd]%NoDup_cons [Heq|Hin]%elem_of_cons.
  - injection Heq as <- <-. by rewrite same_value_zero_refl.
  - rewrite same_value_zero_ne; [by apply IH|].
    intros ->. apply Hnotin. apply list_elem_of_fmap. by exists (k, a).
Qed.

(** ** A key with an empty list *)

Example empty_sequence_run :
  merge_loop None [(VPrim (PNum 1), Seq 0)] (Store [[]] []) []
  = Ok (Store [[]] [], [(VPrim (PNum 1), 0)]).
Proof. reflexivity. Qed.

(** The claim of C2 fails: a mapper that returns an empty array for a key
    no other pair mentions leaves that key in the Index with an empty
    list. *)
Lemma empty_sequence_makes_empty_list :
  ¬ (∀ (Item : option ctor) (mapItems : list mapItem) (h h' : store) (m : jsmap),
       merge_loop Item mapItems h [] = Ok (h', m) →
       ∀ k a, (k, a) ∈ m → arr h' a ≠ []).
Proof.
  intros H.
  apply (H None [(VPrim (PNum 1), Seq 0)] (Store [[]] []) _ _ eq_refl
           (VPrim (PNum 1)) 0); [by left|done].
Qed.

(** C2, as the code has it. In the Index a cycle builds, a key has at
    least one record as soon as one pair of that key holds a record, that
    is, has a value that is not an array or an array that is not empty:
    the only keys with an empty list are those all of whose pairs have an
    empty array as their value.  A key no pair mentions is absent. *)
Theorem no_key_with_empty_list (Item : option ctor) (mapItems : list mapItem)
    (h h' : store) (m : jsmap) :
  (∀ a, a ∈ seq_refs mapItems → a < length (arrs h)) →
  merge_loop Item mapItems h [] = Ok (h', m) →
  ∀ k, scalar_key k →
    (∀ a v, (k, a) ∈ m → (k, v) ∈ mapItems → (∀ b, v = Seq b → arr h b ≠ []) →
            arr h' a ≠ [])
    ∧ ((∀ v, (k, v) ∉ mapItems) → map_get m k = None).
Proof.
  intros Hvalid Hloop k _. split.
  - intros a v Hin Hv Hne.
    assert (∀ k a, (k, a) ∈ ([] : jsmap) → a < length (arrs h)) as Hnil
      by (intros k0 a0 Hin0; by apply not_elem_of_nil in Hin0).
    destruct (merge_loop_record _ _ _ _ _ _ Hnil Hvalid Hloop k v Hv Hne)
      as (a' & Hget & Hne').
    assert (NoDup m.*1) as Hnd
      by (eapply merge_loop_keys_NoDup; [done|apply NoDup_nil_2]).
    rewrite (map_get_NoDup _ _ _ Hnd Hin) in Hget. by simplify_eq.
  - intros Hk. by rewrite (merge_loop_keys _ _ _ _ _ _ _ Hloop Hk).
Qed.

(** A key with a pair that is an empty array and a pair that is a record:
    its list holds the record. *)
Lemma no_key_with_empty_list_witness :
  (∀ a, a ∈ seq_refs [(VPrim (PNum 1), Seq 0); (VPrim (PNum 1), Scalar (IPrim (PStr "x")))] →
        a < length (arrs (Store [[]] [])))
  ∧ scalar_key (VPrim (PNum 1))
  ∧ arr (Store [[IPrim (PStr "x")]] []) 0 ≠ [].
Proof.
  assert (∀ a, a ∈ seq_refs [(VPrim (PNum 1), Seq 0);
                              (VPrim (PNum 1), Scalar (IPrim (PStr "x")))] →
               a < length (arrs (Store [[]] []))) as Hvalid.
  { simpl. intros a Hin. apply list_elem_of_singleton in Hin as ->. lia. }
  split; [exact Hvalid|]. split; [exact I|].
  apply (proj1 (no_key_with_empty_list None
                  [(VPrim (PNum 1), Seq 0); (VPrim (PNum 1), Scalar (IPrim (PStr "x")))]
                  (Store [[]] []) _ _ Hvalid eq_refl (VPrim (PNum 1)) I)
               0 (Scalar (IPrim (PStr "x")))).
  - left.
  - right. left.
  - intros b Hb. discriminate Hb.
Defined.

(** ** How the three reads relate *)

Lemma stringify_items_concat_eq h (ls : list (list item)) :
  stringify_items h (concat ls) = @concat value <$> mapM (stringify_items h) ls.
Proof.
  induction ls as [|l ls IH]; [done|].
  rewrite mapM_result_cons. simpl. unfold stringify_items in *.
  rewrite mapM_result_app, IH.
  destruct (mapM (λ r, json_clone (view h r)) l) as [js|e]; [|done]. simpl.
  by destruct (mapM (λ l0, mapM (λ r, json_clone (view h r)) l0) ls).
Qed.

Lemma mapM_result_map {A B C} (f : B → result C) (g : A → B) l :
  mapM f (map g l) = mapM (λ x, f (g x)) l.
Proof.
  induction l as [|x l IH]; [done|].
  change (map g (x :: l)) with (g x :: map g l).
  by rewrite !mapM_result_cons, IH.
Qed.

(** In the model, which has no limit on the number of arguments of a
    call, [getAll] is [getValues] over the keys. *)
Lemma lookupAll_concat_lookups (c : cache) :
  NoDup (data c).*1 →
  lookupAll c = @concat value <$> mapM (λ k, lookup k c) (data c).*1.
Proof.
  intros Hnd.
  rewrite lookupAll_eq, stringify_items_concat_eq. f_equal.
  rewrite mapM_result_map.
  change ((data c).*1) with (map fst (data c)). rewrite mapM_result_map.
  apply mapM_result_ext. intros [k a] Hin. simpl.
  by rewrite lookup_eq, (map_get_NoDup _ _ _ Hnd Hin).
Qed.

(** X1. [getAll] is [getValues] over the keys of the Index, in the order
    of their insertion, one after the other: in every state the cache
    reaches, whenever [getAll] returns, [getValues] returns for every key
    of the Index, and what [getAll] returns is (by value) the
    concatenation of what [getValues] returns for each key. *)
Theorem getAll_concat_getValues (cfg : config) (evs : list completion)
    (l : list value) :
  lookupAll (run cfg evs new_cache) = Ok l →
  ∃ ls, mapM (λ k, lookup k (run cfg evs new_cache)) (data (run cfg evs new_cache)).*1
        = Ok ls
        ∧ l = concat ls.
Proof.
  rewrite lookupAll_concat_lookups
    by (apply run_keys_NoDup; apply NoDup_nil_2).
  destruct (mapM _ _) as [ls|e]; simpl; [|done].
  intros [= <-]. by exists ls.
Qed.

Lemma getAll_concat_getValues_witness :
  lookupAll (run test_cfg [DbDone 1 (QRows test_rows_store [IObj 0; IObj 1]) None]
               new_cache)
  = Ok (concat test_snapshot.*2)
  ∧ ∃ ls, mapM (λ k, lookup k test_cache) [VPrim (PNum 7)] = Ok ls
          ∧ concat test_snapshot.*2 = concat ls.
Proof.
  split; [reflexivity|].
  exact (getAll_concat_getValues test_cfg
           [DbDone 1 (QRows test_rows_store [IObj 0; IObj 1]) None]
           (concat test_snapshot.*2) eq_refl).
Defined.

Lemma lookupFirst_head key c l :
  lookup key c = Ok l → lookupFirst key c = Ok (default (VPrim PNull) (head l)).
Proof.
  rewrite lookup_eq, lookupFirst_eq.
  destruct (map_get (data c) key) as [a|]; [|by intros [= <-]].
  destruct (arr (mem c) a) as [|r rs]; [by intros [= <-]|].
  unfold stringify_items. rewrite mapM_result_cons.
  destruct (json_clone (view (mem c) r)) as [j|e]; simpl; [|done].
  destruct (mapM _ rs); simpl; [|done]. by intros [= <-].
Qed.

(** X2. [getFirstValue] agrees with [getValues]: whenever [getValues]
    returns for a key, [getFirstValue] returns (by value) its first
    record, or [null] when it is empty; and [getFirstValue] throws only
    what [getValues] throws as well. *)
Theorem getFirstValue_head_of_getValues (key : value) (c : cache) :
  (∀ l, lookup key c = Ok l →
        lookupFirst key c = Ok (default (VPrim PNull) (head l)))
  ∧ (∀ e, lookupFirst key c = Throw e → lookup key c = Throw e).
Proof.
  split; [intros l; apply lookupFirst_head|].
  intros e. rewrite lookup_eq, lookupFirst_eq.
  destruct (map_get (data c) key) as [a|]; [|done].
  destruct (arr (mem c) a) as [|r rs]; [done|].
  unfold stringify_items. rewrite mapM_result_cons.
  by intros ->.
Qed.

Lemma getFirstValue_head_of_getValues_witness :
  lookupFirst (VPrim (PNum 7)) test_cache
  = Ok (default (VPrim PNull)
          (head [VObj [("id", VPrim (PNum 7)); ("text", VPrim (PStr "a"))];
                 VObj [("id", VPrim (PNum 7)); ("text", VPrim (PStr "b"))]])).
Proof.
  apply (proj1 (getFirstValue_head_of_getValues (VPrim (PNum 7)) test_cache)).
  reflexivity.
Defined.

(** [getFirstValue] copies the first record only, so it returns also
    where [getValues] throws on a later record. *)
Example getFirstValue_returns_where_getValues_throws :
  let c := Cache (Store [[IPrim (PNum 1); IPrim (PBigInt 2)]] [])
                 [(VPrim (PStr "k"), 0)] None false [] [] in
  lookup (VPrim (PStr "k")) c = Throw TypeError
  ∧ lookupFirst (VPrim (PStr "k")) c = Ok (VPrim (PNum 1)).
Proof. split; reflexivity. Qed.

(** ** A completion keeps the Index or replaces it *)

Lemma setData_eq cfg who md now c :
  setData cfg who md now c
  = '(h, m) ← setData_index cfg md;
    Ok (Cache h m (Some now) true (emitted c ++ [EvUpdate]) (swaps c ++ [who])).
Proof. unfold setData. by destruct (setData_index cfg md) as [[h m]|e]. Qed.

(** Whether a cycle swaps, and the Index it swaps in, depend on the query
    result only. *)
Lemma loadFromDatabase_factor cfg now q :
  ∃ r : result (store * jsmap), ∀ c,
    loadFromDatabase cfg now q c
    = '(h, m) ← r;
      Ok (Cache h m (Some now) true (emitted c ++ [EvUpdate])
                (swaps c ++ [FromDatabase])).
Proof.
  unfold loadFromDatabase.
  destruct (queryDatabase q) as [[[h rows]|]|e]; simpl.
  - case_bool_decide.
    + exists (setData_index cfg MUndefined). intros c. apply setData_eq.
    + destruct (map_rows cfg rows h) as [[mapItems h1]|e]; simpl;
        [|by exists (Throw e)].
      destruct (merge_loop (itemClass cfg) mapItems h1 []) as [[h2 m]|e]; simpl;
        [|by exists (Throw e)].
      exists (setData_index cfg (MMap h2 m)). intros c. apply setData_eq.
  - exists (setData_index cfg MUndefined). intros c. apply setData_eq.
  - by exists (Throw e).
Qed.

Lemma same_index_refl c : same_index c c.
Proof. done. Qed.

Lemma same_index_emit_error e c : same_index (emit_error e c) c.
Proof. done. Qed.

Lemma same_index_file_catch e c : same_index (file_catch e c) c.
Proof. unfold file_catch. by case_bool_decide. Qed.

(** X3. A completion (a cycle whose query has called back, or the read of
    the snapshot file) either leaves the Index and the freshness marker as
    they were, or installs an Index that depends on the completion alone:
    nothing of the Index it replaces is kept, whichever it was, and the
    cache is ready afterwards.  So a refresh drops the keys the new rows
    do not have, and whichever completion comes last decides what is
    served. *)
Theorem completion_keeps_or_replaces (cfg : config) (ev : completion)
    (c1 c2 : cache) :
  (same_index (step cfg c1 ev) c1 ∧ same_index (step cfg c2 ev) c2)
  ∨ (same_index (step cfg c1 ev) (step cfg c2 ev)
     ∧ ensureCacheReady (step cfg c1 ev) = true
     ∧ ensureCacheReady (step cfg c2 ev) = true).
Proof.
  destruct ev as [now q wr|now r]; simpl.
  - unfold loadFromDatabaseAndSaveToFile.
    destruct (loadFromDatabase_factor cfg now q) as [res Hres].
    rewrite !Hres. destruct res as [[h m]|e]; simpl; [|by left].
    right. destruct (shouldSaveToFile cfg); [|done].
    unfold saveToFile. simpl.
    destruct (stringify_data h m); simpl; [|done]. by destruct wr.
  - destruct (shouldSaveToFile cfg); [|by left].
    unfold loadCacheFromFile.
    destruct r as [e|f]; [left; split; apply same_index_file_catch|].
    destruct (parse_file f) as [md|e]; [|left; split; apply same_index_file_catch].
    rewrite !setData_eq.
    destruct (setData_index cfg md) as [[h m]|e]; simpl;
      [|left; split; apply same_index_file_catch].
    right. destruct (mapData_length md); [done|].
    unfold file_catch. by case_bool_decide.
Qed.

(** A snapshot that is read after the first cycle has completed replaces
    the rows of the database by what the file held. *)
Example stale_snapshot_run :
  lookupAll (run saving_cfg
               [DbDone 1 (QRows (Store [] [VObj [("id", VPrim (PNum 1))]]) [IObj 0])
                       None;
                FileDone 2 (ReadOk (FileJson [(VPrim (PNum 9),
                                               [VObj [("id", VPrim (PNum 9))]])]))]
               new_cache)
  = Ok [VObj [("id", VPrim (PNum 9))]].
Proof. reflexivity. Qed.

(** ** The snapshot file at its edges *)

(** X4. An empty snapshot file ([JSON.parse] is not called, [setData]
    gets [null]).  Without a record constructor [new Map(null)] is an
    empty map: the Index is replaced by an empty one, the cache becomes
    ready and ['update'] is emitted, and then the [debug] call of line 209
    throws on [null.length], which is emitted as an error.  With a
    constructor the loop over [null] throws first: the error is emitted
    and nothing else changes. *)
Theorem empty_snapshot_file (cfg : config) (now : nat) (c : cache) :
  let c' := loadCacheFromFile cfg now (ReadOk FileEmpty) c in
  match itemClass cfg with
  | None =>
      data c' = [] ∧ lastUpdate c' = Some now ∧ ensureCacheReady c' = true
      ∧ emitted c' = emitted c ++ [EvUpdate; EvError TypeError]
      ∧ ∀ key, lookup key c' = Ok []
               ∧ lookupFirst key c' = Ok (VPrim PNull)
               ∧ lookupAll c' = Ok []
  | Some _ =>
      same_index c' c ∧ ensureCacheReady c' = ensureCacheReady c
      ∧ emitted c' = emitted c ++ [EvError TypeError]
  end.
Proof.
  simpl. unfold loadCacheFromFile. simpl. rewrite setData_eq. simpl.
  destruct (itemClass cfg); simpl; [done|].
  split; [done|]. split; [done|]. split; [done|].
  split; [by rewrite <- app_assoc|]. done.
Qed.

Lemma step_same_state cfg c c' ev :
  same_state c c' → same_state (step cfg c ev) (step cfg c' ev).
Proof.
  intros Hs. destruct ev as [now q wr|now r]; simpl.
  - unfold loadFromDatabaseAndSaveToFile.
    destruct (loadFromDatabase_factor cfg now q) as [res Hres].
    rewrite !Hres. destruct res as [[h m]|e]; simpl; [|done].
    destruct Hs as (_ & _ & Hsw).
    destruct (shouldSaveToFile cfg); [|by rewrite !Hsw].
    unfold saveToFile. simpl.
    destruct (stringify_data h m); simpl; [|by rewrite !Hsw].
    destruct wr; by rewrite !Hsw.
  - destruct (shouldSaveToFile cfg); [|done].
    assert (∀ e, same_state (file_catch e c) (file_catch e c')) as Hcatch.
    { intros e. unfold file_catch. by case_bool_decide. }
    unfold loadCacheFromFile.
    destruct r as [e|f]; [done|].
    destruct (parse_file f) as [md|e]; [|done].
    rewrite !setData_eq.
    destruct (setData_index cfg md) as [[h m]|e]; simpl; [|done].
    destruct Hs as (_ & _ & Hsw).
    destruct (mapData_length md); [by rewrite Hsw|].
    unfold file_catch. case_bool_decide; by rewrite Hsw.
Qed.

Lemma run_same_state cfg evs c c' :
  same_state c c' → same_state (run cfg evs c) (run cfg evs c').
Proof.
  unfold run. revert c c'.
  induction evs as [|ev evs IH]; intros c c' Hs; simpl; [done|].
  by apply IH, step_same_state.
Qed.

Lemma run_app cfg evs1 evs2 c :
  run cfg (evs1 ++ evs2) c = run cfg evs2 (run cfg evs1 c).
Proof. unfold run. by rewrite foldl_app. Qed.

Lemma same_state_file_catch e c : same_state (file_catch e c) c.
Proof. unfold file_catch. by case_bool_decide. Qed.

(** X5. A snapshot file that cannot be used is ignored.  When the file is
    missing (the read fails with ENOENT) the cache goes on exactly as if
    the read had never completed, and nothing is emitted for it.  When the
    read fails otherwise, or the file is not JSON, every later state
    serves the same Index, with the same freshness marker and the same
    readiness, as without the read. *)
Theorem unusable_snapshot_is_ignored (cfg : config) (pre post : list completion)
    (now : nat) (c : cache) :
  run cfg (pre ++ FileDone now (ReadError ENOENT) :: post) c
  = run cfg (pre ++ post) c
  ∧ (∀ e, same_index (run cfg (pre ++ FileDone now (ReadError e) :: post) c)
                     (run cfg (pre ++ post) c)
          ∧ ensureCacheReady (run cfg (pre ++ FileDone now (ReadError e) :: post) c)
            = ensureCacheReady (run cfg (pre ++ post) c))
  ∧ same_index (run cfg (pre ++ FileDone now (ReadOk FileNotJson) :: post) c)
               (run cfg (pre ++ post) c)
  ∧ ensureCacheReady (run cfg (pre ++ FileDone now (ReadOk FileNotJson) :: post) c)
    = ensureCacheReady (run cfg (pre ++ post) c).
Proof.
  assert (∀ r, (∀ c0, same_state (loadCacheFromFile cfg now r c0) c0) →
               same_state (run cfg (pre ++ FileDone now r :: post) c)
                          (run cfg (pre ++ post) c)) as Hgen.
  { intros r Hr. rewrite !run_app.
    change (run cfg (FileDone now r :: post) (run cfg pre c))
      with (run cfg post (step cfg (run cfg pre c) (FileDone now r))).
    apply run_same_state. simpl. by destruct (shouldSaveToFile cfg). }
  split; [|split].
  - rewrite !run_app.
    change (run cfg (FileDone now (ReadError ENOENT) :: post) (run cfg pre c))
      with (run cfg post (step cfg (run cfg pre c) (FileDone now (ReadError ENOENT)))).
    simpl. by destruct (shouldSaveToFile cfg).
  - intros e. destruct (Hgen (ReadError e)) as (? & ? & _); [|done].
    intros c0. apply same_state_file_catch.
  - destruct (Hgen (ReadOk FileNotJson)) as (? & ? & _); [|done].
    intros c0. apply same_state_file_catch.
Qed.

(** The test "after file corruption": the snapshot file is not JSON, an
    error is emitted for it, and the rows of the first cycle are served. *)
Example corrupt_file_run :
  let c := run saving_cfg
             [FileDone 1 (ReadOk FileNotJson);
              DbDone 2 (QRows (Store [] [VObj [("id", VPrim (PNum 1))]]) [IObj 0])
                     None]
             new_cache in
  lookupAll c = Ok [VObj [("id", VPrim (PNum 1))]]
  ∧ emitted c = [EvError SyntaxError; EvUpdate].
Proof. split; reflexivity. Qed.

(** ** Before the cache is ready *)

Lemma step_ready_or_kept cfg c ev :
  loadDataPromise (step cfg c ev) = true
  ∨ (same_index (step cfg c ev) c
     ∧ loadDataPromise (step cfg c ev) = loadDataPromise c).
Proof.
  destruct ev as [now q wr|now r]; simpl.
  - unfold loadFromDatabaseAndSaveToFile.
    destruct (loadFromDatabase cfg now q c) as [c1|e] eqn:Hl; simpl; [|by right].
    apply loadFromDatabase_Ok in Hl as [md (Hp & _)%setData_Ok]. left.
    destruct (shouldSaveToFile cfg); [|done]. by destruct (saveToFile wr c1).
  - destruct (shouldSaveToFile cfg); [|by right].
    assert (∀ e, same_index (file_catch e c) c
                 ∧ loadDataPromise (file_catch e c) = loadDataPromise c) as Hcatch.
    { intros e. unfold file_catch. by case_bool_decide. }
    unfold loadCacheFromFile.
    destruct r as [e|f]; [by right|].
    destruct (parse_file f) as [md|e]; [|by right].
    destruct (setData cfg FromFile md now c) as [c1|e] eqn:Hs; [|by right].
    apply setData_Ok in Hs as (Hp & _). left.
    destruct (mapData_length md); [done|].
    unfold file_catch. by case_bool_decide.
Qed.

Lemma run_not_ready cfg evs c :
  (loadDataPromise c = false → data c = [] ∧ lastUpdate c = None) →
  loadDataPromise (run cfg evs c) = false →
  data (run cfg evs c) = [] ∧ lastUpdate (run cfg evs c) = None.
Proof.
  unfold run. revert c. induction evs as [|ev evs IH]; intros c Hinv; simpl; [done|].
  apply IH. intros Hnr.
  destruct (step_ready_or_kept cfg c ev) as [Hr|[(_ & Hd & Hl) Hp]]; [congruence|].
  rewrite Hd, Hl. apply Hinv. congruence.
Qed.

(** X6. Until the cache is ready it serves an empty Index: the freshness
    marker is unset, and the three reads return an empty array, [null]
    and an empty array; they do not throw. *)
Theorem reads_before_ready (cfg : config) (evs : list completion) :
  ensureCacheReady (run cfg evs new_cache) = false →
  lastUpdate (run cfg evs new_cache) = None
  ∧ ∀ key, lookup key (run cfg evs new_cache) = Ok []
           ∧ lookupFirst key (run cfg evs new_cache) = Ok (VPrim PNull)
           ∧ lookupAll (run cfg evs new_cache) = Ok [].
Proof.
  intros Hnr. destruct (run_not_ready cfg evs new_cache) as [Hd Hl]; [done|done|].
  split; [done|]. intros key.
  rewrite lookup_eq, lookupFirst_eq, lookupAll_eq, Hd. done.
Qed.

Lemma reads_before_ready_witness :
  ensureCacheReady
    (run saving_cfg [FileDone 1 (ReadOk FileNotJson); DbDone 2 (QError (Thrown 3)) None]
       new_cache) = false
  ∧ lookupAll
      (run saving_cfg [FileDone 1 (ReadOk FileNotJson); DbDone 2 (QError (Thrown 3)) None]
         new_cache) = Ok [].
Proof.
  split; [reflexivity|].
  apply (reads_before_ready saving_cfg
           [FileDone 1 (ReadOk FileNotJson); DbDone 2 (QError (Thrown 3)) None]);
    [reflexivity|exact (VPrim PNull)].
Defined.

(** ** The snapshot round trip, key by key *)

Lemma Forall2_conj {A B} (R1 R2 : A → B → Prop) l k :
  Forall2 R1 l k → Forall2 R2 l k → Forall2 (λ x y, R1 x y ∧ R2 x y) l k.
Proof.
  intros H1. induction H1 as [|x y l k Hxy _ IH]; intros H2; [constructor|].
  apply Forall2_cons in H2 as [Hxy2 H2]. constructor; [done|by apply IH].
Qed.

(** What [saveToFile] writes: pair by pair, the key and the records of
    the Index as [JSON.stringify] writes them. *)
Lemma saved_snapshot c s :
  saveToFile None c = Ok s →
  Forall2 (λ e se, json_clone e.1 = Ok se.1
                   ∧ stringify_items (mem c) (arr (mem c) e.2) = Ok se.2)
          (data c) s.
Proof.
  unfold saveToFile.
  destruct (stringify_data (mem c) (data c)) as [s'|e] eqn:Hs; simpl; [|done].
  intros [= <-]. unfold stringify_data in Hs. apply mapM_result_Forall2 in Hs.
  eapply Forall2_impl; [exact Hs|]. intros [k a] [k' js]. simpl.
  destruct (json_clone k); simpl; [|done].
  destruct (stringify_items (mem c) (arr (mem c) a)); simpl; [|done].
  by intros [= <- <-].
Qed.

Lemma stringify_items_json h items js j :
  stringify_items h items = Ok js → j ∈ js → json_clone j = Ok j.
Proof.
  intros Hjs%mapM_result_Forall2 Hj.
  apply list_elem_of_lookup in Hj as [i Hi].
  destruct (Forall2_lookup_r _ _ _ _ _ Hjs Hi) as (r & _ & Hr).
  by eapply json_clone_idem.
Qed.

Lemma parse_snapshot_keys s : ∀ h entries h',
  parse_snapshot s h = (entries, h') → Forall2 (λ e se, e.1 = se.1) entries s.
Proof.
  induction s as [|[k js] s IH]; intros h entries h'; simpl.
  - intros [= <- <-]. constructor.
  - destruct (parse_array js h) as [a h1].
    destruct (parse_snapshot s h1) as [entries' h2] eqn:Hs.
    intros [= <- <-]. constructor; [done|]. by eapply IH.
Qed.

(** The Index [loadCacheFromFile] installs for a snapshot with distinct
    keys, on whose records the constructor is stable: pair by pair, the
    key of the snapshot and an array that serializes to its records. *)
Lemma loadCacheFromFile_snapshot cfg now s c0 :
  NoDup s.*1 →
  (∀ k js j, (k, js) ∈ s → j ∈ js → json_clone j = Ok j) →
  stable_on (itemClass cfg) s →
  Forall2 (λ e se,
             e.1 = se.1
             ∧ stringify_items (mem (loadCacheFromFile cfg now (ReadOk (FileJson s)) c0))
                 (arr (mem (loadCacheFromFile cfg now (ReadOk (FileJson s)) c0)) e.2)
               = Ok se.2)
          (data (loadCacheFromFile cfg now (ReadOk (FileJson s)) c0)) s.
Proof.
  intros Hnd Hjson Hstable.
  unfold loadCacheFromFile, parse_file.
  destruct (parse_snapshot s empty_store) as [entries h0] eqn:Hparse.
  pose proof (parse_snapshot_keys _ _ _ _ Hparse) as Hk.
  apply parse_snapshot_empty in Hparse as (Hkeys & Hnd2 & Hall).
  rewrite setData_eq. unfold setData_index, stable_on in *.
  destruct (itemClass cfg) as [cls|].
  - destruct (construct_entries_total cls entries h0 Hnd2)
      as (h1 & Hc & Hpre & _ & Hrel).
    { intros k a Hin. apply list_elem_of_lookup in Hin as [i Hi].
      destruct (Forall2_lookup_l _ _ _ _ _ Hall Hi) as ([k' js] & Hse & Hview & Hcl).
      simpl in *. apply Forall_forall. intros r Hr.
      rewrite Forall_forall in Hcl. split; [by apply Hcl|].
      destruct (Hstable k' js (view h0 r)) as (d & Hd & _).
      - by eapply list_elem_of_lookup_2.
      - rewrite <- Hview. by apply list_elem_of_fmap_2.
      - by exists d. }
    rewrite Hc. simpl. rewrite new_Map_NoDup by (by rewrite Hkeys).
    apply Forall2_conj; [done|]. by eapply reload_views.
  - simpl. rewrite new_Map_NoDup by (by rewrite Hkeys).
    apply Forall2_conj; [done|].
    apply Forall2_same_length_lookup_2; [by eapply Forall2_length|].
    intros i [k a] [k' js] Hi Hse.
    destruct (Forall2_lookup_lr _ _ _ _ _ _ Hall Hi Hse) as [Hview _]. simpl in *.
    unfold stringify_items. apply mapM_result_Forall2.
    rewrite <- Hview. apply Forall2_fmap_r, Forall_Forall2_diag, Forall_forall.
    intros r Hr. apply (Hjson k' js).
    + by eapply list_elem_of_lookup_2.
    + rewrite <- Hview. by apply list_elem_of_fmap_2.
Qed.

Lemma lookup_via_snapshot c (s : snapshot) key :
  Forall2 (λ e se, e.1 = se.1
                   ∧ stringify_items (mem c) (arr (mem c) e.2) = Ok se.2)
          (data c) s →
  lookup key c = Ok (default [] (snapshot_get s key)).
Proof.
  rewrite lookup_eq. generalize (data c).
  intros m Hm. induction Hm as [|[k a] [k' js] m s [Hk Hjs] _ IH]; [done|].
  simpl in *. subst k'. by destruct (same_value_zero k key).
Qed.

Lemma lookupAll_via_snapshot c (s : snapshot) :
  Forall2 (λ e se, e.1 = se.1
                   ∧ stringify_items (mem c) (arr (mem c) e.2) = Ok se.2)
          (data c) s →
  lookupAll c = Ok (concat s.*2).
Proof.
  intros Hm. rewrite lookupAll_eq. apply stringify_items_concat.
  generalize dependent (data c). intros m Hm.
  induction Hm as [|[k a] [k' js] m s [_ Hjs] _ IH]; [constructor|].
  rewrite fmap_cons. simpl. by constructor.
Qed.

(** The Index that was saved and the Index that is loaded both hold, pair
    by pair, the keys of the snapshot and arrays that serialize to its
    records. *)
Lemma snapshot_relates cfg c c0 s now :
  saveToFile None c = Ok s →
  NoDup (data c).*1 →
  Forall (λ k, json_clone k = Ok k) (data c).*1 →
  stable_on (itemClass cfg) s →
  Forall2 (λ e se, e.1 = se.1
                   ∧ stringify_items (mem c) (arr (mem c) e.2) = Ok se.2)
          (data c) s
  ∧ Forall2 (λ e se,
               e.1 = se.1
               ∧ stringify_items
                   (mem (loadCacheFromFile cfg now (ReadOk (FileJson s)) c0))
                   (arr (mem (loadCacheFromFile cfg now (ReadOk (FileJson s)) c0)) e.2)
                 = Ok se.2)
            (data (loadCacheFromFile cfg now (ReadOk (FileJson s)) c0)) s.
Proof.
  intros Hsave%saved_snapshot Hnd Hkeys Hstable.
  assert (Forall2 (λ e se, e.1 = se.1
                           ∧ stringify_items (mem c) (arr (mem c) e.2) = Ok se.2)
                  (data c) s) as Hc.
  { eapply Forall2_impl_l; [|exact Hsave|].
    - apply Forall_forall. intros e He. apply Forall_forall with (x := e.1) in Hkeys.
      + exact Hkeys.
      + by apply list_elem_of_fmap_2.
    - intros [k a] [k' js]. simpl. intros Hk [Hk' Hjs]. split; [congruence|done]. }
  assert (s.*1 = (data c).*1) as Hsk.
  { clear -Hc. induction Hc as [|[k a] [k' js] m s [Hk _] _ IH]; [done|].
    rewrite !fmap_cons. simpl in *. by rewrite IH, Hk. }
  split; [done|].
  apply loadCacheFromFile_snapshot; [by rewrite Hsk| |done].
  intros k js j Hin Hj. apply list_elem_of_lookup in Hin as [i Hi].
  destruct (Forall2_lookup_r _ _ _ _ _ Hc Hi) as ([k0 a] & _ & _ & Hjs).
  by eapply stringify_items_json.
Qed.

(** X7. The snapshot round trip, key by key.  For an Index whose keys are
    distinct scalars that are JSON values (numbers, strings, booleans,
    [null]: [JSON.stringify] writes them as they are), and a record
    constructor,
    if one is configured, that is stable on the serialized records, what
    [saveToFile] writes and [loadCacheFromFile] reads back serves every
    key as before: [getValues] and [getFirstValue] return the same, by
    value, for every key, and so does [getAll]. *)
Theorem snapshot_round_trip_per_key (cfg : config) (c c0 : cache) (s : snapshot)
    (now : nat) :
  saveToFile None c = Ok s →
  NoDup (data c).*1 →
  Forall scalar_key (data c).*1 →
  Forall (λ k, json_clone k = Ok k) (data c).*1 →
  stable_on (itemClass cfg) s →
  (∀ key,
     lookup key (loadCacheFromFile cfg now (ReadOk (FileJson s)) c0) = lookup key c
     ∧ lookupFirst key (loadCacheFromFile cfg now (ReadOk (FileJson s)) c0)
       = lookupFirst key c)
  ∧ lookupAll (loadCacheFromFile cfg now (ReadOk (FileJson s)) c0) = lookupAll c.
Proof.
  intros Hsave Hnd _ Hkeys Hstable.
  destruct (snapshot_relates cfg c c0 s now Hsave Hnd Hkeys Hstable) as [Hc Hc'].
  split.
  - intros key.
    pose proof (lookup_via_snapshot _ s key Hc) as Hl.
    pose proof (lookup_via_snapshot _ s key Hc') as Hl'.
    split; [by rewrite Hl, Hl'|].
    by rewrite (lookupFirst_head _ _ _ Hl), (lookupFirst_head _ _ _ Hl').
  - by rewrite (lookupAll_via_snapshot _ s Hc), (lookupAll_via_snapshot _ s Hc').
Qed.

Lemma snapshot_round_trip_per_key_witness :
  lookup (VPrim (PNum 7))
    (loadCacheFromFile test_cfg 2 (ReadOk (FileJson test_snapshot)) new_cache)
  = lookup (VPrim (PNum 7)) test_cache.
Proof.
  apply (snapshot_round_trip_per_key test_cfg test_cache new_cache test_snapshot 2).
  - reflexivity.
  - vm_compute. apply NoDup_singleton.
  - vm_compute. by constructor.
  - vm_compute. by constructor.
  - intros k js j Hin Hj. by apply (test_snapshot_stable k js j).
Defined.

(** ** The prototype's mapper: rows grouped by their key field *)

Lemma mapM_result_rel {A B C} (R : A → B → Prop) (f : A → result C)
    (g : B → result C) l k :
  Forall2 R l k → (∀ x y, R x y → f x = g y) → mapM f l = mapM g k.
Proof.
  intros HR Hfg. induction HR as [|x y l k Hxy _ IH]; [done|].
  by rewrite !mapM_result_cons, (Hfg x y Hxy), IH.
Qed.

Lemma mapM_result_fmap {A B C} (f : B → result C) (g : A → B) (l : list A) :
  mapM f (g <$> l) = mapM (λ x, f (g x)) l.
Proof.
  induction l as [|x l IH]; [done|].
  rewrite fmap_cons. by rewrite !mapM_result_cons, IH.
Qed.

Lemma values_for_default keyField h key rows :
  values_for key (map (λ row, (row_key keyField h row, Scalar row)) rows)
  = Scalar <$> rows_of_key keyField h key rows.
Proof.
  unfold rows_of_key. induction rows as [|row rows IH]; [done|].
  cbn [map values_for]. rewrite filter_cons.
  destruct (same_value_zero (row_key keyField h row) key) eqn:Hk.
  - rewrite decide_True by done. by rewrite fmap_cons, IH.
  - rewrite decide_False by done. done.
Qed.

Lemma seq_refs_default keyField h rows :
  seq_refs (map (λ row, (row_key keyField h row, Scalar row)) rows) = [].
Proof. induction rows as [|row rows IH]; [done|]. done. Qed.

Lemma is_row_closed keyField h row : is_row keyField h row → closed_item h row.
Proof. intros (o & fs & -> & Ho & _). simpl. by eapply lookup_lt_Some. Qed.

(** What the Index holds for the rows of a key, record by record. *)
Lemma contribution_scalars Item h h2 rows cs :
  objs h `prefix_of` objs h2 →
  Forall (closed_item h) rows →
  Forall2 (contribution Item h h2) (Scalar <$> rows) cs →
  Forall2 (λ row r, record_of Item (view h row) = Ok (view h2 r)) rows (concat cs).
Proof.
  intros Hpre Hcl. revert cs.
  induction rows as [|row rows IH]; intros cs.
  - intros ->%Forall2_nil_inv_l. constructor.
  - rewrite fmap_cons.
    intros (c & cs' & Hc & Hcs & ->)%Forall2_cons_inv_l.
    apply Forall_cons in Hcl as [Hrow Hcl]. simpl.
    unfold contribution in Hc. destruct Item as [cls|]; simpl in *.
    + apply Forall2_cons_inv_l in Hc as (r & c' & Hr & ->%Forall2_nil_inv_l & ->).
      destruct Hr as (o & d & -> & Ho & Hd). simpl.
      constructor; [|by apply IH]. simpl. by rewrite Ho.
    + subst c. simpl. constructor; [|by apply IH].
      by rewrite (view_closed_prefix _ _ _ Hpre Hrow).
Qed.

(** The Index a cycle builds with the prototype's mapper. *)
Lemma default_mapper_index cfg now h rows c c' :
  parseDataRow_option cfg = None → parseDataMultiRow cfg = None →
  Forall (is_row (keyFieldName cfg) h) rows →
  loadFromDatabase cfg now (QRows h rows) c = Ok c' →
  NoDup (data c').*1
  ∧ ∀ key, match map_get (data c') key with
           | None => rows_of_key (keyFieldName cfg) h key rows = []
           | Some a =>
               Forall2 (λ row r, record_of (itemClass cfg) (view h row)
                                 = Ok (view (mem c') r))
                       (rows_of_key (keyFieldName cfg) h key rows)
                       (arr (mem c') a)
           end.
Proof.
  intros Hrow Hmulti Hrows Hload.
  split; [by eapply loadFromDatabase_keys_NoDup|].
  revert Hload. unfold loadFromDatabase. simpl. case_bool_decide as Hlen.
  - rewrite setData_eq. simpl. intros [= <-]. simpl. intros key.
    by destruct rows.
  - rewrite map_rows_default by done. simpl.
    destruct (merge_loop (itemClass cfg) _ h []) as [[h2 m]|e] eqn:Hm; simpl; [|done].
    rewrite setData_eq. simpl. intros [= <-]. simpl. intros key.
    apply (merge_loop_inv _ h _ [] h []) in Hm
      as (Hpre & _ & _ & _ & _ & Hkeys).
    + specialize (Hkeys key). simpl in Hkeys.
      rewrite values_for_default in Hkeys.
      destruct (map_get m key) as [a|].
      * destruct Hkeys as (_ & cs & Hcs & ->).
        apply contribution_scalars; [done| |done].
        apply Forall_forall. intros row Hin%list_elem_of_filter.
        destruct Hin as [_ Hin]. rewrite Forall_forall in Hrows.
        by eapply is_row_closed, Hrows.
      * by apply fmap_nil_inv in Hkeys.
    + simpl. rewrite seq_refs_default. constructor.
    + rewrite seq_refs_default. by intros a ?%not_elem_of_nil.
    + intros k v Hin%list_elem_of_In. apply in_map_iff in Hin as (row & [= <- <-] & Hin).
      simpl. constructor; [|constructor].
      rewrite Forall_forall in Hrows. eapply is_row_closed, Hrows.
      by apply list_elem_of_In.
    + apply merge_inv_nil.
Qed.

(** X8. With the prototype's mapper ([parseDataRow] not overridden, no
    [parseDataMultiRow]) a cycle files every row under the value of its
    key field: after the cycle [getValues(key)], for a scalar [key],
    returns, in the order of the query, the copies of the records of
    exactly the rows whose key field is [key] (the row itself, or
    [new Item(row)] when a constructor is configured); no other row shows
    under the key, and none is missing. *)
Theorem default_mapper_groups_rows (cfg : config) (now : nat) (h : store)
    (rows : list item) (c c' : cache) :
  parseDataRow_option cfg = None → parseDataMultiRow cfg = None →
  Forall (is_row (keyFieldName cfg) h) rows →
  loadFromDatabase cfg now (QRows h rows) c = Ok c' →
  ∀ key, scalar_key key →
         lookup key c'
         = mapM (copy_of (itemClass cfg))
                (view h <$> rows_of_key (keyFieldName cfg) h key rows).
Proof.
  intros Hrow Hmulti Hrows Hload key _.
  destruct (default_mapper_index _ _ _ _ _ _ Hrow Hmulti Hrows Hload) as [_ Hidx].
  specialize (Hidx key). rewrite lookup_eq.
  destruct (map_get (data c') key) as [a|]; [|by rewrite Hidx].
  rewrite mapM_result_fmap. unfold stringify_items. symmetry.
  eapply mapM_result_rel; [exact Hidx|].
  intros row r Hr. simpl in Hr. unfold copy_of. by rewrite Hr.
Qed.


Lemma test_rows_are_rows : Forall (is_row "id" test_rows_store) [IObj 0; IObj 1].
Proof.
  constructor; [|constructor; [|constructor]].
  - exists 0, [("id", VPrim (PNum 7)); ("text", VPrim (PStr "a"))].
    split; [done|]. split; [done|]. by eexists.
  - exists 1, [("id", VPrim (PNum 7)); ("text", VPrim (PStr "b"))].
    split; [done|]. split; [done|]. by eexists.
Qed.

Lemma default_mapper_groups_rows_witness :
  lookup (VPrim (PNum 7)) test_cache
  = mapM (copy_of (Some TestRow))
         (view test_rows_store
            <$> rows_of_key "id" test_rows_store (VPrim (PNum 7)) [IObj 0; IObj 1]).
Proof.
  apply (default_mapper_groups_rows test_cfg 1 test_rows_store [IObj 0; IObj 1]
           new_cache test_cache eq_refl eq_refl test_rows_are_rows eq_refl
           (VPrim (PNum 7)) I).
Defined.

(** Keys are compared as a [Map] compares them, without conversion: the
    rows filed under the number 7 are not served for the string ["7"]. *)
Example string_key_finds_no_number_key :
  lookup (VPrim (PNum 7)) test_cache
  = Ok [VObj [("id", VPrim (PNum 7)); ("text", VPrim (PStr "a"))];
        VObj [("id", VPrim (PNum 7)); ("text", VPrim (PStr "b"))]]
  ∧ lookup (VPrim (PStr "7")) test_cache = Ok [].
Proof. split; reflexivity. Qed.


(** Grouping the rows by key, over distinct keys that cover the keys of
    all rows, loses and repeats no row. *)
Lemma rows_of_key_cons keyField h key row rows :
  rows_of_key keyField h key (row :: rows)
  = if same_value_zero (row_key keyField h row) key
    then row :: rows_of_key keyField h key rows
    else rows_of_key keyField h key rows.
Proof.
  unfold rows_of_key. rewrite filter_cons.
  destruct (same_value_zero (row_key keyField h row) key).
  - by rewrite decide_True.
  - by rewrite decide_False.
Qed.







(** ** The options *)

Lemma property_set_property o k v k' :
  property (set_property o k v) k' = if bool_decide (k = k') then Some v else property o k'.
Proof.
  induction o as [|[k0 v0] o IH]; simpl; [done|].
  destruct (bool_decide (k0 = k)) eqn:Hk0; simpl.
  - apply bool_decide_eq_true in Hk0 as ->.
    by destruct (bool_decide (k = k')).
  - rewrite IH. apply bool_decide_eq_false in Hk0.
    destruct (bool_decide (k0 = k')) eqn:Hk0'; [|done].
    apply bool_decide_eq_true in Hk0' as ->.
    by rewrite bool_decide_eq_false_2 by done.
Qed.

Lemma property_None_keys (o : object) k : k ∉ o.*1 → property o k = None.
Proof.
  induction o as [|[k1 v1] o IH]; [done|]. rewrite fmap_cons. simpl.
  intros [Hne Hnotin]%not_elem_of_cons.
  rewrite bool_decide_eq_false_2 by done. by apply IH.
Qed.

(** [Object.assign] from a source whose property names are distinct: the
    properties of the source, and those of the target it does not have. *)
Lemma property_assign target (ps : object) k :
  NoDup ps.*1 →
  property (Object_assign target (Some ps)) k
  = match property ps k with
    | Some v => Some v
    | None => property target k
    end.
Proof.
  simpl. revert target. induction ps as [|[k0 v0] ps IH]; intros target; [done|].
  rewrite fmap_cons. intros [Hnotin Hnd]%NoDup_cons. simpl in *.
  rewrite IH by done. case_bool_decide as Hk.
  - subst k0. rewrite (property_None_keys ps k Hnotin).
    by rewrite property_set_property, bool_decide_eq_true_2.
  - destruct (property ps k); [done|].
    by rewrite property_set_property, bool_decide_eq_false_2.
Qed.

Lemma set_property_keys o k v :
  (k ∈ (o.*1) ∧ (set_property o k v).*1 = o.*1)
  ∨ ((k ∉ o.*1) ∧ (set_property o k v).*1 = o.*1 ++ [k]).
Proof.
  induction o as [|[k0 v0] o IH]; [right; split; [apply not_elem_of_nil|done]|].
  simpl. case_bool_decide as Hk.
  - subst k0. left. split; [by left|done].
  - rewrite !fmap_cons. simpl. destruct IH as [[Hin ->]|[Hnotin ->]].
    + left. split; [by right|done].
    + right. split; [|done]. intros [?|?]%elem_of_cons; [congruence|done].
Qed.

Lemma Object_assign_NoDup target source :
  NoDup target.*1 → NoDup (Object_assign target source).*1.
Proof.
  destruct source as [ps|]; [|done]. simpl. revert target.
  induction ps as [|[k v] ps IH]; intros target Hnd; [done|]. simpl.
  apply IH. destruct (set_property_keys target k v) as [[_ ->]|[Hnotin ->]]; [done|].
  apply NoDup_app. split; [done|]. split; [|apply NoDup_singleton].
  by intros x Hx ->%list_elem_of_singleton.
Qed.

Lemma getDefaults_NoDup className paramCase random :
  NoDup (getDefaults className paramCase random).*1.
Proof. apply (bool_decide_unpack _). by vm_compute. Qed.

Lemma property_Some_elem (o : object) k v : property o k = Some v → (k, v) ∈ o.
Proof.
  induction o as [|[k0 v0] o IH]; [done|]. simpl. case_bool_decide as Hk.
  - intros [= ->]. subst. by left.
  - intros ?%IH. by right.
Qed.

Lemma elem_property (o : object) k v : NoDup o.*1 → (k, v) ∈ o → property o k = Some v.
Proof.
  induction o as [|[k0 v0] o IH]; [by intros _ ?%not_elem_of_nil|].
  rewrite fmap_cons. intros [Hnotin Hnd]%NoDup_cons [[= <- <-]|Hin]%elem_of_cons; simpl.
  - by rewrite bool_decide_eq_true_2.
  - rewrite bool_decide_eq_false_2; [by apply IH|].
    intros ->. apply Hnotin. simpl. apply list_elem_of_fmap. by exists (k, v).
Qed.

Lemma find_nullish_None (o : object) :
  find (λ p, is_nullish p.2) o = None ↔ ∀ k v, (k, v) ∈ o → is_nullish v = false.
Proof.
  induction o as [|[k0 v0] o IH]; simpl.
  - split; [|done]. by intros _ k v ?%not_elem_of_nil.
  - destruct (is_nullish v0) eqn:Hv.
    + split; [done|]. intros H. specialize (H k0 v0 ltac:(by left)). congruence.
    + rewrite IH. split.
      * intros H k v [[= -> ->]|Hin]%elem_of_cons; [done|by eapply H].
      * intros H k v Hin. apply (H k v). by right.
Qed.

Lemma find_nullish_Some (o : object) k v :
  find (λ p, is_nullish p.2) o = Some (k, v) → (k, v) ∈ o ∧ is_nullish v = true.
Proof.
  induction o as [|[k0 v0] o IH]; [done|]. simpl.
  destruct (is_nullish v0) eqn:Hv.
  - intros [= -> ->]. split; [by left|done].
  - intros [Hin Hn]%IH. split; [by right|done].
Qed.

(** The options with the defaults: an option the caller gave, else the
    default of that name. *)
Lemma property_optionsWithDefaults className paramCase random (options : object) k :
  NoDup options.*1 →
  property (Object_assign (getDefaults className paramCase random) (Some options)) k
  = match property options k with
    | Some v => Some v
    | None => property (getDefaults className paramCase random) k
    end.
Proof. apply property_assign. Qed.

Lemma default_nullish className paramCase random k v :
  property (getDefaults className paramCase random) k = Some v →
  is_nullish v = true → k = "sql" ∨ k = "mysqlQueryable".
Proof.
  unfold getDefaults. simpl.
  repeat (case_bool_decide; [subst; intros [= <-]; by auto|]). done.
Qed.

(** X10. [applyOptions] accepts the options exactly when the caller gave
    [sql] and [mysqlQueryable], the two options that have no default, and
    gave no option the value [undefined] or [null].  An option that has a
    default and is given as [undefined] does not fall back to the default:
    the call throws. *)
Theorem applyOptions_accepts_iff (className : string) (paramCase : string → string)
    (random : float) (this options : object) :
  NoDup options.*1 →
  (∃ inst, applyOptions className paramCase random this (Some options) = Applied inst)
  ↔ (∀ k v, (k, v) ∈ options → is_nullish v = false)
    ∧ is_Some (property options "sql")
    ∧ is_Some (property options "mysqlQueryable").
Proof.
  intros Hnd. unfold applyOptions.
  pose proof (Object_assign_NoDup _ (Some options)
                (getDefaults_NoDup className paramCase random)) as Hndm.
  pose proof (property_optionsWithDefaults className paramCase random options) as Hp.
  set (merged := Object_assign (getDefaults className paramCase random) (Some options))
    in *.
  destruct (find (λ p, is_nullish p.2) merged) as [[k v]|] eqn:Hfind.
  - split; [by intros [inst ?]|]. intros (Hgiven & Hsql & Hq). exfalso.
    apply find_nullish_Some in Hfind as [Hin Hnull].
    apply (elem_property _ _ _ Hndm) in Hin. rewrite Hp in Hin by done.
    destruct (property options k) as [v'|] eqn:Hk.
    + injection Hin as ->. apply property_Some_elem, Hgiven in Hk. congruence.
    + destruct (default_nullish _ _ _ _ _ Hin Hnull) as [->| ->].
      * rewrite Hk in Hsql. by destruct Hsql.
      * rewrite Hk in Hq. by destruct Hq.
  - split; [intros _|by eauto].
    rewrite find_nullish_None in Hfind.
    assert (∀ k, property options k = None →
                 property (getDefaults className paramCase random) k
                 = Some (OData (VPrim PUndefined)) → False) as Hreq.
    { intros k Hk Hd. specialize (Hp k Hnd). rewrite Hk, Hd in Hp.
      by apply property_Some_elem, Hfind in Hp. }
    split; [|split].
    + intros k v Hin. apply (Hfind k v), property_Some_elem.
      rewrite Hp by done. by rewrite (elem_property _ _ _ Hnd Hin).
    + destruct (property options "sql") eqn:Hk; [done|]. by destruct (Hreq "sql").
    + destruct (property options "mysqlQueryable") eqn:Hk; [done|].
      by destruct (Hreq "mysqlQueryable").
Qed.

Lemma test_options_NoDup : NoDup test_options.*1.
Proof. apply (bool_decide_unpack _). by vm_compute. Qed.

Lemma applyOptions_accepts_iff_witness :
  (∃ inst, applyOptions "MySqlCache" id 0%float [] (Some test_options) = Applied inst)
  ↔ (∀ k v, (k, v) ∈ test_options → is_nullish v = false)
    ∧ is_Some (property test_options "sql")
    ∧ is_Some (property test_options "mysqlQueryable").
Proof.
  apply (applyOptions_accepts_iff "MySqlCache" id 0%float [] test_options).
  exact test_options_NoDup.
Defined.

(** X11. When [applyOptions] throws, the error names an option that is
    missing: one the caller gave as [undefined] or [null], or one of
    [sql] and [mysqlQueryable] that the caller did not give (without an
    options argument, [sql]). *)
Theorem applyOptions_names_missing (className : string) (paramCase : string → string)
    (random : float) (this : object) (options : option object) (optionKey : string) :
  NoDup (default [] options).*1 →
  applyOptions className paramCase random this options = OptionMissing optionKey →
  (∃ v, property (default [] options) optionKey = Some v ∧ is_nullish v = true)
  ∨ (property (default [] options) optionKey = None
     ∧ (optionKey = "sql" ∨ optionKey = "mysqlQueryable")
     ∧ (options = None → optionKey = "sql")).
Proof.
  destruct options as [options|]; simpl.
  2:{ intros _ [= <-]. right. by auto. }
  intros Hnd. unfold applyOptions.
  pose proof (Object_assign_NoDup _ (Some options)
                (getDefaults_NoDup className paramCase random)) as Hndm.
  pose proof (property_optionsWithDefaults className paramCase random options) as Hp.
  set (merged := Object_assign (getDefaults className paramCase random) (Some options))
    in *.
  destruct (find (λ p, is_nullish p.2) merged) as [[k' v]|] eqn:Hfind; [|done].
  intros [= <-]. apply find_nullish_Some in Hfind as [Hin Hnull].
  apply (elem_property _ _ _ Hndm) in Hin. rewrite Hp in Hin by done.
  destruct (property options k') as [v'|] eqn:Hk.
  - injection Hin as ->. left. by exists v.
  - right. split; [done|]. split; [by eapply default_nullish|done].
Qed.

Lemma applyOptions_names_missing_witness :
  (∃ v, property [("sql", OData (VPrim (PStr "SELECT 1")));
                  ("mysqlQueryable", OObject 0);
                  ("keyFieldName", OData (VPrim PUndefined))] "keyFieldName" = Some v
        ∧ is_nullish v = true)
  ∨ (property [("sql", OData (VPrim (PStr "SELECT 1")));
               ("mysqlQueryable", OObject 0);
               ("keyFieldName", OData (VPrim PUndefined))] "keyFieldName" = None
     ∧ ("keyFieldName" = "sql" ∨ "keyFieldName" = "mysqlQueryable")
     ∧ (Some [("sql", OData (VPrim (PStr "SELECT 1")));
              ("mysqlQueryable", OObject 0);
              ("keyFieldName", OData (VPrim PUndefined))] = None
        → "keyFieldName" = "sql")).
Proof.
  apply (applyOptions_names_missing "MySqlCache" id 0%float []
           (Some [("sql", OData (VPrim (PStr "SELECT 1")));
                  ("mysqlQueryable", OObject 0);
                  ("keyFieldName", OData (VPrim PUndefined))]) "keyFieldName").
  - apply (bool_decide_unpack _). by vm_compute.
  - reflexivity.
Defined.

(** X12. When [applyOptions] accepts the options, the instance has every
    option the caller gave, with the value given, every default the caller
    did not override, and its other own properties as they were; none of
    the options it now has is [undefined] or [null].  An option named as
    a method or a property of the instance ([parseDataRow], but also
    [data]) replaces it. *)
Theorem applyOptions_instance (className : string) (paramCase : string → string)
    (random : float) (this options inst : object) :
  NoDup options.*1 →
  applyOptions className paramCase random this (Some options) = Applied inst →
  ∀ k,
    property inst k
    = match property options k with
      | Some v => Some v
      | None =>
          match property (getDefaults className paramCase random) k with
          | Some v => Some v
          | None => property this k
          end
      end
    ∧ ((k ∈ (options.*1) ∨ k ∈ (getDefaults className paramCase random).*1) →
       ∃ v, property inst k = Some v ∧ is_nullish v = false).
Proof.
  intros Hnd. unfold applyOptions.
  pose proof (Object_assign_NoDup _ (Some options)
                (getDefaults_NoDup className paramCase random)) as Hndm.
  pose proof (property_optionsWithDefaults className paramCase random options) as Hp.
  set (merged := Object_assign (getDefaults className paramCase random) (Some options))
    in *.
  destruct (find (λ p, is_nullish p.2) merged) as [[k' v]|] eqn:Hfind; [done|].
  intros [= <-] k. rewrite find_nullish_None in Hfind.
  assert (property (Object_assign this (Some merged)) k
          = match property options k with
            | Some v => Some v
            | None =>
                match property (getDefaults className paramCase random) k with
                | Some v => Some v
                | None => property this k
                end
            end) as Heq.
  { rewrite property_assign by done. rewrite Hp by done.
    by destruct (property options k). }
  split; [done|]. intros Hk.
  assert (is_Some (property merged k)) as [v Hv].
  { rewrite Hp by done. destruct (property options k) eqn:Ho; [done|].
    destruct (property (getDefaults className paramCase random) k) eqn:Hd; [done|].
    exfalso. destruct Hk as [Hk|Hk].
    - apply list_elem_of_fmap in Hk as ([k0 v0] & -> & Hin).
      apply (elem_property _ _ _ Hnd) in Hin. simpl in *. congruence.
    - apply list_elem_of_fmap in Hk as ([k0 v0] & -> & Hin).
      apply (elem_property _ _ _ (getDefaults_NoDup _ _ _)) in Hin. simpl in *.
      congruence. }
  exists v. split.
  - change (property (Object_assign this (Some merged)) k = Some v).
    rewrite Heq. rewrite Hp in Hv by done.
    destruct (property options k); [done|]. by rewrite Hv.
  - by apply property_Some_elem, Hfind in Hv.
Qed.

Lemma applyOptions_instance_witness :
  property (Object_assign [("data", OObject 9)]
              (Some (Object_assign (getDefaults "MySqlCache" id 0%float)
                       (Some test_options)))) "keyFieldName"
  = Some (OData (VPrim (PStr "id"))).
Proof.
  apply (applyOptions_instance "MySqlCache" id 0%float [("data", OObject 9)]
           test_options _ test_options_NoDup eq_refl "keyFieldName").
Defined.

(** The default interval is five minutes when [Math.random()] returns 0,
    and six minutes, after rounding, when it returns the largest number
    below 1. *)
Example default_interval_ends :
  property (getDefaults "MySqlCache" id 0%float) "reloadFromMySqlInterval"
  = Some (ONumber 300000%float)
  ∧ property (getDefaults "MySqlCache" id 0x1.fffffffffffffp-1%float)
      "reloadFromMySqlInterval"
    = Some (ONumber 360000%float).
Proof. split; vm_compute; reflexivity. Qed.

Lemma applyOptions_names_missing_examples :
  applyOptions "MySqlCache" id 0%float []
    (Some [("sql", OData (VPrim (PStr "SELECT 1"))); ("mysqlQueryable", OObject 0);
           ("keyFieldName", OData (VPrim PUndefined))])
  = OptionMissing "keyFieldName"
  ∧ applyOptions "MySqlCache" id 0%float []
      (Some [("sql", OData (VPrim (PStr "SELECT 1")))])
    = OptionMissing "mysqlQueryable".
Proof. split; reflexivity. Qed.

(** ** The timer *)

Lemma callbacks_cons o os :
  callbacks (o :: os)
  = match o with Callback ev => ev :: callbacks os | _ => callbacks os end.
Proof. by destruct o. Qed.

Lemma cycles_completed_cons o os :
  cycles_completed (o :: os)
  = match o with
    | Callback (DbDone _ _ _) => S (cycles_completed os)
    | _ => cycles_completed os
    end.
Proof.
  unfold cycles_completed. rewrite callbacks_cons.
  destruct o as [|[now q wr|now r]|]; try done.
Qed.

(** X13. After [destroy] no refresh cycle starts: in whatever happens to
    the instance afterwards the interval never fires, and the cycles that
    complete are cycles that had issued their query before, so at most as
    many as were under way.  [destroy] itself leaves the Index, the
    notifications and what is under way as they are: a cycle that is under
    way still completes, and swaps its Index in. *)
Theorem destroy_stops_refresh (cfg : config) (i i' : instance)
    (os : list occurrence) :
  occurs cfg (destroy i) os = Some i' →
  state (destroy i) = state i
  ∧ (Tick ∉ os)
  ∧ reloadTimer i' = false
  ∧ cycles_completed os + queries i' = queries i.
Proof.
  intros Hos. split; [done|].
  assert (reloadTimer (destroy i) = false) as Hoff by done.
  change (queries i) with (queries (destroy i)).
  revert Hos Hoff. generalize (destroy i). clear i.
  induction os as [|o os IH]; intros i; simpl.
  - intros [= <-] Hoff. split; [apply not_elem_of_nil|]. by split.
  - destruct (occur cfg i o) as [i1|] eqn:Ho; [|done]. intros Hos Hoff.
    rewrite cycles_completed_cons.
    destruct o as [|[now q wr|now r]|]; simpl in Ho.
    + by rewrite Hoff in Ho.
    + destruct (queries i) as [|n] eqn:Hq; [done|]. injection Ho as <-.
      destruct (IH _ Hos Hoff) as (Hno & Hoff' & Hcount). simpl in Hcount.
      split; [by intros [?|?]%elem_of_cons|]. split; [done|]. lia.
    + destruct (reading i); [|done]. injection Ho as <-.
      destruct (IH _ Hos Hoff) as (Hno & Hoff' & Hcount). simpl in Hcount.
      split; [by intros [?|?]%elem_of_cons|]. by split.
    + injection Ho as <-.
      destruct (IH _ Hos eq_refl) as (Hno & Hoff' & Hcount). simpl in Hcount.
      split; [by intros [?|?]%elem_of_cons|]. by split.
Qed.

Lemma destroy_stops_refresh_witness :
  state (destroy (startCache saving_cfg)) = state (startCache saving_cfg)
  ∧ (Tick ∉ [Callback (DbDone 1 (QRows empty_store []) None)])
  ∧ reloadTimer
      (Instance (loadFromDatabaseAndSaveToFile saving_cfg 1 (QRows empty_store []) None
                   new_cache) false 0 true) = false
  ∧ cycles_completed [Callback (DbDone 1 (QRows empty_store []) None)]
    + queries
        (Instance (loadFromDatabaseAndSaveToFile saving_cfg 1 (QRows empty_store [])
                     None new_cache) false 0 true)
    = queries (startCache saving_cfg).
Proof.
  apply (destroy_stops_refresh saving_cfg (startCache saving_cfg) _
           [Callback (DbDone 1 (QRows empty_store []) None)]).
  reflexivity.
Defined.

(** X14. The callbacks an instance receives are what the cache goes
    through: whatever happens to an instance from [startCache] on, its
    cache is the one the event loop reaches on the callbacks alone, the
    ticks of the interval and [destroy] changing nothing of it; the
    snapshot file is read at most once, and only with [shouldSaveToFile];
    and as many cycles complete, at most, as the interval has fired, and
    one more. *)
Theorem instance_runs_callbacks (cfg : config) (os : list occurrence)
    (i : instance) :
  occurs cfg (startCache cfg) os = Some i →
  state i = run cfg (callbacks os) new_cache
  ∧ reads_completed os ≤ (if shouldSaveToFile cfg then 1 else 0)
  ∧ cycles_completed os + queries i = 1 + ticks os.
Proof.
  assert (∀ os i0 i,
            (reading i0 = true → shouldSaveToFile cfg = true) →
            occurs cfg i0 os = Some i →
            state i = run cfg (callbacks os) (state i0)
            ∧ reads_completed os ≤ (if reading i0 then 1 else 0)
            ∧ cycles_completed os + queries i = queries i0 + ticks os) as Hgen.
  { clear. unfold reads_completed, ticks.
    induction os as [|o os IH]; intros i0 i Hrd; cbn [occurs].
    - intros [= <-]. split; [done|]. split; [simpl; lia|]. simpl. lia.
    - destruct (occur cfg i0 o) as [i1|] eqn:Ho; [|done]. intros Hos.
      rewrite cycles_completed_cons, callbacks_cons, filter_cons.
      destruct o as [|[now q wr|now r]|]; simpl in Ho.
      + destruct (reloadTimer i0); [|done]. injection Ho as <-.
        apply IH in Hos as (Hst & Hfile & Hcount); [|exact Hrd]. simpl in *.
        split; [done|]. split; [done|]. lia.
      + destruct (queries i0) as [|n] eqn:Hq; [done|]. injection Ho as <-.
        apply IH in Hos as (Hst & Hfile & Hcount); [|exact Hrd]. simpl in *.
        split; [done|]. split; [done|]. lia.
      + destruct (reading i0) eqn:Hr; [|done]. injection Ho as <-.
        apply IH in Hos as (Hst & Hfile & Hcount); [|done]. simpl in *.
        split; [by rewrite (Hrd eq_refl)|]. split; [lia|done].
      + injection Ho as <-.
        apply IH in Hos as (Hst & Hfile & Hcount); [|exact Hrd]. simpl in *. done. }
  intros Hos. destruct (Hgen os (startCache cfg) i) as (Hst & Hfile & Hcount);
    [done|done|].
  split; [done|]. split; [|done]. simpl in Hfile. by destruct (shouldSaveToFile cfg).
Qed.

Lemma instance_runs_callbacks_witness :
  state (Instance (loadFromDatabaseAndSaveToFile saving_cfg 1 (QRows empty_store [])
                     None new_cache) true 1 true)
  = run saving_cfg (callbacks [Tick; Callback (DbDone 1 (QRows empty_store []) None)])
      new_cache.
Proof.
  apply (instance_runs_callbacks saving_cfg
           [Tick; Callback (DbDone 1 (QRows empty_store []) None)]).
  reflexivity.
Defined.

(** ** A sequence value and one pair for each record *)

Lemma contribution_records Item h h' vs cs :
  objs h `prefix_of` objs h' →
  Forall (λ v, Forall (closed_item h) (elements h v)) vs →
  Forall2 (contribution Item h h') vs cs →
  Forall2 (λ r r', record_of Item (view h r) = Ok (view h' r'))
          (concat (elements h <$> vs)) (concat cs).
Proof.
  intros Hpre Hcl Hcs. induction Hcs as [|v c vs cs Hc _ IH]; [constructor|].
  apply Forall_cons in Hcl as [Hv Hcl]. rewrite fmap_cons. simpl.
  apply Forall2_app; [|by apply IH].
  unfold contribution in Hc. destruct Item as [cls|]; simpl.
  - eapply Forall2_impl; [exact Hc|].
    intros r r' (o & d & -> & Ho & Hd). simpl. by rewrite Ho.
  - subst c. apply Forall_Forall2_diag. eapply Forall_impl; [exact Hv|].
    intros r Hr. simpl. by rewrite (view_closed_prefix _ _ _ Hpre Hr).
Qed.

Lemma values_for_closed (h : store) key (mapItems : list mapItem) :
  (∀ k v, (k, v) ∈ mapItems → Forall (closed_item h) (elements h v)) →
  Forall (λ v, Forall (closed_item h) (elements h v)) (values_for key mapItems).
Proof.
  induction mapItems as [|[k v] mapItems IH]; intros Hcl; [constructor|]. simpl.
  assert (Forall (λ v, Forall (closed_item h) (elements h v))
                 (values_for key mapItems)) as Hrest.
  { apply IH. intros k0 v0 Hin. apply (Hcl k0). by right. }
  destruct (same_value_zero k key); [|done].
  constructor; [|done]. apply (Hcl k). by left.
Qed.

(** What the reads return from the Index the merge loop builds, when no
    array is the value of two pairs: the copies of the records the pairs
    of the key contribute, in order. *)
Lemma merged_reads Item mapItems h h' m key :
  NoDup (seq_refs mapItems) →
  (∀ a, a ∈ seq_refs mapItems → a < length (arrs h)) →
  (∀ k v, (k, v) ∈ mapItems → Forall (closed_item h) (elements h v)) →
  merge_loop Item mapItems h [] = Ok (h', m) →
  lookup key (serving h' m)
  = mapM (λ r, copy_of Item (view h r)) (records_for h key mapItems)
  ∧ lookupFirst key (serving h' m)
    = match records_for h key mapItems with
      | [] => Ok (VPrim PNull)
      | r :: _ => copy_of Item (view h r)
      end.
Proof.
  intros Hnd Hvalid Hcl Hloop.
  pose proof (merge_loop_inv Item h mapItems [] h [] h' m Hnd Hvalid Hcl
                (merge_inv_nil Item h) Hloop) as (Hpre & _ & _ & _ & _ & Hkeys).
  specialize (Hkeys key). simpl in Hkeys.
  rewrite lookup_eq, lookupFirst_eq. simpl. unfold records_for.
  destruct (map_get m key) as [a|]; [|by rewrite Hkeys].
  destruct Hkeys as (_ & cs & Hcs & Harr). rewrite Harr.
  apply (contribution_records _ _ _ _ _ Hpre (values_for_closed _ _ _ Hcl)) in Hcs.
  assert (∀ r r', record_of Item (view h r) = Ok (view h' r') →
                  copy_of Item (view h r) = json_clone (view h' r')) as Hcopy.
  { intros r r' Hr. unfold copy_of. by rewrite Hr. }
  split.
  - unfold stringify_items. symmetry. by eapply mapM_result_rel.
  - destruct Hcs as [|r r' l l' Hr _]; [done|]. symmetry. by apply Hcopy.
Qed.






Example empty_sequence_changes_key_order :
  let mapItems := [(VPrim (PNum 1), Seq 0);
                   (VPrim (PNum 2), Scalar (IPrim (PStr "x")));
                   (VPrim (PNum 1), Scalar (IPrim (PStr "y")))] in
  let h := Store [[]] [] in
  (∃ h1 m1, merge_loop None mapItems h [] = Ok (h1, m1)
            ∧ lookupAll (serving h1 m1) = Ok [VPrim (PStr "y"); VPrim (PStr "x")])
  ∧ ∃ h2 m2, merge_loop None (pairs_of h mapItems) h [] = Ok (h2, m2)
             ∧ lookupAll (serving h2 m2) = Ok [VPrim (PStr "x"); VPrim (PStr "y")].
Proof. split; eexists _, _; split; reflexivity. Qed.


(** ** When a read throws *)

(** [JSON.stringify] of plain data throws exactly on a BigInt, and what it
    throws is a [TypeError]. *)
Lemma json_clone_bigint d :
  if has_bigint d then json_clone d = Throw TypeError else ∃ j, json_clone d = Ok j.
Proof.
  induction d as [p|es IH|fs IH] using value_ind'.
  - destruct p; simpl; eauto.
  - rewrite json_clone_arr. cbn [has_bigint].
    induction IH as [|e es He _ IHes]; [by exists (VArr [])|].
    rewrite mapM_result_cons. cbn [existsb].
    destruct (has_bigint e); simpl.
    + by rewrite He.
    + destruct He as [j ->]. simpl.
      destruct (existsb has_bigint es).
      * destruct (mapM json_clone es); simpl in *; [done|congruence].
      * destruct IHes as [js Hjs]. destruct (mapM json_clone es); simpl in *; [|done].
        by eexists.
  - rewrite json_clone_obj. cbn [has_bigint].
    induction IH as [|[k v] fs Hv _ IHfs]; [by exists (VObj [])|].
    cbn [existsb snd]. simpl in Hv.
    assert (v = VPrim PUndefined ∨ v ≠ VPrim PUndefined) as [->|Hne]
      by (destruct v as [[]|?|?]; (by left) || (by right)).
    + rewrite json_fields_cons_undefined. done.
    + rewrite json_fields_cons by done.
      destruct (has_bigint v); simpl.
      * by rewrite Hv.
      * destruct Hv as [j ->]. simpl.
        destruct (existsb (λ f, has_bigint f.2) fs).
        -- destruct (json_fields json_clone fs); simpl in *; [done|congruence].
        -- destruct IHfs as [js Hjs].
           destruct (json_fields json_clone fs); simpl in *; [|done]. by eexists.
Qed.

Lemma stringify_items_bigint h items :
  if existsb (λ r, has_bigint (view h r)) items
  then stringify_items h items = Throw TypeError
  else ∃ js, stringify_items h items = Ok js.
Proof.
  unfold stringify_items. induction items as [|r items IH]; [by exists []|].
  rewrite mapM_result_cons. cbn [existsb].
  pose proof (json_clone_bigint (view h r)) as Hr.
  destruct (has_bigint (view h r)); simpl.
  - by rewrite Hr.
  - destruct Hr as [j ->]. simpl.
    destruct (existsb (λ r, has_bigint (view h r)) items).
    + by rewrite IH.
    + destruct IH as [js ->]. by eexists.
Qed.

(** X16. [JSON.stringify] throws a [TypeError] on a BigInt, and that is
    the one way in which [getValues] and [getFirstValue] throw: for a
    scalar key, [getValues(key)] throws the [TypeError] when one of the
    records of the key holds a BigInt and returns otherwise, and
    [getFirstValue(key)] throws it when the first record of the key does
    and returns otherwise.  [getAll] returns only when no record of the
    Index holds a BigInt. *)
Theorem reads_throw_on_bigint (key : value) (c : cache) :
  scalar_key key →
  (if existsb (λ r, has_bigint (view (mem c) r))
              (default [] (arr (mem c) <$> map_get (data c) key))
   then lookup key c = Throw TypeError
   else ∃ l, lookup key c = Ok l)
  ∧ (if existsb (λ r, has_bigint (view (mem c) r))
                (take 1 (default [] (arr (mem c) <$> map_get (data c) key)))
     then lookupFirst key c = Throw TypeError
     else ∃ j, lookupFirst key c = Ok j)
  ∧ (∀ l, lookupAll c = Ok l →
          existsb (λ r, has_bigint (view (mem c) r))
                  (concat (map (λ e, arr (mem c) e.2) (data c))) = false).
Proof.
  intros _. rewrite lookup_eq, lookupFirst_eq, lookupAll_eq. split; [|split].
  - destruct (map_get (data c) key) as [a|]; simpl; [|by exists []].
    apply stringify_items_bigint.
  - destruct (map_get (data c) key) as [a|]; simpl; [|by eexists].
    destruct (arr (mem c) a) as [|r rs]; simpl; [by eexists|].
    pose proof (json_clone_bigint (view (mem c) r)) as Hr.
    by destruct (has_bigint (view (mem c) r)).
  - intros l Hl.
    pose proof (stringify_items_bigint (mem c)
                  (concat (map (λ e, arr (mem c) e.2) (data c)))) as Hall.
    destruct (existsb _ _); [|done]. by rewrite Hall in Hl.
Qed.

Lemma reads_throw_on_bigint_witness :
  scalar_key (VPrim (PStr "k"))
  ∧ lookup (VPrim (PStr "k")) bigint_cache = Throw TypeError
  ∧ lookupFirst (VPrim (PStr "k")) bigint_cache = Ok (VPrim (PNum 1)).
Proof.
  split; [exact I|].
  destruct (reads_throw_on_bigint (VPrim (PStr "k")) bigint_cache I)
    as (Hvalues & _ & _).
  split; [exact Hvalues|reflexivity].
Defined.

(** ** A restart with the record class of the tests *)

Lemma run_all_constructed cfg cls evs c :
  itemClass cfg = Some cls →
  all_constructed cls (mem c) (data c) →
  all_constructed cls (mem (run cfg evs c)) (data (run cfg evs c)).
Proof.
  intros HItem. unfold run. revert c.
  induction evs as [|ev evs IH]; intros c Hc; simpl; [done|].
  apply IH. by apply step_all_constructed.
Qed.

(** X17. A restart with [TestRow], the record class of the tests
    ([Object.assign(this, data)]).  Whatever state a cache configured with
    it has reached, if its keys are scalars and JSON values, the snapshot
    [saveToFile]
    writes of it lets a new instance serve, from the file alone, exactly
    what the old one served: [getValues] and [getFirstValue] for every
    key, and [getAll], return the same by value, although every record
    has gone through the constructor once more. *)
Theorem restart_with_TestRow (cfg : config) (evs : list completion)
    (s : snapshot) (now : nat) :
  itemClass cfg = Some TestRow →
  Forall scalar_key (data (run cfg evs new_cache)).*1 →
  Forall (λ k, json_clone k = Ok k) (data (run cfg evs new_cache)).*1 →
  saveToFile None (run cfg evs new_cache) = Ok s →
  (∀ key,
     lookup key (loadCacheFromFile cfg now (ReadOk (FileJson s)) new_cache)
     = lookup key (run cfg evs new_cache)
     ∧ lookupFirst key (loadCacheFromFile cfg now (ReadOk (FileJson s)) new_cache)
       = lookupFirst key (run cfg evs new_cache))
  ∧ lookupAll (loadCacheFromFile cfg now (ReadOk (FileJson s)) new_cache)
    = lookupAll (run cfg evs new_cache).
Proof.
  intros HItem _ Hkeys Hsave.
  destruct (snapshot_relates cfg (run cfg evs new_cache) new_cache s now)
    as [Hc Hc']; [done| |done| |].
  - apply run_keys_NoDup. constructor.
  - rewrite HItem. apply (TestRow_stable (run cfg evs new_cache)); [|done].
    apply run_all_constructed; [done|]. apply all_constructed_nil.
  - split.
    + intros key.
      pose proof (lookup_via_snapshot _ s key Hc) as Hl.
      pose proof (lookup_via_snapshot _ s key Hc') as Hl'.
      split; [by rewrite Hl, Hl'|].
      by rewrite (lookupFirst_head _ _ _ Hl), (lookupFirst_head _ _ _ Hl').
    + by rewrite (lookupAll_via_snapshot _ s Hc), (lookupAll_via_snapshot _ s Hc').
Qed.

Lemma restart_with_TestRow_witness :
  lookupAll (loadCacheFromFile test_cfg 2 (ReadOk (FileJson test_snapshot)) new_cache)
  = lookupAll
      (run test_cfg [DbDone 1 (QRows test_rows_store [IObj 0; IObj 1]) None] new_cache).
Proof.
  apply (restart_with_TestRow test_cfg
           [DbDone 1 (QRows test_rows_store [IObj 0; IObj 1]) None] test_snapshot 2).
  - reflexivity.
  - vm_compute. by constructor.
  - vm_compute. by constructor.
  - reflexivity.
Defined.

(** ** Mappers that make new records: the mappers of the tests *)

Lemma arr_prefix h h' a :
  arrs h `prefix_of` arrs h' → a < length (arrs h) → arr h' a = arr h a.
Proof.
  intros [l Hl] Ha. unfold arr. by rewrite Hl, lookup_app_l.
Qed.

Lemma is_row_prefix keyField h h' row :
  objs h `prefix_of` objs h' → is_row keyField h row →
  is_row keyField h' row ∧ view h' row = view h row
  ∧ row_key keyField h' row = row_key keyField h row.
Proof.
  intros Hpre Hrow. pose proof (is_row_closed _ _ _ Hrow) as Hcl.
  pose proof (view_closed_prefix _ _ _ Hpre Hcl) as Hview.
  split; [|split; [done|unfold row_key; by rewrite Hview]].
  destruct Hrow as (o & fs & -> & Ho & Hf). exists o, fs.
  split; [done|]. split; [|done]. simpl in Hview. simpl in Hcl.
  destruct Hpre as [l Hl]. by rewrite Hl, lookup_app_l.
Qed.

Lemma elem_of_concat {A} (ls : list (list A)) (x : A) :
  x ∈ concat ls ↔ ∃ l, l ∈ ls ∧ x ∈ l.
Proof.
  induction ls as [|l0 ls IH]; simpl.
  - split; [by intros ?%not_elem_of_nil|]. by intros (l & ?%not_elem_of_nil & _).
  - rewrite elem_of_app, IH. split.
    + intros [Hx|(l & Hl & Hx)]; [exists l0; split; [by left|done]|].
      exists l. split; [by right|done].
    + intros (l & [->|Hl]%elem_of_cons & Hx); [by left|right; by exists l].
Qed.

Lemma is_row_view keyField h h' row :
  objs h `prefix_of` objs h' → is_row keyField h row → view h' row = view h row.
Proof. intros Hpre Hrow. by apply (is_row_prefix keyField h h' row Hpre Hrow). Qed.

Lemma is_row_key keyField h h' row :
  objs h `prefix_of` objs h' → is_row keyField h row →
  row_key keyField h' row = row_key keyField h row.
Proof. intros Hpre Hrow. by apply (is_row_prefix keyField h h' row Hpre Hrow). Qed.

Lemma rows_of_key_ext keyField h h' key rows :
  (∀ row, row ∈ rows → row_key keyField h' row = row_key keyField h row) →
  rows_of_key keyField h' key rows = rows_of_key keyField h key rows.
Proof.
  induction rows as [|row rows IH]; intros Hext; [done|].
  rewrite !rows_of_key_cons, Hext by (by left).
  rewrite IH; [done|]. intros row' Hin. apply Hext. by right.
Qed.

Lemma values_for_same_key key (its : list mapItem) k0 :
  Forall (λ it, it.1 = k0) its →
  values_for key its = if same_value_zero k0 key then its.*2 else [].
Proof.
  induction 1 as [|[k v] its Hk _ IH]; [by destruct (same_value_zero k0 key)|].
  simpl in Hk. subst k. rewrite fmap_cons. cbn [values_for snd]. rewrite IH.
  by destruct (same_value_zero k0 key).
Qed.

Lemma elements_prefix h h' v :
  arrs h `prefix_of` arrs h' →
  (∀ a, v = Seq a → a < length (arrs h)) →
  elements h' v = elements h v.
Proof.
  intros Hpre Hv. destruct v as [r|a]; [done|]. simpl.
  apply arr_prefix; [done|]. by apply Hv.
Qed.

Lemma seq_refs_elem (its : list mapItem) k a : (k, Seq a) ∈ its → a ∈ seq_refs its.
Proof.
  induction its as [|[k0 v0] its IH]; [by intros ?%not_elem_of_nil|].
  intros [[= <- <-]|Hin]%elem_of_cons; simpl.
  - by left.
  - destruct v0; [by apply IH|]. right. by apply IH.
Qed.

(** What a mapper that files new records for every row returns for the
    rows of a query: pairs that name distinct new arrays, whose records,
    key by key, have the contents the mapper makes of the rows of that
    key, in the order of the query. *)
Lemma map_multi_files keyField out f :
  files_rows keyField out f →
  ∀ rows h, Forall (is_row keyField h) rows →
    ∃ mapItems h',
      map_multi f rows [] h = Ok (mapItems, h')
      ∧ arrs h `prefix_of` arrs h'
      ∧ objs h `prefix_of` objs h'
      ∧ (∀ key, view h' <$> records_for h' key mapItems
                = concat ((λ row, out (view h row))
                            <$> rows_of_key keyField h key rows))
      ∧ NoDup (seq_refs mapItems)
      ∧ Forall (λ a, length (arrs h) ≤ a < length (arrs h')) (seq_refs mapItems)
      ∧ Forall (λ it, Forall (closed_item h') (elements h' it.2)) mapItems.
Proof.
  intros Hf. induction rows as [|row rows IH]; intros h Hrows.
  - exists [], h. repeat split; try done; constructor.
  - apply Forall_cons in Hrows as [Hrow Hrows].
    destruct (Hf row h Hrow)
      as (its & h1 & Hfr & Ha1 & Ho1 & Hkeys & Hout & Hnd1 & Hrange1 & Hcl1).
    assert (Forall (is_row keyField h1) rows) as Hrows1.
    { eapply Forall_impl; [exact Hrows|]. intros r Hr.
      by apply (is_row_prefix _ h h1). }
    destruct (IH h1 Hrows1)
      as (rest & h' & Hrest & Ha2 & Ho2 & Hrecs & Hnd2 & Hrange2 & Hcl2).
    exists (its ++ rest), h'. cbn [map_multi]. rewrite Hfr. simpl.
    rewrite map_multi_acc, Hrest. simpl.
    split; [done|]. split; [by etrans|]. split; [by etrans|].
    pose proof (prefix_length _ _ Ha1) as Hlen1.
    pose proof (prefix_length _ _ Ha2) as Hlen2.
    assert (∀ it, it ∈ its → elements h' it.2 = elements h1 it.2) as Hel.
    { intros [k v] Hin. simpl. apply elements_prefix; [done|].
      intros a ->. apply seq_refs_elem in Hin.
      rewrite Forall_forall in Hrange1. apply Hrange1 in Hin. lia. }
    split; [|split; [|split]].
    + intros key. unfold records_for in *.
      rewrite values_for_app, fmap_app, concat_app, fmap_app, Hrecs.
      rewrite rows_of_key_cons.
      rewrite (rows_of_key_ext keyField h h1 key rows).
      2:{ intros r Hr. rewrite Forall_forall in Hrows.
          apply is_row_key; [done|]. by apply Hrows. }
      assert ((λ row0, out (view h1 row0)) <$> rows_of_key keyField h key rows
              = (λ row0, out (view h row0)) <$> rows_of_key keyField h key rows) as ->.
      { apply list_fmap_ext. intros i r Hr. f_equal.
        apply list_elem_of_lookup_2, list_elem_of_filter in Hr as [_ Hr].
        rewrite Forall_forall in Hrows.
        apply (is_row_view keyField); [done|]. by apply Hrows. }
      rewrite (values_for_same_key key its _ Hkeys).
      destruct (same_value_zero (row_key keyField h row) key); [|done].
      rewrite fmap_cons. cbn [concat]. f_equal. rewrite <- Hout.
      assert (elements h' <$> its.*2 = elements h1 <$> its.*2) as ->.
      { rewrite <- !list_fmap_compose. apply list_fmap_ext.
        intros i it Hit. simpl. apply Hel. by eapply list_elem_of_lookup_2. }
      apply list_fmap_ext. intros i r Hr. apply view_closed_prefix; [done|].
      apply list_elem_of_lookup_2, elem_of_concat in Hr as (l & Hl & Hr).
      apply list_elem_of_fmap in Hl as (v & -> & Hv).
      apply list_elem_of_fmap in Hv as (it & -> & Hit).
      rewrite Forall_forall in Hcl1. specialize (Hcl1 it Hit).
      rewrite Forall_forall in Hcl1. by apply Hcl1.
    + rewrite seq_refs_app. apply NoDup_app. split; [done|]. split; [|done].
      intros a Ha Ha'. rewrite Forall_forall in Hrange1, Hrange2.
      apply Hrange1 in Ha. apply Hrange2 in Ha'. lia.
    + rewrite seq_refs_app. apply Forall_app. split.
      * eapply Forall_impl; [exact Hrange1|]. intros a ?. simpl in *. lia.
      * eapply Forall_impl; [exact Hrange2|]. intros a ?. simpl in *. lia.
    + apply Forall_app. split; [|done].
      apply Forall_forall. intros it Hit. rewrite (Hel it Hit).
      rewrite Forall_forall in Hcl1. specialize (Hcl1 it Hit).
      by apply (Forall_closed_prefix h1 h').
Qed.

(** What the reads return after a cycle whose mapper files new records
    for every row. *)
Lemma mapper_reads cfg keyField out f now h rows c c' :
  files_rows keyField out f →
  (∀ rows h, map_rows cfg rows h = map_multi f rows [] h) →
  Forall (is_row keyField h) rows →
  loadFromDatabase cfg now (QRows h rows) c = Ok c' →
  ∀ key, lookup key c'
         = mapM (copy_of (itemClass cfg))
                (concat ((λ row, out (view h row))
                           <$> rows_of_key keyField h key rows)).
Proof.
  intros Hf Hmap Hrows. unfold loadFromDatabase. simpl. case_bool_decide as Hlen.
  - rewrite setData_eq. simpl. intros [= <-] key. by destruct rows.
  - rewrite Hmap.
    destruct (map_multi_files _ _ _ Hf rows h Hrows)
      as (mapItems & h1 & -> & _ & _ & Hrecs & Hnd & Hrange & Hcl).
    simpl.
    destruct (merge_loop (itemClass cfg) mapItems h1 []) as [[h2 m]|e] eqn:Hm;
      simpl; [|done].
    rewrite setData_eq. simpl. intros [= <-] key.
    destruct (merged_reads (itemClass cfg) mapItems h1 h2 m key) as [Hl _];
      [done| | |done|].
    + intros a Ha. rewrite Forall_forall in Hrange. apply Hrange in Ha. lia.
    + intros k v Hin. rewrite Forall_forall in Hcl. apply (Hcl (k, v) Hin).
    + rewrite lookup_eq in Hl |- *. simpl in *. rewrite Hl.
      rewrite <- (mapM_result_fmap (copy_of (itemClass cfg)) (view h1)).
      by rewrite Hrecs.
Qed.

Lemma lookup_three {A} (l : list A) x y z :
  (((l ++ [x]) ++ [y]) ++ [z]) !! length l = Some x
  ∧ (((l ++ [x]) ++ [y]) ++ [z]) !! length (l ++ [x]) = Some y
  ∧ (((l ++ [x]) ++ [y]) ++ [z]) !! length ((l ++ [x]) ++ [y]) = Some z.
Proof.
  split; [|split].
  - rewrite <- !app_assoc. by apply list_lookup_middle.
  - rewrite <- (app_assoc (l ++ [x])). by apply list_lookup_middle.
  - by apply list_lookup_middle.
Qed.

Lemma test_parseDataRow_files keyField :
  files_rows keyField triple (one_pair (test_parseDataRow keyField)).
Proof.
  intros row h Hrow. eexists _, _. split; [reflexivity|]. simpl.
  split; [by apply prefix_app_r|].
  split; [rewrite <- !app_assoc; by apply prefix_app_r|].
  split; [by constructor|].
  destruct (lookup_three (objs h) (VObj [("t1", view h row)]) (VObj [("t2", view h row)])
              (VObj [("t3", view h row)])) as (H1 & H2 & H3).
  assert (∀ (l : list (list item)) x, (l ++ [x]) !! length l = Some x) as Hlast.
  { intros l x. by rewrite lookup_app_r, Nat.sub_diag by lia. }
  unfold arr. simpl. rewrite Hlast. simpl. rewrite H1, H2, H3. simpl.
  split; [done|]. split; [apply NoDup_singleton|].
  split; [constructor; [rewrite length_app; simpl; lia|constructor]|].
  constructor; [|constructor]. simpl. unfold arr. simpl. rewrite Hlast. simpl.
  repeat (apply Forall_cons; split); [| | |apply Forall_nil];
    simpl; rewrite ?length_app; simpl; lia.
Qed.

Lemma test_parseDataMultiRow_files keyField :
  files_rows keyField triple (test_parseDataMultiRow keyField).
Proof.
  intros row h Hrow. eexists _, _. split; [reflexivity|]. simpl.
  split; [done|].
  split; [rewrite <- !app_assoc; by apply prefix_app_r|].
  split; [by repeat constructor|].
  destruct (lookup_three (objs h) (VObj [("t1", view h row)]) (VObj [("t2", view h row)])
              (VObj [("t3", view h row)])) as (H1 & H2 & H3).
  rewrite H1, H2, H3. simpl.
  split; [done|]. split; [constructor|]. split; [constructor|].
  repeat (apply Forall_cons; split; [simpl; apply Forall_singleton|]);
    [| | |apply Forall_nil]; simpl; rewrite ?length_app; simpl; lia.
Qed.

Lemma copy_of_triples ds :
  mapM (copy_of (Some TestRow)) (concat (triple <$> ds))
  = mapM json_clone (concat (triple <$> ds)).
Proof.
  apply mapM_result_ext. intros d (l & Hl & Hd)%elem_of_concat.
  apply list_elem_of_fmap in Hl as (d0 & -> & _).
  unfold triple in Hd.
  repeat (apply elem_of_cons in Hd as [->|Hd]; [done|]).
  by apply not_elem_of_nil in Hd.
Qed.

(** X18. The two suites "multiple records handling" of the tests, for
    every table.  With the record class [TestRow] and the [parseDataRow]
    option of the tests (one pair for a row, whose value is the sequence
    [{t1: row}, {t2: row}, {t3: row}]), and with their [parseDataMultiRow]
    option (three pairs for a row, one for each of these records), a cycle
    serves the same: for every scalar key, [getValues] returns the copies
    of the three records of each row of that key, in the order of the
    query, so three times as many records as the query has rows of the
    key. *)
Theorem test_mappers_serve_triples (keyField : string) (now : nat) (h : store)
    (rows : list item) (c c1 c2 : cache) :
  Forall (is_row keyField h) rows →
  loadFromDatabase (test_parseDataRow_cfg keyField) now (QRows h rows) c = Ok c1 →
  loadFromDatabase (test_parseDataMultiRow_cfg keyField) now (QRows h rows) c = Ok c2 →
  ∀ key, scalar_key key →
    lookup key c1
    = mapM json_clone
        (concat (triple <$> (view h <$> rows_of_key keyField h key rows)))
    ∧ lookup key c2 = lookup key c1
    ∧ ∀ l, lookup key c1 = Ok l →
           length l = 3 * length (rows_of_key keyField h key rows).
Proof.
  intros Hrows H1 H2 key _.
  pose proof (mapper_reads (test_parseDataRow_cfg keyField) keyField triple
                (one_pair (test_parseDataRow keyField)) now h rows c c1
                (test_parseDataRow_files keyField)
                (λ rows h, map_single_multi (test_parseDataRow keyField) rows [] h)
                Hrows H1 key) as Hl1.
  pose proof (mapper_reads (test_parseDataMultiRow_cfg keyField) keyField triple
                (test_parseDataMultiRow keyField) now h rows c c2
                (test_parseDataMultiRow_files keyField)
                (λ rows h, eq_refl) Hrows H2 key) as Hl2.
  simpl in Hl1, Hl2.
  rewrite (list_fmap_compose (view h) triple) in Hl1, Hl2.
  rewrite copy_of_triples in Hl1, Hl2.
  split; [done|]. split; [by rewrite Hl1, Hl2|].
  intros l Hl. rewrite Hl1 in Hl. apply mapM_result_length in Hl. rewrite Hl.
  clear. induction (rows_of_key keyField h key rows) as [|r rs IH]; [done|].
  rewrite !fmap_cons. simpl. rewrite IH. lia.
Qed.

Lemma test_mappers_serve_triples_witness :
  ∃ c1 c2,
    loadFromDatabase (test_parseDataRow_cfg "id") 1
      (QRows test_rows_store [IObj 0; IObj 1]) new_cache = Ok c1
    ∧ loadFromDatabase (test_parseDataMultiRow_cfg "id") 1
        (QRows test_rows_store [IObj 0; IObj 1]) new_cache = Ok c2
    ∧ lookup (VPrim (PNum 7)) c2 = lookup (VPrim (PNum 7)) c1.
Proof.
  eexists _, _. split; [vm_compute; reflexivity|]. split; [vm_compute; reflexivity|].
  refine (proj1 (proj2 (test_mappers_serve_triples "id" 1 test_rows_store
                          [IObj 0; IObj 1] new_cache _ _ test_rows_are_rows
                          _ _ (VPrim (PNum 7)) I))); vm_compute; reflexivity.
Defined.

(** Two rows of key 7: six records under the key, with either option. *)
Example test_mappers_run :
  (length <$> lookup (VPrim (PNum 7))
                (run (test_parseDataRow_cfg "id")
                   [DbDone 1 (QRows test_rows_store [IObj 0; IObj 1]) None] new_cache))
  = Ok 6
  ∧ (length <$> lookupAll
                  (run (test_parseDataMultiRow_cfg "id")
                     [DbDone 1 (QRows test_rows_store [IObj 0; IObj 1]) None]
                     new_cache))
    = Ok 6.
Proof. split; vm_compute; reflexivity. Qed.

(** ** What the snapshot file holds *)

(** X19. What [saveToFile] writes is what the reads return: in every
    state the cache reaches, the snapshot has one pair for each key of the
    Index, in the order of insertion, made of the key as [JSON.stringify]
    writes it and of the records [getValues] returns for that key; and
    the records of the file, one pair after the other, are what [getAll]
    returns, whenever it returns. *)
Theorem saveToFile_writes_what_reads_return (cfg : config) (evs : list completion)
    (s : snapshot) :
  saveToFile None (run cfg evs new_cache) = Ok s →
  Forall2 (λ k se, json_clone k = Ok se.1
                   ∧ lookup k (run cfg evs new_cache) = Ok se.2)
          (data (run cfg evs new_cache)).*1 s
  ∧ ∀ l, lookupAll (run cfg evs new_cache) = Ok l → l = concat s.*2.
Proof.
  pose proof (run_keys_NoDup cfg evs new_cache (NoDup_nil_2 : NoDup [])) as Hnd.
  set (c := run cfg evs new_cache) in *.
  intros Hsave%saved_snapshot. split.
  - apply Forall2_fmap_l.
    eapply (Forall2_impl_l (λ e, e ∈ data c)); [by apply Forall_forall|exact Hsave|].
    intros [k a] [k' js] Hin [Hk Hjs]. simpl in *. split; [done|].
    by rewrite lookup_eq, (map_get_NoDup _ _ _ Hnd Hin).
  - assert (lookupAll c = Ok (concat s.*2)) as Hall.
    { rewrite lookupAll_eq. apply stringify_items_concat.
      generalize dependent (data c). intros m _ Hm.
      induction Hm as [|[k a] [k' js] m s [_ Hjs] _ IH]; [constructor|].
      rewrite fmap_cons. simpl. by constructor. }
    intros l Hl. rewrite Hall in Hl. by injection Hl as <-.
Qed.

Lemma saveToFile_writes_what_reads_return_witness :
  saveToFile None
    (run test_cfg [DbDone 1 (QRows test_rows_store [IObj 0; IObj 1]) None] new_cache)
  = Ok test_snapshot
  ∧ Forall2 (λ k se, json_clone k = Ok se.1 ∧ lookup k test_cache = Ok se.2)
            [VPrim (PNum 7)] test_snapshot.
Proof.
  split; [reflexivity|].
  exact (proj1 (saveToFile_writes_what_reads_return test_cfg
                  [DbDone 1 (QRows test_rows_store [IObj 0; IObj 1]) None]
                  test_snapshot eq_refl)).
Defined.

Lemma map_get_map_set m k a key :
  map_get (map_set m k a) key = if same_value_zero k key then Some a else map_get m key.
Proof.
  destruct (same_value_zero k key) eqn:Hk.
  - apply same_value_zero_spec in Hk as ->. apply map_get_set_eq.
  - apply map_get_set_ne. intros ->. by rewrite same_value_zero_refl in Hk.
Qed.

(** [new Map(entries)] maps a key to the value of the last entry with
    that key. *)
Lemma map_get_new_Map entries key : map_get (new_Map entries) key = last_pair entries key.
Proof.
  unfold new_Map.
  assert (∀ m, map_get (foldl (λ m e, map_set m e.1 e.2) m entries) key
               = match last_pair entries key with
                 | Some a => Some a
                 | None => map_get m key
                 end) as Hgen.
  { induction entries as [|[k a] entries IH]; intros m; [done|]. simpl.
    rewrite IH, map_get_map_set.
    by destruct (last_pair entries key), (same_value_zero k key). }
  rewrite Hgen. by destruct (last_pair entries key).
Qed.

Lemma last_pair_Forall2 {A B} (R : A → B → Prop) (l : list (value * A))
    (k : list (value * B)) key :
  Forall2 (λ e se, e.1 = se.1 ∧ R e.2 se.2) l k →
  match last_pair l key, last_pair k key with
  | Some x, Some y => R x y
  | None, None => True
  | _, _ => False
  end.
Proof.
  induction 1 as [|[k1 x] [k2 y] l k [Hk HR] _ IH]; [done|]. simpl in *. subst k2.
  destruct (last_pair l key), (last_pair k key); try done.
  by destruct (same_value_zero k1 key).
Qed.

(** The constructor loop of [setData] over the parsed pairs, when it goes
    through: every array holds, record for record, objects with the
    content the constructor returned. *)
Lemma construct_entries_rel cls entries : ∀ h h',
  NoDup entries.*2 →
  (∀ k a, (k, a) ∈ entries → Forall (closed_item h) (arr h a)) →
  construct_entries cls entries h = Ok h' →
  objs h `prefix_of` objs h'
  ∧ (∀ b, b ∉ entries.*2 → arr h' b = arr h b)
  ∧ ∀ k a, (k, a) ∈ entries →
           Forall2 (λ r r', closed_item h' r' ∧ cls (view h r) = Ok (view h' r'))
                   (arr h a) (arr h' a).
Proof.
  induction entries as [|[k a] entries IH]; intros h h' Hnd Hgood; simpl.
  - intros [= <-]. repeat split; try done. by intros k a ?%not_elem_of_nil.
  - rewrite fmap_cons in Hnd. apply NoDup_cons in Hnd as [Hnotin Hnd]. simpl in Hnotin.
    pose proof (Hgood k a ltac:(by left)) as Hga.
    destruct (construct_array cls a h) as [h1|e] eqn:Hc; simpl; [|done].
    intros Hrest.
    pose proof (construct_array_rel _ _ _ _ Hc Hga) as Hrel.
    pose proof Hc as Hcs%construct_array_Ok.
    pose proof (constructs_prefix _ _ _ _ _ Hcs) as Hpre1.
    destruct Hcs as (_ & Hother & _ & _).
    destruct (IH h1 h' Hnd) as (Hpre & Hout & Hall); [|done|].
    { intros k0 a0 Hin. assert (a0 ≠ a) as Hne.
      { intros ->. apply Hnotin. apply list_elem_of_fmap. by exists (k0, a). }
      rewrite Hother by congruence.
      eapply Forall_closed_prefix; [done|]. apply (Hgood k0 a0). by right. }
    split; [by etrans|]. split.
    { intros b [Hb1 Hb2]%not_elem_of_cons.
      rewrite Hout by done. apply Hother. congruence. }
    intros k0 a0 [[= -> ->]|Hin]%elem_of_cons.
    + rewrite Hout by done.
      eapply Forall2_impl; [apply Hrel|].
      intros r r' [Hcl Hr]. split; [by eapply closed_item_prefix|].
      by rewrite (view_closed_prefix _ _ _ Hpre Hcl).
    + assert (a0 ≠ a) as Hne.
      { intros ->. apply Hnotin. apply list_elem_of_fmap. by exists (k0, a). }
      specialize (Hall k0 a0 Hin). rewrite Hother in Hall by congruence.
      eapply Forall2_impl_l; [apply (Hgood k0 a0); by right|done|].
      intros r r' Hcl [Hcl' Hr]. split; [done|].
      by rewrite <- (view_closed_prefix _ _ _ Hpre1 Hcl).
Qed.

(** X20. What a snapshot file serves.  When [loadCacheFromFile] has
    emitted ['update'] for a file that holds an array of pairs (without a
    record constructor it always does), the Index it has installed maps a
    scalar key to the records of the last pair of the file with that key,
    as [new Map(pairs)] does: [getValues(key)] returns the copies of these
    records, each passed through the constructor when one is configured,
    and an empty array for a key no pair has.  Pairs of the file that come
    before another pair with the same key are not served. *)
Theorem snapshot_file_serves_last_pair (cfg : config) (now : nat) (s : snapshot)
    (c0 : cache) :
  (itemClass cfg = None →
   emitted (loadCacheFromFile cfg now (ReadOk (FileJson s)) c0)
   = emitted c0 ++ [EvUpdate])
  ∧ (emitted (loadCacheFromFile cfg now (ReadOk (FileJson s)) c0)
     = emitted c0 ++ [EvUpdate] →
     ∀ key, scalar_key key →
            lookup key (loadCacheFromFile cfg now (ReadOk (FileJson s)) c0)
            = mapM (copy_of (itemClass cfg)) (default [] (last_pair s key))).
Proof.
  unfold loadCacheFromFile, parse_file.
  destruct (parse_snapshot s empty_store) as [entries h0] eqn:Hparse.
  pose proof (parse_snapshot_keys _ _ _ _ Hparse) as Hk.
  apply parse_snapshot_empty in Hparse as (_ & Hnd & Hall).
  pose proof (Forall2_conj _ _ _ _ Hk Hall) as Hboth. simpl in Hboth.
  rewrite setData_eq. unfold setData_index.
  destruct (itemClass cfg) as [cls|]; simpl.
  - split; [done|].
    destruct (construct_entries cls entries h0) as [h1|e] eqn:Hc; simpl.
    2:{ unfold file_catch. case_bool_decide; simpl; intros Hem.
        - apply (f_equal length) in Hem. rewrite length_app in Hem. simpl in Hem. lia.
        - by apply app_inv_head in Hem. }
    intros _ key _. rewrite lookup_eq. simpl. rewrite map_get_new_Map.
    apply construct_entries_rel in Hc as (_ & _ & Hrel); [|done|].
    2:{ intros k a Hin. apply list_elem_of_lookup in Hin as [i Hi].
        by destruct (Forall2_lookup_l _ _ _ _ _ Hall Hi) as (se & _ & _ & Hcl). }
    pose proof (last_pair_Forall2
                  (λ a js, view h0 <$> arr h0 a = js ∧ Forall (closed_item h0) (arr h0 a)
                           ∧ ∃ k, (k, a) ∈ entries) entries s key) as Hlast.
    destruct (last_pair entries key) as [a|], (last_pair s key) as [js|];
      simpl in *.
    + destruct Hlast as (<- & _ & k & Hin).
      * eapply Forall2_impl_l; [|exact Hboth|].
        { apply Forall_forall. intros e He. exact He. }
        intros [k a0] se Hin (Hkey & Hview & Hcl). simpl in *.
        split; [done|]. split; [done|]. split; [done|]. by exists k.
      * rewrite mapM_result_fmap. unfold stringify_items. symmetry.
        eapply mapM_result_rel; [apply (Hrel k a Hin)|].
        intros r r' [_ Hr]. unfold copy_of. simpl. by rewrite Hr.
    + exfalso. apply Hlast.
      eapply Forall2_impl_l; [|exact Hboth|].
      { apply Forall_forall. intros e He. exact He. }
      intros [k a0] se Hin (Hkey & Hview & Hcl). simpl in *.
      split; [done|]. split; [done|]. split; [done|]. by exists k.
    + exfalso. apply Hlast.
      eapply Forall2_impl_l; [|exact Hboth|].
      { apply Forall_forall. intros e He. exact He. }
      intros [k a0] se Hin (Hkey & Hview & Hcl). simpl in *.
      split; [done|]. split; [done|]. split; [done|]. by exists k.
    + done.
  - split; [done|]. intros _ key _. rewrite lookup_eq. simpl. rewrite map_get_new_Map.
    pose proof (last_pair_Forall2 (λ a js, view h0 <$> arr h0 a = js) entries s key)
      as Hlast.
    destruct (last_pair entries key) as [a|], (last_pair s key) as [js|];
      simpl in *; [| | |done].
    + rewrite <- Hlast.
      * by rewrite mapM_result_fmap.
      * eapply Forall2_impl; [exact Hboth|]. by intros e se (? & ? & _).
    + exfalso. apply Hlast.
      eapply Forall2_impl; [exact Hboth|]. by intros e se (? & ? & _).
    + exfalso. apply Hlast.
      eapply Forall2_impl; [exact Hboth|]. by intros e se (? & ? & _).
Qed.

Lemma snapshot_file_serves_last_pair_witness :
  lookup (VPrim (PNum 1))
    (loadCacheFromFile saving_cfg 1
       (ReadOk (FileJson [(VPrim (PNum 1), [VPrim (PStr "a")]);
                          (VPrim (PNum 2), [VPrim (PStr "c")]);
                          (VPrim (PNum 1), [VPrim (PStr "b")])]))
       new_cache)
  = Ok [VPrim (PStr "b")].
Proof.
  apply (proj2 (snapshot_file_serves_last_pair saving_cfg 1
                  [(VPrim (PNum 1), [VPrim (PStr "a")]);
                   (VPrim (PNum 2), [VPrim (PStr "c")]);
                   (VPrim (PNum 1), [VPrim (PStr "b")])] new_cache)).
  - reflexivity.
  - exact I.
Defined.

(** ** Every record goes through the constructor *)





(** ** What a cycle serves *)



Lemma distinct_keys_snoc keys k :
  distinct_keys (keys ++ [k])
  = if existsb (λ k', same_value_zero k' k) (distinct_keys keys)
    then distinct_keys keys else distinct_keys keys ++ [k].
Proof. unfold distinct_keys. by rewrite foldl_app. Qed.

Lemma map_get_existsb (m : jsmap) k :
  is_Some (map_get m k) ↔ existsb (λ k', same_value_zero k' k) m.*1 = true.
Proof.
  induction m as [|[k0 a0] m IH]; simpl.
  - split; [by intros [? ?]|done].
  - destruct (same_value_zero k0 k); simpl; [by split|done].
Qed.

Lemma merge_step_key_order Item k v h m h' m' :
  merge_step Item (k, v) h m = Ok (h', m') →
  m'.*1 = if existsb (λ k', same_value_zero k' k) m.*1 then m.*1 else m.*1 ++ [k].
Proof.
  intros (h1 & c & _ & Hm)%merge_step_Ok. unfold merges in Hm.
  pose proof (map_get_existsb m k) as Hex.
  destruct (map_get m k) as [b|] eqn:Hget.
  - destruct Hm as [-> _]. by rewrite (proj1 Hex).
  - assert (existsb (λ k', same_value_zero k' k) m.*1 = false) as ->.
    { destruct (existsb _ m.*1); [|done]. by destruct (proj2 Hex eq_refl). }
    assert (m' = map_set m k match v with Scalar _ => length (arrs h1) | Seq a => a end)
      as -> by (by destruct v; destruct Hm as [_ ->]).
    rewrite map_set_fresh by (by apply map_get_None_keys).
    by rewrite fmap_app.
Qed.

Lemma merge_loop_key_order Item mapItems h h' m :
  merge_loop Item mapItems h [] = Ok (h', m) →
  m.*1 = distinct_keys mapItems.*1.
Proof.
  assert (∀ done rest h0 m0 h1 m1,
            m0.*1 = distinct_keys done.*1 →
            merge_loop Item rest h0 m0 = Ok (h1, m1) →
            m1.*1 = distinct_keys (done ++ rest).*1) as Hgen.
  { intros done rest. revert done.
    induction rest as [|[k v] rest IH]; intros done h0 m0 h1 m1 Hinv; simpl.
    - intros [= <- <-]. by rewrite app_nil_r.
    - destruct (merge_step Item (k, v) h0 m0) as [[h2 m2]|e] eqn:Hstep; simpl; [|done].
      intros Hloop. rewrite cons_middle, app_assoc.
      apply (IH (done ++ [(k, v)]) _ _ _ _) in Hloop; [done|].
      rewrite fmap_app. simpl. rewrite distinct_keys_snoc, <- Hinv.
      by apply merge_step_key_order in Hstep. }
  intros Hloop. by apply (Hgen [] mapItems h [] h' m).
Qed.

(** X22. The keys of the Index a cycle builds, in the order in which the
    [Map] holds them, are the keys of the mapper's output, each once, in
    the order of its first pair, when these keys are scalars. *)
Theorem cycle_key_order (cfg : config) (now : nat) (h h1 : store)
    (rows : list item) (mapItems : list mapItem) (c c' : cache) :
  map_rows cfg rows h = Ok (mapItems, h1) →
  Forall scalar_key mapItems.*1 →
  loadFromDatabase cfg now (QRows h rows) c = Ok c' →
  (data c').*1 = distinct_keys mapItems.*1.
Proof.
  intros Hmap _ Hload.
  destruct (loadFromDatabase_merged _ _ _ _ _ _ _ _ Hmap Hload)
    as [(_ & -> & ->)|Hloop]; [done|].
  by eapply merge_loop_key_order.
Qed.

Lemma cycle_key_order_witness :
  map_rows example_cfg [IObj 0] example_rows_store = Ok (example_mapItems, example_store)
  ∧ Forall scalar_key example_mapItems.*1
  ∧ ∃ c',
      loadFromDatabase example_cfg 1 (QRows example_rows_store [IObj 0]) new_cache = Ok c'
      ∧ (data c').*1 = [VPrim (PNum 1); VPrim (PNum 2)].
Proof.
  split; [reflexivity|]. split; [repeat constructor|].
  eexists. split; [vm_compute; reflexivity|].
  refine (cycle_key_order example_cfg 1 example_rows_store example_store [IObj 0]
            example_mapItems new_cache _ eq_refl _ eq_refl).
  repeat constructor.
Defined.
